(** * modem-stats: the Superhub 5 statistics pipeline and the Loki log shipper

    A shallow embedding of
    - [utils/tools.go]      : [BoundedParallelGet], [HttpResult];
    - [utils] types         : [ModemChannel], [ModemConfig], [ModemStats],
                              [EventLogEntry];
    - [modems/superhub5]    : [Modem], [ClearStats], [apiAddress],
                              [ParseStats], [FetchEventLog];
    - [outputs/loki.go]     : [LokiExporter], [logKey], [PushLogs].

    Go's [int] is the 64-bit two's complement integer, written here as [Z]
    with the wrap-around spelled out.  [float32] is IEEE binary32, taken from
    the Standard Library's [SpecFloat] at precision 24 and exponent bound
    128.  Goroutines are a labelled transition system; everything the outside
    world decides (clock readings, HTTP answers, completion times) is read
    from an explicit oracle, and every effect is recorded in a trace. *)

From Stdlib Require Import ZArith List String Ascii Lia Bool.
From Stdlib Require Import Floats.SpecFloat DecimalString DecimalFacts DecimalPos.
From stdpp Require Import base option list gmap strings sorting.

Local Open Scope string_scope.
Local Open Scope list_scope.
Local Open Scope Z_scope.

(* ===================================================================== *)
(** * Go primitives                                                       *)
(* ===================================================================== *)

(** Go [int] / [int64] on the supported 64-bit targets. *)
Module GoInt.

Definition min_int : Z := - 2 ^ 63.
Definition max_int : Z := 2 ^ 63 - 1.

Definition in_range (z : Z) : Prop := min_int <= z <= max_int.

Definition in_rangeb (z : Z) : bool := (min_int <=? z) && (z <=? max_int).

(** Two's complement wrap-around of an unbounded result. *)
Definition wrap (z : Z) : Z := (z + 2 ^ 63) mod 2 ^ 64 - 2 ^ 63.

Definition add (a b : Z) : Z := wrap (a + b).
Definition sub (a b : Z) : Z := wrap (a - b).
Definition mul (a b : Z) : Z := wrap (a * b).

End GoInt.

(** Go [float32]: IEEE 754 binary32 with round-to-nearest-even. *)
Module Float32.

Definition prec : Z := 24.
Definition emax : Z := 128.

Definition t : Type := spec_float.

(** The float32 nearest to an integer (exact below 2^24). *)
Definition of_Z (z : Z) : t := binary_normalize prec emax z 0 false.

Definition mul : t -> t -> t := SFmul prec emax.
Definition div : t -> t -> t := SFdiv prec emax.

(** The float32 nearest to the decimal [num / den]; this is what decoding
    the JSON number yields when [num] and [den] are themselves exact
    float32 values, IEEE division being correctly rounded. *)
Definition of_decimal (num den : Z) : t := div (of_Z num) (of_Z den).

(** Truncation toward zero of a finite value. *)
Definition trunc (f : t) : option Z :=
  match f with
  | S754_zero _ => Some 0
  | S754_finite s m e =>
      let mag := if 0 <=? e then Z.pos m * 2 ^ e else Z.pos m / 2 ^ (- e) in
      Some (if s then - mag else mag)
  | S754_infinity _ | S754_nan => None
  end.

(** The conversion [int(f)].  Go truncates toward zero; when the value does
    not fit the result is implementation-dependent, and amd64's CVTTSS2SQ
    answers the "integer indefinite" value [min_int]. *)
Definition to_int (f : t) : Z :=
  match trunc f with
  | Some z => if GoInt.in_rangeb z then z else GoInt.min_int
  | None => GoInt.min_int
  end.

(** The untyped constant [10] converted to float32. *)
Definition ten : t := of_Z 10.

End Float32.

(** [regexp.MustCompile("[0-9]+").FindString]: the leftmost, longest run of
    ASCII digits, or the empty string when there is none. *)
Definition is_digit (c : ascii) : bool :=
  let n := nat_of_ascii c in ((48 <=? n) && (n <=? 57))%nat.

Fixpoint take_digits (s : string) : string :=
  match s with
  | EmptyString => EmptyString
  | String c rest => if is_digit c then String c (take_digits rest) else EmptyString
  end.

Fixpoint modulationRegex_FindString (s : string) : string :=
  match s with
  | EmptyString => EmptyString
  | String c rest =>
      if is_digit c then String c (take_digits rest)
      else modulationRegex_FindString rest
  end.

(** Go [error] values: an opaque message, or [fmt.Errorf("...: %w", err)]. *)
Inductive error : Type :=
| ErrMsg (msg : string)
| ErrWrap (context : string) (cause : error).

(* ===================================================================== *)
(** * utils: the canonical statistics model                               *)
(* ===================================================================== *)

Record ModemChannel : Type := mkModemChannel {
  ChannelID : Z;
  Channel : Z;
  Frequency : Z;
  Snr : Z;
  Power : Z;
  Prerserr : Z;
  Postrserr : Z;
  Modulation : string;
  Scheme : string;
  Noise : Z;
  Attenuation : Z;
  T1Timeout : Z;
  T2Timeout : Z;
  T3Timeout : Z;
  T4Timeout : Z;
  Locked : bool;
  SymbolRate : Z
}.

Record ModemConfig : Type := mkModemConfig {
  Config : string;
  Maxrate : Z;
  Maxburst : Z;
  ServiceFlowId : Z
}.

Record ModemStats : Type := mkModemStats {
  Configs : list ModemConfig;
  UpChannels : list ModemChannel;
  DownChannels : list ModemChannel;
  StatsFetchTime : Z;
  ModemType : string
}.

Record EventLogEntry : Type := mkEventLogEntry {
  Priority : string;
  Timestamp : string;
  Message : string
}.

(** [utils.ModemStats{}]. *)
Definition zero_ModemStats : ModemStats := mkModemStats [] [] [] 0 "".

(* ===================================================================== *)
(** * superhub5: the decoded raw document                                 *)
(* ===================================================================== *)

Record dsChannel : Type := mkDsChannel {
  ds_ID : Z;
  ds_Frequency : Z;
  ds_Power : Float32.t;
  ds_Modulation : string;
  ds_SNR : Z;
  ds_PreRS : Z;
  ds_PostRS : Z;
  ds_ChannelType : string;
  ds_RxMer : Z;
  ds_LockStatus : bool
}.

Record usChannel : Type := mkUsChannel {
  us_ID : Z;
  us_Frequency : Z;
  us_Power : Float32.t;
  us_Modulation : string;
  us_ChannelType : string;
  us_LockStatus : bool;
  us_SymbolRate : Z;
  us_T1Timeout : Z;
  us_T2Timeout : Z;
  us_T3Timeout : Z;
  us_T4Timeout : Z
}.

Record serviceFlow : Type := mkServiceFlow {
  sf_ID : Z;
  sf_Direction : string;
  sf_MaxRate : Z;
  sf_MaxBurst : Z
}.

Record eventLogEntry : Type := mkEventLogEntryRaw {
  ev_Priority : string;
  ev_Time : string;
  ev_Message : string
}.

Record resultsStruct : Type := mkResults {
  Downstream_Channels : list dsChannel;
  Upstream_Channels : list usChannel;
  ServiceFlows : list serviceFlow
}.

(* ===================================================================== *)
(** * superhub5: the normalizer (the three loops of [ParseStats])         *)
(* ===================================================================== *)

(** The line [fmt.Println("Unknown channel scheme:", t)] writes. *)
Definition unknown_scheme_line (channelType : string) : string :=
  "Unknown channel scheme: " +:+ channelType.

(** One iteration of [for index, downstream := range ...]:
    [inr c] appends [c], [inl line] prints [line] and continues. *)
Definition downstream_body (index : nat) (downstream : dsChannel)
  : string + ModemChannel :=
  let qamSize := modulationRegex_FindString (ds_Modulation downstream) in
  let powerInt := Float32.to_int (Float32.mul (ds_Power downstream) Float32.ten) in
  let snr := GoInt.mul (ds_SNR downstream) 10 in
  let emit scheme powerInt snr :=
    inr {| ChannelID := ds_ID downstream;
           Channel := Z.of_nat index + 1;
           Frequency := ds_Frequency downstream;
           Snr := snr;
           Power := powerInt;
           Prerserr := GoInt.add (ds_PreRS downstream) (ds_PostRS downstream);
           Postrserr := ds_PostRS downstream;
           Modulation := "QAM" +:+ qamSize;
           Scheme := scheme;
           Noise := 0; Attenuation := 0;
           T1Timeout := 0; T2Timeout := 0; T3Timeout := 0; T4Timeout := 0;
           Locked := ds_LockStatus downstream;
           SymbolRate := 0 |} in
  if String.eqb (ds_ChannelType downstream) "sc_qam" then
    emit "SC-QAM" powerInt snr
  else if String.eqb (ds_ChannelType downstream) "ofdm" then
    emit "OFDM" (Float32.to_int (ds_Power downstream)) (ds_RxMer downstream)
  else
    inl (unknown_scheme_line (ds_ChannelType downstream)).

(** One iteration of [for index, upstream := range ...]. *)
Definition upstream_body (index : nat) (upstream : usChannel)
  : string + ModemChannel :=
  let powerInt := Float32.to_int (Float32.mul (us_Power upstream) Float32.ten) in
  let emit scheme powerInt :=
    inr {| ChannelID := us_ID upstream;
           Channel := Z.of_nat index + 1;
           Frequency := us_Frequency upstream;
           Snr := 0;
           Power := powerInt;
           Prerserr := 0;
           Postrserr := 0;
           Modulation := "";
           Scheme := scheme;
           Noise := 0; Attenuation := 0;
           T1Timeout := us_T1Timeout upstream;
           T2Timeout := us_T2Timeout upstream;
           T3Timeout := us_T3Timeout upstream;
           T4Timeout := us_T4Timeout upstream;
           Locked := us_LockStatus upstream;
           SymbolRate := us_SymbolRate upstream |} in
  if String.eqb (us_ChannelType upstream) "atdma" then
    emit "ATDMA" powerInt
  else if String.eqb (us_ChannelType upstream) "ofdma" then
    emit "OFDMA" (Float32.to_int (us_Power upstream))
  else
    inl (unknown_scheme_line (us_ChannelType upstream)).

(** [for index, x := range xs { body }] where the body either appends one
    channel or prints one line and continues.  The state is the slice being
    appended to and what was written to standard output. *)
Section RangeLoop.
Context {A : Type} (body : nat -> A -> string + ModemChannel).

Fixpoint range_channels (index : nat) (xs : list A)
    (channels : list ModemChannel) (stdout : list string)
  : list ModemChannel * list string :=
  match xs with
  | [] => (channels, stdout)
  | x :: rest =>
      match body index x with
      | inl line => range_channels (S index) rest channels (stdout ++ [line])
      | inr c => range_channels (S index) rest (channels ++ [c]) stdout
      end
  end.
End RangeLoop.

Definition config_of (modemConfig : serviceFlow) : ModemConfig :=
  {| Config := sf_Direction modemConfig;
     Maxrate := sf_MaxRate modemConfig;
     Maxburst := sf_MaxBurst modemConfig;
     ServiceFlowId := sf_ID modemConfig |}.

(** Everything [ParseStats] does after [json.Unmarshal] succeeded: the
    snapshot, and the lines printed. *)
Definition normalize (results : resultsStruct) (fetchTime : Z)
  : ModemStats * list string :=
  let '(downChannels, out1) :=
    range_channels downstream_body 0 (Downstream_Channels results) [] [] in
  let '(upChannels, out2) :=
    range_channels upstream_body 0 (Upstream_Channels results) [] out1 in
  let modemConfigs := map config_of (ServiceFlows results) in
  ({| Configs := modemConfigs;
      UpChannels := upChannels;
      DownChannels := downChannels;
      StatsFetchTime := fetchTime;
      ModemType := "" |}, out2).

(* ===================================================================== *)
(** * net/http as the code sees it                                        *)
(* ===================================================================== *)

(** What [io.ReadAll(resp.Body)] returns for a response body. *)
Inductive ReadOutcome : Type :=
| ReadOk (data : list Byte.byte)
| ReadFail (err : error).

(** A response as it comes off the wire: the body is never nil. *)
Record WireResponse : Type := mkWireResponse {
  wire_StatusCode : Z;
  wire_Body : ReadOutcome
}.

(** What [client.Get(url)] returns: [(res, nil)], [(nil, err)] or, when the
    redirect policy fails, both a response and an error. *)
Inductive GetOutcome : Type :=
| GetResp (res : WireResponse)
| GetFail (err : error)
| GetRespFail (res : WireResponse) (err : error).

(** [http.Response] held by value; its zero value has a nil [Body]. *)
Record Response : Type := mkResponse {
  StatusCode : Z;
  Body : option ReadOutcome
}.

Definition zero_Response : Response := mkResponse 0 None.

Definition deref (res : WireResponse) : Response :=
  mkResponse (wire_StatusCode res) (Some (wire_Body res)).

Record HttpResult : Type := mkHttpResult {
  Index : nat;
  Res : Response;
  Err : option error
}.

(** The body of the goroutine between the two semaphore operations:
    [if res != nil { &HttpResult{i, *res, err} } else { &HttpResult{Index: i, Err: err} }]. *)
Definition mk_result (i : nat) (o : GetOutcome) : HttpResult :=
  match o with
  | GetResp res => mkHttpResult i (deref res) None
  | GetFail err => mkHttpResult i zero_Response (Some err)
  | GetRespFail res err => mkHttpResult i (deref res) (Some err)
  end.

(* ===================================================================== *)
(** * utils.BoundedParallelGet: the goroutines as a transition system     *)
(* ===================================================================== *)

(** Where goroutine [i] stands. *)
Inductive gstate : Type :=
| GAcquire                      (* before [semaphoreChan <- struct{}{}] *)
| GGet                          (* holds a slot, inside [client.Get] *)
| GSend (result : HttpResult)   (* before [resultsChan <- result] *)
| GRelease                      (* before [<-semaphoreChan] *)
| GDone.

Record bpg_state : Type := mkBpg {
  goroutines : list gstate;
  semaphoreChan : nat;               (* tokens buffered in the channel *)
  resultsChan : list HttpResult;     (* buffered results, oldest first *)
  results : list HttpResult;         (* the slice the caller appends to *)
  returned : bool
}.

Inductive action : Type :=
| Acquire (i : nat)
| DoGet (i : nat)
| Send (i : nat)
| Release (i : nat)
| Receive
| Return.

Section BoundedParallelGet_lts.
Context (answers : nat -> string -> GetOutcome).
Context (urls : list string) (concurrencyLimit : Z).

Definition bpg_init : bpg_state :=
  {| goroutines := replicate (length urls) GAcquire;
     semaphoreChan := 0;
     resultsChan := [];
     results := [];
     returned := false |}.

Definition set_goroutine (i : nat) (g : gstate) (s : bpg_state) : bpg_state :=
  {| goroutines := <[i := g]> (goroutines s);
     semaphoreChan := semaphoreChan s;
     resultsChan := resultsChan s;
     results := results s;
     returned := returned s |}.

(** One atomic step.  A send on a buffered channel needs room, a receive
    needs an element; receiving from [semaphoreChan] after the caller closed
    it never blocks. *)
Definition do_action (a : action) (s : bpg_state) : option bpg_state :=
  match a with
  | Acquire i =>
      match goroutines s !! i with
      | Some GAcquire =>
          if bool_decide (Z.of_nat (semaphoreChan s) < concurrencyLimit) then
            Some {| goroutines := <[i := GGet]> (goroutines s);
                    semaphoreChan := S (semaphoreChan s);
                    resultsChan := resultsChan s;
                    results := results s;
                    returned := returned s |}
          else None
      | _ => None
      end
  | DoGet i =>
      match goroutines s !! i, urls !! i with
      | Some GGet, Some url =>
          Some (set_goroutine i (GSend (mk_result i (answers i url))) s)
      | _, _ => None
      end
  | Send i =>
      match goroutines s !! i with
      | Some (GSend result) =>
          if bool_decide (length (resultsChan s) < length urls)%nat then
            Some {| goroutines := <[i := GRelease]> (goroutines s);
                    semaphoreChan := semaphoreChan s;
                    resultsChan := resultsChan s ++ [result];
                    results := results s;
                    returned := returned s |}
          else None
      | _ => None
      end
  | Release i =>
      match goroutines s !! i with
      | Some GRelease =>
          Some {| goroutines := <[i := GDone]> (goroutines s);
                  semaphoreChan := Nat.pred (semaphoreChan s);
                  resultsChan := resultsChan s;
                  results := results s;
                  returned := returned s |}
      | _ => None
      end
  | Receive =>
      match resultsChan s with
      | result :: rest =>
          if negb (returned s) && bool_decide (length (results s) < length urls)%nat then
            Some {| goroutines := goroutines s;
                    semaphoreChan := semaphoreChan s;
                    resultsChan := rest;
                    results := results s ++ [result];
                    returned := false |}
          else None
      | [] => None
      end
  | Return =>
      if negb (returned s) && bool_decide (length (results s) = length urls) then
        Some {| goroutines := goroutines s;
                semaphoreChan := semaphoreChan s;
                resultsChan := resultsChan s;
                results := results s;
                returned := true |}
      else None
  end.

Definition bpg_step (s s' : bpg_state) : Prop :=
  exists a, do_action a s = Some s'.

(** Running a schedule, for concrete executions. *)
Fixpoint run_actions (sched : list action) (s : bpg_state) : option bpg_state :=
  match sched with
  | [] => Some s
  | a :: rest =>
      match do_action a s with
      | Some s' => run_actions rest s'
      | None => None
      end
  end.

Inductive bpg_reachable : bpg_state -> Prop :=
| reach_init : bpg_reachable bpg_init
| reach_step s s' : bpg_reachable s -> bpg_step s s' -> bpg_reachable s'.

(** Whatever the scheduler does from [s], the call returns. *)
Inductive must_return : bpg_state -> Prop :=
| must_now s : returned s = true -> must_return s
| must_later s :
    (exists s', bpg_step s s') ->
    (forall s', bpg_step s s' -> must_return s') ->
    must_return s.

(** The goroutine has its answer: [client.Get] completed or failed. *)
Definition request_finished (g : gstate) : Prop :=
  match g with
  | GAcquire | GGet => False
  | GSend _ | GRelease | GDone => True
  end.

(** The result request [i] produces. *)
Definition result_of (i : nat) : option HttpResult :=
  (fun url => mk_result i (answers i url)) <$> urls !! i.

End BoundedParallelGet_lts.

(** The call as a function.  The results come back in the order the
    goroutines put them on [resultsChan], that is by completion time
    [finish i] of request [i] (equal times in index order): the slice is not
    reordered by [Index].  [None] is a call that does not return: [make]
    panics on a negative capacity, and with capacity 0 no goroutine ever gets
    past the semaphore. *)
Record NetOracle : Type := mkNetOracle {
  http_Get : nat -> string -> GetOutcome;
  finish : nat -> nat
}.

(** Request [i] completes no later than request [j]. *)
Definition finishes_before (net : NetOracle) (i j : nat) : Prop :=
  (finish net i <= finish net j)%nat.

#[global] Instance finishes_before_dec net : RelDecision (finishes_before net).
Proof. intros i j. unfold finishes_before. apply _. Defined.

(** The request indices in the order their results reach [resultsChan]. *)
Definition completion_order (net : NetOracle) (n : nat) : list nat :=
  merge_sort (finishes_before net) (seq 0 n).

Definition BoundedParallelGet (net : NetOracle) (urls : list string)
    (concurrencyLimit : Z) : option (list HttpResult) :=
  if concurrencyLimit <? 0 then None
  else if (concurrencyLimit =? 0) && negb (bool_decide (urls = [])) then None
  else Some (omap (result_of (http_Get net) urls)
                  (completion_order net (length urls))).

(* ===================================================================== *)
(** * superhub5.Modem: the accumulator and [ParseStats]                   *)
(* ===================================================================== *)

(** The two JSON libraries the package imports, as the code calls them:
    [jsonpatch.MergeMergePatches] returns a Go pair (data, err), and
    [json.Unmarshal] decodes into a zero-valued destination. *)
Record JsonLib : Type := mkJsonLib {
  MergeMergePatches : list Byte.byte -> list Byte.byte -> option (list Byte.byte) * option error;
  Unmarshal_results : list Byte.byte -> error + resultsStruct;
  Unmarshal_eventlog : list Byte.byte -> error + list eventLogEntry
}.

Record Modem : Type := mkModem {
  IPAddress : string;
  Stats : option (list Byte.byte);     (* [None] is the nil slice *)
  FetchTime : Z
}.

Definition ClearStats (sh5 : Modem) : Modem :=
  {| IPAddress := IPAddress sh5; Stats := None; FetchTime := FetchTime sh5 |}.

Definition apiAddress (sh5 : Modem) : string * Modem :=
  let sh5 :=
    if String.eqb (IPAddress sh5) "" then
      {| IPAddress := "192.168.100.1"; Stats := Stats sh5; FetchTime := FetchTime sh5 |}
    else sh5 in
  ("https://" +:+ IPAddress sh5 +:+ "/rest/v1/cablemodem", sh5).

(** How a call ends: it returns a value, returns an error (with the zero
    value), or does not return (a panic or a deadlock). *)
Inductive outcome (A : Type) : Type :=
| Returns (a : A)
| Fails (e : error)
| Crashes.
Arguments Returns {A} a.
Arguments Fails {A} e.
Arguments Crashes {A}.

(** What the outside world answers during one [ParseStats] call. *)
Record World : Type := mkWorld {
  now_UnixMilli : nat -> Z;      (* the k-th reading of the clock *)
  net : NetOracle
}.

Inductive Event : Type :=
| EvNow
| EvGet (urls : list string) (concurrencyLimit : Z)
| EvPrintln (line : string).

(** [[]byte("{}")]. *)
Definition empty_object : list Byte.byte := list_byte_of_string "{}".

(** The body of [for _, query := range statsData]. *)
Definition accumulate_body (lib : JsonLib) (query : HttpResult) (sh5 : Modem)
  : outcome unit * Modem :=
  match Err query with
  | Some err => (Fails err, sh5)
  | None =>
      match Body (Res query) with
      | None => (Crashes, sh5)
      | Some (ReadFail err) => (Fails err, sh5)
      | Some (ReadOk stats) =>
          let '(merged, err) := MergeMergePatches lib (default [] (Stats sh5)) stats in
          let sh5 := {| IPAddress := IPAddress sh5; Stats := merged; FetchTime := FetchTime sh5 |} in
          match err with
          | Some err => (Fails err, sh5)
          | None => (Returns tt, sh5)
          end
      end
  end.

Fixpoint accumulate (lib : JsonLib) (statsData : list HttpResult) (sh5 : Modem)
  : outcome unit * Modem :=
  match statsData with
  | [] => (Returns tt, sh5)
  | query :: rest =>
      match accumulate_body lib query sh5 with
      | (Returns _, sh5) => accumulate lib rest sh5
      | stop => stop
      end
  end.

Definition stats_queries (base : string) : list string :=
  [base +:+ "/downstream"; base +:+ "/upstream"; base +:+ "/serviceflows"].

(** The [if sh5.Stats == nil { ... }] block. *)
Definition fetch_block (lib : JsonLib) (w : World) (sh5 : Modem)
  : outcome unit * Modem * list Event :=
  let sh5 := {| IPAddress := IPAddress sh5; Stats := Some empty_object; FetchTime := FetchTime sh5 |} in
  let '(base, sh5) := apiAddress sh5 in
  let queries := stats_queries base in
  let timeStart := now_UnixMilli w 0 in
  match BoundedParallelGet (net w) queries 3 with
  | None => (Crashes, sh5, [EvNow; EvGet queries 3])
  | Some statsData =>
      let sh5 := {| IPAddress := IPAddress sh5; Stats := Stats sh5;
                    FetchTime := GoInt.sub (now_UnixMilli w 1) timeStart |} in
      let '(r, sh5) := accumulate lib statsData sh5 in
      (r, sh5, [EvNow; EvGet queries 3; EvNow])
  end.

(** Decoding and the three loops. *)
Definition parse_block (lib : JsonLib) (sh5 : Modem) : outcome ModemStats * list Event :=
  match Unmarshal_results lib (default [] (Stats sh5)) with
  | inl err => (Fails (ErrWrap "failed to parse stats JSON" err), [])
  | inr results =>
      let '(stats, out) := normalize results (FetchTime sh5) in
      (Returns stats, map EvPrintln out)
  end.

Definition ParseStats (lib : JsonLib) (w : World) (sh5 : Modem)
  : outcome ModemStats * Modem * list Event :=
  let '(r, sh5, tr) :=
    match Stats sh5 with
    | None => fetch_block lib w sh5
    | Some _ => (Returns tt, sh5, [])
    end in
  match r with
  | Returns _ => let '(r, out) := parse_block lib sh5 in (r, sh5, tr ++ out)
  | Fails err => (Fails err, sh5, tr)
  | Crashes => (Crashes, sh5, tr)
  end.

(** [FetchEventLog]: one GET, no goroutines. *)
Definition FetchEventLog (lib : JsonLib) (get : string -> GetOutcome) (sh5 : Modem)
  : (error + list EventLogEntry) * Modem :=
  let '(base, sh5) := apiAddress sh5 in
  let url := base +:+ "/eventlog" in
  match get url with
  | GetFail err | GetRespFail _ err =>
      (inl (ErrWrap "failed to fetch eventlog" err), sh5)
  | GetResp res =>
      match wire_Body res with
      | ReadFail err => (inl (ErrWrap "failed to read eventlog response" err), sh5)
      | ReadOk body =>
          match Unmarshal_eventlog lib body with
          | inl err => (inl (ErrWrap "failed to parse eventlog JSON" err), sh5)
          | inr eventLog =>
              let entries :=
                map (fun e => {| Priority := ev_Priority e;
                                 Timestamp := ev_Time e;
                                 Message := ev_Message e |}) eventLog in
              (inr entries, sh5)
          end
      end
  end.

(* ===================================================================== *)
(** * outputs.LokiExporter: the deduplicating log shipper                 *)
(* ===================================================================== *)

Record lokiStream : Type := mkLokiStream {
  Stream : gmap string string;
  Values : list (list string)
}.

Record lokiPushRequest : Type := mkLokiPushRequest {
  Streams : list lokiStream
}.

(** The fields [PushLogs] reads and writes; the HTTP client, the mutex and
    the log provider are the outside world. *)
Record LokiExporter : Type := mkLokiExporter {
  endpoint : string;
  seenLogs : gmap string bool;
  labels : gmap string string
}.

(** [fmt.Sprintf("%d", n)]. *)
Definition Sprintf_d (n : Z) : string := NilZero.string_of_int (Z.to_int n).

(** [fmt.Sprintf("%s|%s|%s", entry.Timestamp, entry.Priority, entry.Message)]. *)
Definition logKey (entry : EventLogEntry) : string :=
  Timestamp entry +:+ "|" +:+ Priority entry +:+ "|" +:+ Message entry.

(** [l.seenLogs[key]]: a missing key reads as [false]. *)
Definition seen (l : LokiExporter) (key : string) : bool :=
  default false (seenLogs l !! key).

(** What [l.client.Post] returns: an error, or a response with its status. *)
Inductive PostOutcome : Type :=
| PostResp (status : Z)
| PostFail (err : error).

(** What the outside world answers during one [PushLogs] call. *)
Record ShipWorld : Type := mkShipWorld {
  fetched : error + list EventLogEntry;   (* [l.logProvider.FetchEventLog()] *)
  now_UnixNano : nat -> Z;                (* the k-th [time.Now().UnixNano()] *)
  posted : PostOutcome
}.

Inductive ShipEvent : Type :=
| EvFetchEventLog
| EvPost (url : string) (req : lokiPushRequest)
| EvLogPrintf (line : string).

(** [values[i][0] < values[j][0]]: Go compares strings byte by byte. *)
Definition values_less (a b : list string) : bool :=
  String.ltb (hd "" a) (hd "" b).

(** [a] may stand before [b] in a slice sorted by [values_less]. *)
Definition values_le (a b : list string) : Prop := values_less b a = false.

#[global] Instance values_le_dec : RelDecision values_le.
Proof. intros a b. unfold values_le. apply _. Defined.

(** [sort.Slice(values, less)]: a permutation ordered by [less].  Go leaves
    the order of equal elements open; the model takes merge sort's. *)
Definition sort_Slice (values : list (list string)) : list (list string) :=
  merge_sort values_le values.

Section Shipper.
(** [time.Parse(time.RFC3339, s)] followed by [UnixNano()]: [None] when the
    parse fails. *)
Context (time_Parse_UnixNano : string -> option Z).

(** The loop [for _, entry := range entries] under the read lock. *)
Definition filter_new (l : LokiExporter) (entries : list EventLogEntry)
  : list EventLogEntry :=
  List.filter (fun entry => negb (seen l (logKey entry))) entries.

(** One iteration of the grouping loop; the state is the [streams] map and
    the number of clock readings taken so far. *)
Definition group_body (w : ShipWorld)
    (st : gmap string (list (list string)) * nat) (entry : EventLogEntry)
  : gmap string (list (list string)) * nat :=
  let '(streams, k) := st in
  let '(ts, k) :=
    match time_Parse_UnixNano (Timestamp entry) with
    | Some ts => (ts, k)
    | None => (now_UnixNano w k, S k)
    end in
  let tsNano := Sprintf_d ts in
  (<[Priority entry :=
       default [] (streams !! Priority entry) ++ [[tsNano; Message entry]]]> streams,
   k).

Definition group_entries (w : ShipWorld) (newEntries : list EventLogEntry)
  : gmap string (list (list string)) :=
  fst (fold_left (group_body w) newEntries (∅, 0%nat)).

(** The loop [for priority, values := range streams].  Go ranges over a map
    in an unspecified order; the model takes the order of [map_to_list]. *)
Definition build_streams (l : LokiExporter)
    (streams : gmap string (list (list string))) : list lokiStream :=
  map (fun '(priority, values) =>
         {| Stream := <["level" := priority]> (labels l);
            Values := sort_Slice values |})
      (map_to_list streams).

Definition build_request (l : LokiExporter) (w : ShipWorld)
    (newEntries : list EventLogEntry) : lokiPushRequest :=
  {| Streams := build_streams l (group_entries w newEntries) |}.

(** The loop under the write lock. *)
Definition mark_seen (l : LokiExporter) (newEntries : list EventLogEntry)
  : LokiExporter :=
  {| endpoint := endpoint l;
     seenLogs := fold_left (fun m entry => <[logKey entry := true]> m)
                           newEntries (seenLogs l);
     labels := labels l |}.

(** [PushLogs]: the returned error ([None] is nil), the exporter afterwards,
    and the effects in order.  [json.Marshal] cannot fail on a value made of
    strings, slices and string maps, so the request is kept structured. *)
Definition PushLogs (l : LokiExporter) (w : ShipWorld)
  : option error * LokiExporter * list ShipEvent :=
  match fetched w with
  | inl err => (Some (ErrWrap "failed to fetch event log" err), l, [EvFetchEventLog])
  | inr entries =>
      let newEntries := filter_new l entries in
      if (length newEntries =? 0)%nat then (None, l, [EvFetchEventLog])
      else
        let req := build_request l w newEntries in
        let tr := [EvFetchEventLog; EvPost (endpoint l) req] in
        match posted w with
        | PostFail err => (Some (ErrWrap "failed to push to loki" err), l, tr)
        | PostResp status =>
            if (status <? 200) || (300 <=? status) then
              (Some (ErrMsg ("loki returned status " +:+ Sprintf_d status)), l, tr)
            else
              (None, mark_seen l newEntries,
               tr ++ [EvLogPrintf ("Pushed " +:+ Sprintf_d (Z.of_nat (length newEntries))
                                   +:+ " log entries to Loki")])
        end
  end.

(** The requests a trace pushed to the sink. *)
Definition pushes (tr : list ShipEvent) : list lokiPushRequest :=
  omap (fun ev => match ev with EvPost _ req => Some req | _ => None end) tr.

End Shipper.

(** A reference reading of [time.Parse(time.RFC3339, s).UnixNano()] on the
    UTC whole-second form [YYYY-MM-DDTHH:MM:SSZ]; used for concrete runs. *)
Definition digit_val (c : ascii) : option Z :=
  if is_digit c then Some (Z.of_nat (nat_of_ascii c) - 48) else None.

Fixpoint digits_val (acc : Z) (cs : list ascii) : option Z :=
  match cs with
  | [] => Some acc
  | c :: rest =>
      match digit_val c with
      | Some d => digits_val (10 * acc + d) rest
      | None => None
      end
  end.

Definition field (cs : list ascii) (start len : nat) : option Z :=
  let part := firstn len (skipn start cs) in
  if (length part =? len)%nat then digits_val 0 part else None.

Definition char_at (cs : list ascii) (i : nat) (c : ascii) : bool :=
  match nth_error cs i with
  | Some c' => Ascii.eqb c c'
  | None => false
  end.

Definition is_leap (y : Z) : bool :=
  (y mod 4 =? 0) && (negb (y mod 100 =? 0) || (y mod 400 =? 0)).

Definition days_in_month (y m : Z) : Z :=
  if m =? 2 then (if is_leap y then 29 else 28)
  else if (m =? 4) || (m =? 6) || (m =? 9) || (m =? 11) then 30
  else 31.

(** Days from 1970-01-01 to the civil date, proleptic Gregorian. *)
Definition days_from_civil (y m d : Z) : Z :=
  let y := if m <=? 2 then y - 1 else y in
  let era := y / 400 in
  let yoe := y - era * 400 in
  let mp := (m + 9) mod 12 in
  let doy := (153 * mp + 2) / 5 + d - 1 in
  let doe := yoe * 365 + yoe / 4 - yoe / 100 + doy in
  era * 146097 + doe - 719468.

Definition rfc3339_utc_UnixNano (s : string) : option Z :=
  let cs := list_ascii_of_string s in
  if (length cs =? 20)%nat
     && char_at cs 4 "-" && char_at cs 7 "-" && char_at cs 10 "T"
     && char_at cs 13 ":" && char_at cs 16 ":" && char_at cs 19 "Z"
  then
    match field cs 0 4, field cs 5 2, field cs 8 2,
          field cs 11 2, field cs 14 2, field cs 17 2 with
    | Some y, Some mo, Some d, Some h, Some mi, Some sec =>
        if (1 <=? mo) && (mo <=? 12) && (1 <=? d) && (d <=? days_in_month y mo)
           && (h <? 24) && (mi <? 60) && (sec <? 60)
        then Some ((((days_from_civil y mo d * 24 + h) * 60 + mi) * 60 + sec)
                   * 1000000000)
        else None
    | _, _, _, _, _, _ => None
    end
  else None.

(* ===================================================================== *)
(** * Vocabulary of the statements                                        *)
(* ===================================================================== *)

(** The channels a range loop appends, as a function of the slice. *)
Fixpoint emitted {A : Type} (body : nat -> A -> string + ModemChannel)
    (index : nat) (xs : list A) : list ModemChannel :=
  match xs with
  | [] => []
  | x :: rest =>
      match body index x with
      | inl _ => emitted body (S index) rest
      | inr c => c :: emitted body (S index) rest
      end
  end.

Definition ds_recognized (d : dsChannel) : bool :=
  String.eqb (ds_ChannelType d) "sc_qam" || String.eqb (ds_ChannelType d) "ofdm".

Definition us_recognized (u : usChannel) : bool :=
  String.eqb (us_ChannelType u) "atdma" || String.eqb (us_ChannelType u) "ofdma".

(** Ordinals that skip nothing: the k-th emitted channel, having k
    recognised entries before it, would carry [k + 1]. *)
Definition dense_ordinals (channels : list ModemChannel) : list Z :=
  map (fun k => Z.of_nat k + 1) (seq 0 (length channels)).

(** The first downstream channel of the repository's test document. *)
Definition channel_37 : dsChannel :=
  {| ds_ID := 37; ds_Frequency := 419000000;
     ds_Power := Float32.of_decimal 21 10;
     ds_Modulation := "qam_256"; ds_SNR := 41;
     ds_PreRS := 246832; ds_PostRS := 11087;
     ds_ChannelType := "sc_qam"; ds_RxMer := 0; ds_LockStatus := true |}.

(** The same channel under a technology tag the code does not know. *)
Definition channel_unknown : dsChannel :=
  {| ds_ID := 36; ds_Frequency := 411000000;
     ds_Power := Float32.of_decimal 21 10;
     ds_Modulation := "qam_256"; ds_SNR := 41;
     ds_PreRS := 0; ds_PostRS := 0;
     ds_ChannelType := "docsis4"; ds_RxMer := 0; ds_LockStatus := true |}.

Definition skip_document : resultsStruct :=
  {| Downstream_Channels := [channel_unknown; channel_37];
     Upstream_Channels := [];
     ServiceFlows := [] |}.

(** What the scaled ("sc_qam") branch writes into the channel [c] it emits
    for the raw entry [d]; the arithmetic is Go's. *)
Definition sc_qam_normalized (d : dsChannel) (c : ModemChannel) : Prop :=
  ChannelID c = ds_ID d
  /\ Power c = Float32.to_int (Float32.mul (ds_Power d) Float32.ten)
  /\ Snr c = GoInt.mul (ds_SNR d) 10
  /\ Prerserr c = GoInt.add (ds_PreRS d) (ds_PostRS d)
  /\ Postrserr c = ds_PostRS d
  /\ Modulation c = "QAM" +:+ modulationRegex_FindString (ds_Modulation d)
  /\ Scheme c = "SC-QAM".

Local Open Scope nat_scope.

(** ** Bookkeeping for the goroutine system *)

(** Does the goroutine hold a semaphore slot, has its result been put on
    [resultsChan], is its request in flight, and how many steps it has left. *)
Definition slot (g : gstate) : nat :=
  match g with GGet | GSend _ | GRelease => 1 | GAcquire | GDone => 0 end.
Definition delivered (g : gstate) : bool :=
  match g with GRelease | GDone => true | _ => false end.
Definition in_flight (g : gstate) : nat :=
  match g with GGet => 1 | _ => 0 end.
Definition weight (g : gstate) : nat :=
  match g with GAcquire => 4 | GGet => 3 | GSend _ => 2 | GRelease => 1 | GDone => 0 end.


Definition delivered_indices (s : bpg_state) : list nat :=
  Index <$> (results s ++ resultsChan s).

Definition bpg_measure (urls : list string) (s : bpg_state) : nat :=
  sum_list (weight <$> goroutines s)
  + (length urls - length (results s))
  + (if returned s then 0 else 1).

(** What every reachable state satisfies. *)
Record bpg_inv (answers : nat -> string -> GetOutcome) (urls : list string)
    (concurrencyLimit : Z) (s : bpg_state) : Prop := mkBpgInv {
  inv_length : length (goroutines s) = length urls;
  inv_slots : semaphoreChan s = sum_list (slot <$> goroutines s);
  inv_limit : (Z.of_nat (semaphoreChan s) <= Z.max 0 concurrencyLimit)%Z;
  inv_nodup : NoDup (delivered_indices s);
  inv_delivered : forall i,
    i ∈ delivered_indices s <->
    exists g, goroutines s !! i = Some g /\ delivered g = true;
  inv_results : forall r,
    r ∈ results s ++ resultsChan s -> result_of answers urls (Index r) = Some r;
  inv_pending : forall i r,
    goroutines s !! i = Some (GSend r) -> result_of answers urls i = Some r;
  inv_returned : returned s = true -> length (results s) = length urls
}.
Arguments inv_length {answers urls concurrencyLimit s} _.
Arguments inv_slots {answers urls concurrencyLimit s} _.
Arguments inv_limit {answers urls concurrencyLimit s} _.
Arguments inv_nodup {answers urls concurrencyLimit s} _.
Arguments inv_delivered {answers urls concurrencyLimit s} _ i.
Arguments inv_results {answers urls concurrencyLimit s} _ r _.
Arguments inv_pending {answers urls concurrencyLimit s} _ i r _.
Arguments inv_returned {answers urls concurrencyLimit s} _ _.

(** One request after the other: acquire, get, send, let the caller
    receive, release. *)
Fixpoint sequential_schedule (order : list nat) : list action :=
  match order with
  | [] => [Return]
  | i :: rest =>
      Acquire i :: DoGet i :: Send i :: Receive :: Release i
        :: sequential_schedule rest
  end.


Local Close Scope nat_scope.


(** ** [ParseStats] on a modem without cached document *)

(** The three addresses fetched for [sh5]. *)
Definition queries_of (sh5 : Modem) : list string :=
  stats_queries (fst (apiAddress sh5)).

(** What [BoundedParallelGet(queries, 3)] hands back: completion order. *)
Definition fetched_results (w : World) (sh5 : Modem) : list HttpResult :=
  omap (result_of (http_Get (net w)) (queries_of sh5)) (completion_order (net w) 3).

(** The modem when the loop over the results starts. *)
Definition started (w : World) (sh5 : Modem) : Modem :=
  {| IPAddress := IPAddress (snd (apiAddress sh5));
     Stats := Some empty_object;
     FetchTime := GoInt.sub (now_UnixMilli w 1) (now_UnixMilli w 0) |}.

Definition fetch_trace (sh5 : Modem) : list Event :=
  [EvNow; EvGet (queries_of sh5) 3; EvNow].

(** The request failed, or its body could not be read. *)
Definition fetch_or_read_failure (query : HttpResult) (e : error) : Prop :=
  Err query = Some e \/ (Err query = None /\ Body (Res query) = Some (ReadFail e)).

(** ** Concrete worlds *)

(** A JSON library that knows one document, the empty object, and rejects
    every other input: what the repository's tests EmptyJSON and InvalidJSON
    pin down.  It serves to run concrete calls. *)
Definition is_empty_object (data : list Byte.byte) : bool :=
  String.eqb (string_of_list_byte data) "{}".

Definition test_json : JsonLib :=
  {| MergeMergePatches := fun doc patch =>
       if is_empty_object doc && is_empty_object patch
       then (Some empty_object, None)
       else (None, Some (ErrMsg "Invalid JSON Document"));
     Unmarshal_results := fun data =>
       if is_empty_object data then inr (mkResults [] [] [])
       else inl (ErrMsg "invalid character");
     Unmarshal_eventlog := fun data =>
       if is_empty_object data then inr []
       else inl (ErrMsg "invalid character") |}.

Definition downstream_timeout : error := ErrMsg "downstream: context deadline exceeded".
Definition serviceflows_refused : error := ErrMsg "serviceflows: connection refused".

(** Requests 0 and 2 fail, request 1 is answered; request 2 fails first and
    request 0 last. *)
Definition race_net : NetOracle :=
  {| http_Get := fun i _ =>
       match i with
       | 0%nat => GetFail downstream_timeout
       | 1%nat => GetResp (mkWireResponse 200 (ReadOk empty_object))
       | _ => GetFail serviceflows_refused
       end;
     finish := fun i => match i with 0%nat => 9%nat | 1%nat => 5%nat | _ => 1%nat end |}.

Definition race_world : World :=
  {| now_UnixMilli := fun k => 1000 + 40 * Z.of_nat k; net := race_net |}.

(** Every request is answered with status 503 and an empty JSON object. *)
Definition unavailable_net : NetOracle :=
  {| http_Get := fun _ _ => GetResp (mkWireResponse 503 (ReadOk empty_object));
     finish := fun i => i |}.

Definition unavailable_world : World :=
  {| now_UnixMilli := fun k => 1000 + 40 * Z.of_nat k; net := unavailable_net |}.

Definition fresh_modem : Modem := mkModem "" None 0.

(** What [BoundedParallelGet] returns in [race_world]: request 2 first. *)
Definition race_first : HttpResult := mkHttpResult 2 zero_Response (Some serviceflows_refused).
Definition race_rest : list HttpResult :=
  [mkHttpResult 1 (mkResponse 200 (Some (ReadOk empty_object))) None;
   mkHttpResult 0 zero_Response (Some downstream_timeout)].

(** The same answers under other status codes. *)
Definition restatus_response (f : Z -> Z) (res : WireResponse) : WireResponse :=
  mkWireResponse (f (wire_StatusCode res)) (wire_Body res).
Definition restatus_outcome (f : Z -> Z) (o : GetOutcome) : GetOutcome :=
  match o with
  | GetResp res => GetResp (restatus_response f res)
  | GetFail err => GetFail err
  | GetRespFail res err => GetRespFail (restatus_response f res) err
  end.
Definition restatus_net (f : Z -> Z) (net : NetOracle) : NetOracle :=
  {| http_Get := fun i url => restatus_outcome f (http_Get net i url);
     finish := finish net |}.
Definition restatus_world (f : Z -> Z) (w : World) : World :=
  {| now_UnixMilli := now_UnixMilli w; net := restatus_net f (net w) |}.

(** Two results the accumulator cannot tell apart. *)
Definition same_payload (q q' : HttpResult) : Prop :=
  Err q = Err q' /\ Body (Res q) = Body (Res q').

(** The event-log address answers 404 with an empty JSON object. *)
Definition unavailable_get (url : string) : GetOutcome :=
  GetResp (mkWireResponse 404 (ReadOk empty_object)).


(** The merge library hands back a document whenever it reports no error. *)
Definition merge_returns_document (lib : JsonLib) : Prop :=
  forall doc patch merged, MergeMergePatches lib doc patch = (merged, None) -> is_Some merged.

Local Open Scope string_scope.
Local Open Scope list_scope.
Local Open Scope Z_scope.


(** ** The log shipper *)

(** The sink answered, with a 2xx status. *)
Definition push_confirmed (w : ShipWorld) : Prop :=
  exists status, posted w = PostResp status /\ 200 <= status < 300.

(** An exporter that has shipped nothing yet. *)
Definition shipper : LokiExporter :=
  mkLokiExporter "http://loki:3100/loki/api/v1/push" ∅ (<["job" := "modem-stats"]> ∅).

(** Two entries of one severity, logged before the modem knew the date. *)
Definition boot_log : list EventLogEntry :=
  [mkEventLogEntry "notice" "1970-01-01T00:00:30Z" "earlier";
   mkEventLogEntry "notice" "1970-01-01T00:01:45Z" "later"].

(** The sink accepts the push, or answers 500. *)
Definition accepting_sink : ShipWorld :=
  mkShipWorld (inr boot_log) (fun k => 1700000000000000000 + Z.of_nat k) (PostResp 204).

Definition failing_sink : ShipWorld :=
  mkShipWorld (inr boot_log) (fun k => 1700000000000000000 + Z.of_nat k) (PostResp 500).


(** ** More of the normalizer *)


(** The raw power a modem reports as a decimal with one fractional digit,
    [tenths / 10], once decoded into a float32. *)
Definition power_of_tenths (tenths : Z) : Float32.t := Float32.of_decimal tenths 10.

(** The expression [int(power * 10)] of both channel loops. *)
Definition scaled_power (power : Float32.t) : Z :=
  Float32.to_int (Float32.mul power Float32.ten).

(** The integers from [lo] up to [hi]. *)
Definition Z_range (lo hi : Z) : list Z :=
  map (fun k => lo + Z.of_nat k) (seq 0 (Z.to_nat (hi - lo + 1))).

(** The last upstream channel of the repository's test document, and an
    ATDMA channel like its first. *)
Definition channel_ofdma : usChannel :=
  {| us_ID := 11; us_Frequency := 39400000;
     us_Power := Float32.of_Z 402;
     us_Modulation := "qam_256"; us_ChannelType := "ofdma";
     us_LockStatus := true; us_SymbolRate := 0;
     us_T1Timeout := 0; us_T2Timeout := 0; us_T3Timeout := 3; us_T4Timeout := 0 |}.

Definition channel_atdma : usChannel :=
  {| us_ID := 1; us_Frequency := 49600000;
     us_Power := power_of_tenths 448;
     us_Modulation := "qam_64"; us_ChannelType := "atdma";
     us_LockStatus := true; us_SymbolRate := 5120;
     us_T1Timeout := 0; us_T2Timeout := 0; us_T3Timeout := 1; us_T4Timeout := 0 |}.

(** The OFDM channel of the test document. *)
Definition channel_33 : dsChannel :=
  {| ds_ID := 33; ds_Frequency := 759000000;
     ds_Power := Float32.of_Z 12;
     ds_Modulation := "qam_4096"; ds_SNR := 38;
     ds_PreRS := 5; ds_PostRS := 0;
     ds_ChannelType := "ofdm"; ds_RxMer := 0; ds_LockStatus := true |}.

Definition mixed_document : resultsStruct :=
  {| Downstream_Channels := [channel_37; channel_unknown; channel_33];
     Upstream_Channels := [channel_atdma; channel_ofdma];
     ServiceFlows := [mkServiceFlow 412832 "downstream" 287500061 42600;
                      mkServiceFlow 412834 "downstream" 128000 0] |}.

(** The lines a channel loop prints, as a function of the slice. *)
Fixpoint printed {A : Type} (body : nat -> A -> string + ModemChannel)
    (index : nat) (xs : list A) : list string :=
  match xs with
  | [] => []
  | x :: rest =>
      match body index x with
      | inl line => line :: printed body (S index) rest
      | inr _ => printed body (S index) rest
      end
  end.

(** The address [apiAddress] builds for a configured or defaulted host. *)
Definition host_of (sh5 : Modem) : string :=
  if String.eqb (IPAddress sh5) "" then "192.168.100.1" else IPAddress sh5.

(** ** More of the log shipper *)

(** [NewLokiExporter]; [None] is a nil [labels] map.  The HTTP client and
    the log provider stay outside the record. *)
Definition NewLokiExporter (endpoint : string) (labels : option (gmap string string))
  : LokiExporter :=
  let labels := match labels with None => ∅ | Some labels => labels end in
  let labels :=
    match labels !! "job" with
    | Some _ => labels
    | None => <["job" := "modem-stats"]> labels
    end in
  {| endpoint := endpoint; seenLogs := ∅; labels := labels |}.

(** [err.Error()]: [fmt.Errorf("ctx: %w", err)] prints as "ctx: " followed
    by the text of [err]. *)
Fixpoint error_text (e : error) : string :=
  match e with
  | ErrMsg msg => msg
  | ErrWrap context cause => context +:+ ": " +:+ error_text cause
  end.

Section Polling.
Context (time_Parse_UnixNano : string -> option Z).

(** The goroutine of [StartPolling], over the initial push and the ticks
    that follow: one [PushLogs] per cycle; an error is logged and the loop
    goes on. *)
Fixpoint StartPolling (l : LokiExporter) (cycles : list ShipWorld)
  : LokiExporter * list ShipEvent :=
  match cycles with
  | [] => (l, [])
  | w :: rest =>
      let '(err, l, tr) := PushLogs time_Parse_UnixNano l w in
      let logged :=
        match err with
        | Some err => [EvLogPrintf ("Error pushing logs to Loki: " +:+ error_text err)]
        | None => []
        end in
      let '(l, later) := StartPolling l rest in
      (l, tr ++ logged ++ later)
  end.

(** The value pair the grouping loop builds for each entry, with the
    entry's priority; [k] counts the clock readings taken so far. *)
Fixpoint stamped (w : ShipWorld) (k : nat) (entries : list EventLogEntry)
  : list (string * list string) :=
  match entries with
  | [] => []
  | entry :: rest =>
      match time_Parse_UnixNano (Timestamp entry) with
      | Some ts =>
          (Priority entry, [Sprintf_d ts; Message entry]) :: stamped w k rest
      | None =>
          (Priority entry, [Sprintf_d (now_UnixNano w k); Message entry])
            :: stamped w (S k) rest
      end
  end.

(** The value pairs of one priority, in log order. *)
Definition values_of (priority : string) (pairs : list (string * list string))
  : list (list string) :=
  map snd (List.filter (fun x => String.eqb (fst x) priority) pairs).

(** The event log as the Superhub 5 serves it, as the exporter's provider. *)
Definition modem_world (lib : JsonLib) (get : string -> GetOutcome) (sh5 : Modem)
    (now : nat -> Z) (sink : PostOutcome) : ShipWorld :=
  {| fetched := fst (FetchEventLog lib get sh5);
     now_UnixNano := now;
     posted := sink |}.

End Polling.

(** No byte of the string is the separator of [logKey]. *)
Fixpoint no_bar (s : string) : bool :=
  match s with
  | EmptyString => true
  | String c rest => negb (Ascii.eqb c "|") && no_bar rest
  end.

(** Two different entries with one identity key. *)
Definition bar_in_priority : EventLogEntry :=
  mkEventLogEntry "a|b" "2024-05-01T10:00:00Z" "c".
Definition bar_in_message : EventLogEntry :=
  mkEventLogEntry "a" "2024-05-01T10:00:00Z" "b|c".

(** The exporter once [boot_log] has been shipped. *)
Definition shipped_boot_log : LokiExporter := mark_seen shipper boot_log.

(** ** Decimal timestamps *)

(** The number a string of decimal digits denotes; 0 when it is not one. *)
Definition decimal_value (s : string) : Z :=
  default 0 (digits_val 0 (list_ascii_of_string s)).

(** [ts] is written with exactly [digits] decimal digits. *)
Definition has_digits (digits : Z) (ts : Z) : Prop :=
  1 <= digits /\ 10 ^ (digits - 1) <= ts < 10 ^ digits.

(** The value of the digits of [d] appended to a number already read. *)
Fixpoint uint_acc (d : Decimal.uint) (acc : Z) : Z :=
  match d with
  | Decimal.Nil => acc
  | Decimal.D0 l => uint_acc l (10 * acc)
  | Decimal.D1 l => uint_acc l (10 * acc + 1)
  | Decimal.D2 l => uint_acc l (10 * acc + 2)
  | Decimal.D3 l => uint_acc l (10 * acc + 3)
  | Decimal.D4 l => uint_acc l (10 * acc + 4)
  | Decimal.D5 l => uint_acc l (10 * acc + 5)
  | Decimal.D6 l => uint_acc l (10 * acc + 6)
  | Decimal.D7 l => uint_acc l (10 * acc + 7)
  | Decimal.D8 l => uint_acc l (10 * acc + 8)
  | Decimal.D9 l => uint_acc l (10 * acc + 9)
  end.

(** A value pair [decimal nanoseconds, message] whose timestamp has the given
    digit count. *)
Definition stamped_with (digits : Z) (v : list string) : Prop :=
  exists ts msg, v = [Sprintf_d ts; msg] /\ has_digits digits ts.

(** Two entries of one severity, logged an hour apart once the modem knows
    the date, the later one first in the log. *)
Definition day_log : list EventLogEntry :=
  [mkEventLogEntry "notice" "2024-05-01T10:00:00Z" "later";
   mkEventLogEntry "notice" "2024-05-01T09:00:00Z" "earlier";
   mkEventLogEntry "notice" "no date" "undated"].

Definition day_sink : ShipWorld :=
  mkShipWorld (inr day_log) (fun k => 1700000000000000000 + Z.of_nat k) (PostResp 204).

(* ===================================================================== *)
(** * outputs.PrometheusExporter: one scrape                              *)
(* ===================================================================== *)

Definition TypeDocsis : string := "DOCSIS".
Definition TypeVDSL : string := "VDSL".

(** [(sh5 *Modem) Type()]. *)
Definition Modem_Type (sh5 : Modem) : string := TypeDocsis.

(** [utils.ResetStats] and [utils.FetchStats], on the Superhub 5. *)
Definition ResetStats (router : Modem) : Modem := ClearStats router.

Definition FetchStats (lib : JsonLib) (w : World) (router : Modem)
  : outcome ModemStats * Modem * list Event :=
  ParseStats lib w router.

(** A [prometheus.Desc] made by [NewDesc] without constant labels. *)
Record Desc : Type := mkDesc {
  fqName : string;
  help : string;
  variableLabels : list string
}.

Definition NewDesc (fqName help : string) (variableLabels : list string) : Desc :=
  mkDesc fqName help variableLabels.

(** [prometheus.BuildFQName]: the non-empty parts joined by "_". *)
Definition BuildFQName (namespace subsystem name : string) : string :=
  if String.eqb name "" then ""
  else if negb (String.eqb namespace "") && negb (String.eqb subsystem "") then
    namespace +:+ "_" +:+ subsystem +:+ "_" +:+ name
  else if negb (String.eqb namespace "") then namespace +:+ "_" +:+ name
  else if negb (String.eqb subsystem "") then subsystem +:+ "_" +:+ name
  else name.

Inductive ValueType : Type := CounterValue | GaugeValue.

(** A constant metric.  Every value [Collect] sends is [float64(n)] of an
    integer [n], or the constant 0.0 or 1.0; the model keeps the integer. *)
Record Metric : Type := mkMetric {
  metric_desc : Desc;
  valueType : ValueType;
  value : Z;
  labelValues : list string
}.

(** [prometheus.MustNewConstMetric]: it panics ([None]) when the number of
    label values differs from the number of labels of the descriptor. *)
Definition MustNewConstMetric (desc : Desc) (valueType : ValueType) (value : Z)
    (labelValues : list string) : option Metric :=
  if (length labelValues =? length (variableLabels desc))%nat
  then Some (mkMetric desc valueType value labelValues)
  else None.

(** The descriptors of the exporter; the modem itself is passed to
    [Collect]. *)
Record PrometheusExporter : Type := mkPrometheusExporter {
  downFrequency : Desc;
  downPower : Desc;
  downSNR : Desc;
  downPreRS : Desc;
  downPostRS : Desc;
  downLocked : Desc;
  upFrequency : Desc;
  upPower : Desc;
  upLocked : Desc;
  upSymbolRate : Desc;
  upT1Timeout : Desc;
  upT2Timeout : Desc;
  upT3Timeout : Desc;
  upT4Timeout : Desc;
  maxrate : Desc;
  maxburst : Desc;
  fetchtime : Desc;
  downNoise : Desc;
  downAttenuation : Desc;
  upNoise : Desc;
  upAttenuation : Desc
}.

(** [strconv.Itoa]. *)
Definition Itoa (n : Z) : string := Sprintf_d n.

(** [ProExporter]; [modemType] is what [docsisModem.Type()] answers. *)
Definition ProExporter (modemType : string) : PrometheusExporter :=
  let namespace := "modemstats" in
  let '(downLabels, upLabels) :=
    if String.eqb modemType TypeVDSL then (["id"], ["id"])
    else (["channel"; "id"; "modulation"; "scheme"], ["channel"; "id"]) in
  {| downFrequency :=
       NewDesc (BuildFQName namespace "downstream" "frequency")
               "Downstream Frequency in HZ" downLabels;
     downPower :=
       NewDesc (BuildFQName namespace "downstream" "power")
               "Downstream Power level in dBmv" downLabels;
     downSNR :=
       NewDesc (BuildFQName namespace "downstream" "snr")
               "Downstream SNR in dB" downLabels;
     downPostRS :=
       NewDesc (BuildFQName namespace "downstream" "postrserr")
               "Number of Errors per channel Post RS" downLabels;
     downPreRS :=
       NewDesc (BuildFQName namespace "downstream" "prerserr")
               "Number of Errors per channel Pre RS" downLabels;
     downLocked :=
       NewDesc (BuildFQName namespace "downstream" "locked")
               "Downstream channel lock status (1=locked, 0=unlocked)" downLabels;
     downAttenuation :=
       NewDesc (BuildFQName namespace "downstream" "attenuation")
               "Downstream attenuation in TODO: wtf is this?" downLabels;
     downNoise :=
       NewDesc (BuildFQName namespace "downstream" "noise")
               "Downstream noise level in dB" downLabels;
     upFrequency :=
       NewDesc (BuildFQName namespace "upstream" "frequency")
               "Upstream Frequency in HZ" upLabels;
     upPower :=
       NewDesc (BuildFQName namespace "upstream" "power")
               "Upstream Power level in dBmv" upLabels;
     upLocked :=
       NewDesc (BuildFQName namespace "upstream" "locked")
               "Upstream channel lock status (1=locked, 0=unlocked)" upLabels;
     upSymbolRate :=
       NewDesc (BuildFQName namespace "upstream" "symbol_rate")
               "Upstream symbol rate in ksym/s" upLabels;
     upT1Timeout :=
       NewDesc (BuildFQName namespace "upstream" "t1_timeout_total")
               "Upstream T1 timeout count" upLabels;
     upT2Timeout :=
       NewDesc (BuildFQName namespace "upstream" "t2_timeout_total")
               "Upstream T2 timeout count" upLabels;
     upT3Timeout :=
       NewDesc (BuildFQName namespace "upstream" "t3_timeout_total")
               "Upstream T3 timeout count" upLabels;
     upT4Timeout :=
       NewDesc (BuildFQName namespace "upstream" "t4_timeout_total")
               "Upstream T4 timeout count" upLabels;
     upAttenuation :=
       NewDesc (BuildFQName namespace "upstream" "attenuation")
               "Upstream attenuation in TODO: wtf is this?" downLabels;
     upNoise :=
       NewDesc (BuildFQName namespace "upstream" "noise")
               "Upstream noise level in dB" downLabels;
     maxrate :=
       NewDesc (BuildFQName namespace "config" "maxrate")
               "Maximum link rate" ["config"; "serviceflow_id"];
     maxburst :=
       NewDesc (BuildFQName namespace "config" "maxburst")
               "Maximum link burst rate" ["config"; "serviceflow_id"];
     fetchtime :=
       NewDesc (BuildFQName namespace "shstatsinfo" "timems")
               "Time to fetch statistics from the modem in milliseconds" [] |}.

(** [Describe]: the descriptors in the order they are sent. *)
Definition Describe (p : PrometheusExporter) : list Desc :=
  [downFrequency p; upFrequency p; downPower p; upPower p; downSNR p;
   downPostRS p; downPreRS p; downLocked p; upLocked p; upSymbolRate p;
   upT1Timeout p; upT2Timeout p; upT3Timeout p; upT4Timeout p;
   maxrate p; maxburst p; fetchtime p;
   downNoise p; downAttenuation p; upNoise p; upAttenuation p].

(** [lockedVal]: 1.0 for a locked channel, 0.0 otherwise. *)
Definition lockedVal (c : ModemChannel) : Z := if Locked c then 1 else 0.

(** The body of [for _, c := range modemStats.DownChannels]: the metrics it
    builds, in order; [None] is a panic of [MustNewConstMetric]. *)
Definition down_sends (p : PrometheusExporter) (modemType : string) (c : ModemChannel)
  : list (option Metric) :=
  if String.eqb modemType TypeVDSL then
    let labels := [Itoa (ChannelID c)] in
    [MustNewConstMetric (downNoise p) GaugeValue (Noise c) labels;
     MustNewConstMetric (downAttenuation p) GaugeValue (Attenuation c) labels]
  else
    let labels := [Itoa (Channel c); Itoa (ChannelID c); Modulation c; Scheme c] in
    [MustNewConstMetric (downFrequency p) GaugeValue (Frequency c) labels;
     MustNewConstMetric (downPower p) GaugeValue (Power c) labels;
     MustNewConstMetric (downSNR p) GaugeValue (Snr c) labels;
     MustNewConstMetric (downPreRS p) GaugeValue (Prerserr c) labels;
     MustNewConstMetric (downPostRS p) GaugeValue (Postrserr c) labels;
     MustNewConstMetric (downLocked p) GaugeValue (lockedVal c) labels].

(** The body of [for _, c := range modemStats.UpChannels]. *)
Definition up_sends (p : PrometheusExporter) (modemType : string) (c : ModemChannel)
  : list (option Metric) :=
  if String.eqb modemType TypeVDSL then
    let labels := [Itoa (ChannelID c)] in
    [MustNewConstMetric (upNoise p) GaugeValue (Noise c) labels;
     MustNewConstMetric (upAttenuation p) GaugeValue (Attenuation c) labels]
  else
    let labels := [Itoa (Channel c); Itoa (ChannelID c)] in
    [MustNewConstMetric (upPower p) GaugeValue (Power c) labels;
     MustNewConstMetric (upFrequency p) GaugeValue (Frequency c) labels;
     MustNewConstMetric (upLocked p) GaugeValue (lockedVal c) labels]
    ++ (if 0 <? SymbolRate c
        then [MustNewConstMetric (upSymbolRate p) GaugeValue (SymbolRate c) labels]
        else [])
    ++ [MustNewConstMetric (upT1Timeout p) CounterValue (T1Timeout c) labels;
        MustNewConstMetric (upT2Timeout p) CounterValue (T2Timeout c) labels;
        MustNewConstMetric (upT3Timeout p) CounterValue (T3Timeout c) labels;
        MustNewConstMetric (upT4Timeout p) CounterValue (T4Timeout c) labels].

(** The body of [for _, config := range modemStats.Configs]. *)
Definition config_sends (p : PrometheusExporter) (config : ModemConfig)
  : list (option Metric) :=
  let serviceFlowId := Itoa (ServiceFlowId config) in
  [MustNewConstMetric (maxrate p) GaugeValue (Maxrate config)
                      [Config config; serviceFlowId]]
  ++ (if Maxburst config =? 0 then []
      else [MustNewConstMetric (maxburst p) GaugeValue (Maxburst config)
                               [Config config; serviceFlowId]]).

(** Everything [Collect] builds to send on [ch] for the statistics it got,
    in program order. *)
Definition Collect_sends (p : PrometheusExporter) (modemStats : ModemStats)
  : list (option Metric) :=
  flat_map (down_sends p (ModemType modemStats)) (DownChannels modemStats)
  ++ flat_map (up_sends p (ModemType modemStats)) (UpChannels modemStats)
  ++ flat_map (config_sends p) (Configs modemStats)
  ++ [MustNewConstMetric (fetchtime p) GaugeValue (StatsFetchTime modemStats) []].

(** Running the sends in order: the metrics that reach [ch], and whether the
    call panicked; nothing is sent after a panic. *)
Fixpoint deliver (sends : list (option Metric)) : list Metric * bool :=
  match sends with
  | [] => ([], false)
  | Some m :: rest => let '(ms, panicked) := deliver rest in (m :: ms, panicked)
  | None :: _ => ([], true)
  end.

(** [Collect] with the Superhub 5 as its modem: the metrics sent, whether
    the call panicked, the modem afterwards and the modem's effects.  The
    error of [FetchStats] is dropped; the statistics are then the zero
    value. *)
Definition Collect (p : PrometheusExporter) (lib : JsonLib) (w : World) (sh5 : Modem)
  : list Metric * bool * Modem * list Event :=
  let sh5 := ResetStats sh5 in
  let '(r, sh5, tr) := FetchStats lib w sh5 in
  match r with
  | Crashes => ([], true, sh5, tr)
  | Returns modemStats =>
      let '(ms, panicked) := deliver (Collect_sends p modemStats) in
      (ms, panicked, sh5, tr)
  | Fails _ =>
      let '(ms, panicked) := deliver (Collect_sends p zero_ModemStats) in
      (ms, panicked, sh5, tr)
  end.

(** The metrics of one descriptor, by its name. *)
Definition metrics_named (name : string) (ms : list Metric) : list Metric :=
  List.filter (fun m => String.eqb (fqName (metric_desc m)) name) ms.

(** The statistics and the exporter take the same side of the VDSL test. *)
Definition types_agree (modemType : string) (modemStats : ModemStats) : Prop :=
  String.eqb (ModemType modemStats) TypeVDSL = String.eqb modemType TypeVDSL.

(** A metric built by [MustNewConstMetric] on a descriptor that [Describe]
    announces. *)
Definition built_for (p : PrometheusExporter) (s : option Metric) : Prop :=
  forall m, s = Some m ->
    length (labelValues m) = length (variableLabels (metric_desc m))
    /\ metric_desc m ∈ Describe p.

(** The statistics of a scrape that decoded [mixed_document] after 40 ms. *)
Definition scraped_stats : ModemStats := fst (normalize mixed_document 40).

(** A modem at the default address that holds a cached document. *)
Definition cached_modem : Modem := mkModem "" (Some empty_object) 7.

(* ===================================================================== *)
(** * utils: the small helpers                                            *)
(* ===================================================================== *)

(** [strings.Split(s, " ")]: the fields between single spaces; there is
    always at least one. *)
Fixpoint Split_space (s : string) : list string :=
  match s with
  | EmptyString => [""]
  | String c rest =>
      if Ascii.eqb c " " then "" :: Split_space rest
      else
        match Split_space rest with
        | part :: parts => String c part :: parts
        | [] => [String c ""]
        end
  end.

(** [strconv.Atoi]: an optional sign and then decimal digits, at least one,
    denoting a number an [int] holds; [None] is a syntax or range error. *)
Definition Atoi (s : string) : option Z :=
  let cs := list_ascii_of_string s in
  let '(neg, ds) :=
    match cs with
    | "-"%char :: rest => (true, rest)
    | "+"%char :: rest => (false, rest)
    | _ => (false, cs)
    end in
  match ds with
  | [] => None
  | _ =>
      match digits_val 0 ds with
      | Some un =>
          let n := if neg : bool then - un else un in
          if GoInt.in_rangeb n then Some n else None
      | None => None
      end
  end.

Definition ExtractIntValue (valueWithUnit : string) : Z :=
  let parts := Split_space valueWithUnit in
  match parts with
  | part :: _ =>
      match Atoi part with
      | Some intValue => intValue
      | None => 0
      end
  | [] => 0
  end.

(** No byte of the string is a space. *)
Fixpoint no_space (s : string) : bool :=
  match s with
  | EmptyString => true
  | String c rest => negb (Ascii.eqb c " ") && no_space rest
  end.

(** What [SimpleHTTPFetch] does to the outside world, in order. *)
Inductive FetchEvent : Type :=
| FeNow
| FeGet (url : string)
| FeReadAll
| FeClose.

(** [SimpleHTTPFetch]: the Go triple [(stats, fetchTime, err)], [None] for
    nil, and the effects; the deferred [resp.Body.Close()] runs last. *)
Definition SimpleHTTPFetch (get : string -> GetOutcome) (now_UnixMilli : nat -> Z)
    (url : string)
  : (option (list Byte.byte) * Z * option error) * list FetchEvent :=
  let timeStart := now_UnixMilli 0%nat in
  match get url with
  | GetFail err | GetRespFail _ err => ((None, 0, Some err), [FeNow; FeGet url])
  | GetResp resp =>
      if negb (wire_StatusCode resp =? 200) then
        ((None, 0,
          Some (ErrMsg (Sprintf_d (wire_StatusCode resp) +:+ " status code recieved"))),
         [FeNow; FeGet url; FeClose])
      else
        match wire_Body resp with
        | ReadFail err => ((None, 0, Some err), [FeNow; FeGet url; FeReadAll; FeClose])
        | ReadOk stats =>
            let fetchTime := GoInt.sub (now_UnixMilli 1%nat) timeStart in
            ((Some stats, fetchTime, None),
             [FeNow; FeGet url; FeReadAll; FeNow; FeClose])
        end
  end.

(** [rand.IntN(n)]: it panics ([None]) unless [n] is positive, and otherwise
    draws a number from [0] up to, not including, [n]. *)
Definition IntN_of (draw : Z -> Z) (n : Z) : option Z :=
  if n <=? 0 then None else Some (draw n mod n).

(** [RandomInt]: [rand.IntN(max-min) + min] on Go's wrapping [int]. *)
Definition RandomInt (draw : Z -> Z) (min max : Z) : option Z :=
  match IntN_of draw (GoInt.sub max min) with
  | Some r => Some (GoInt.add r min)
  | None => None
  end.

(** ** The numeric portion of a modulation string *)

(** Every byte of the string is a decimal digit; none is. *)
Fixpoint all_digits (s : string) : bool :=
  match s with
  | EmptyString => true
  | String c rest => is_digit c && all_digits rest
  end.

Fixpoint no_digit (s : string) : bool :=
  match s with
  | EmptyString => true
  | String c rest => negb (is_digit c) && no_digit rest
  end.

(** [found] is the numeric portion of [s]: the first run of decimal digits,
    taken as far as it goes, or the empty string when [s] holds no digit. *)
Definition numeric_portion (s found : string) : Prop :=
  exists before after,
    s = before +:+ found +:+ after
    /\ no_digit before = true
    /\ all_digits found = true
    /\ match after with
       | EmptyString => True
       | String c _ => is_digit c = false
       end
    /\ (found = "" -> after = "").

(** ** Merge failures *)

(** The request succeeded and its body was read, but merging it into the
    document of [sh1] failed with [e]; [merged] is the data the merge handed
    back with the error. *)
Definition merge_failure (lib : JsonLib) (sh1 : Modem) (query : HttpResult)
    (e : error) (merged : option (list Byte.byte)) : Prop :=
  Err query = None
  /\ exists stats,
       Body (Res query) = Some (ReadOk stats)
       /\ MergeMergePatches lib (default [] (Stats sh1)) stats = (merged, Some e).

(** The merge library hands back nil whenever it reports an error. *)
Definition merge_error_returns_nil (lib : JsonLib) : Prop :=
  forall doc patch merged e, MergeMergePatches lib doc patch = (merged, Some e) -> merged = None.

(** Every request is answered with status 200; request 1 completes first,
    then request 0, whose body is not a JSON object, then request 2. *)
Definition array_body : list Byte.byte := list_byte_of_string "[1]".

Definition array_net : NetOracle :=
  {| http_Get := fun i _ =>
       match i with
       | 0%nat => GetResp (mkWireResponse 200 (ReadOk array_body))
       | _ => GetResp (mkWireResponse 200 (ReadOk empty_object))
       end;
     finish := fun i => match i with 0%nat => 5%nat | 1%nat => 1%nat | _ => 9%nat end |}.

Definition array_world : World :=
  {| now_UnixMilli := fun k => 1000 + 40 * Z.of_nat k; net := array_net |}.

(** What [BoundedParallelGet] returns in [array_world]. *)
Definition array_first : HttpResult :=
  mkHttpResult 1 (mkResponse 200 (Some (ReadOk empty_object))) None.
Definition array_second : HttpResult :=
  mkHttpResult 0 (mkResponse 200 (Some (ReadOk array_body))) None.
Definition array_last : HttpResult :=
  mkHttpResult 2 (mkResponse 200 (Some (ReadOk empty_object))) None.



(* ===================================================================== *)
(** * Go integers                                                         *)
(* ===================================================================== *)

Lemma GoInt_in_rangeb_spec z : GoInt.in_rangeb z = true <-> GoInt.in_range z.
Proof.
  unfold GoInt.in_rangeb, GoInt.in_range.
  rewrite andb_true_iff, !Z.leb_le. tauto.
Qed.

Lemma GoInt_wrap_in_range z : GoInt.in_range (GoInt.wrap z).
Proof.
  unfold GoInt.in_range, GoInt.wrap, GoInt.min_int, GoInt.max_int.
  pose proof (Z.mod_pos_bound (z + 2 ^ 63) (2 ^ 64) ltac:(lia)). lia.
Qed.

Lemma GoInt_wrap_id z : GoInt.in_range z -> GoInt.wrap z = z.
Proof.
  unfold GoInt.in_range, GoInt.wrap, GoInt.min_int, GoInt.max_int. intros Hz.
  rewrite Z.mod_small; lia.
Qed.

(* ===================================================================== *)
(** * The normalizer                                                      *)
(* ===================================================================== *)

Section RangeLoopFacts.
Context {A : Type} (body : nat -> A -> string + ModemChannel).

Lemma range_channels_emitted index xs channels stdout :
  fst (range_channels body index xs channels stdout)
  = channels ++ emitted body index xs.
Proof.
  revert index channels stdout.
  induction xs as [|x rest IH]; intros index channels stdout; simpl.
  - by rewrite app_nil_r.
  - destruct (body index x) as [line|c]; rewrite IH; [done|].
    by rewrite <- app_assoc.
Qed.

Lemma elem_of_emitted c index xs :
  c ∈ emitted body index xs <->
  exists k x, xs !! k = Some x /\ body (index + k)%nat x = inr c.
Proof.
  revert index. induction xs as [|x rest IH]; intros index; simpl.
  - split; [by intros ?%elem_of_nil | by intros (k & y & ? & _)].
  - assert (Hshift : (exists k y, rest !! k = Some y /\ body (S index + k)%nat y = inr c)
                     <-> exists k y, (x :: rest) !! S k = Some y
                                     /\ body (index + S k)%nat y = inr c).
    { split; intros (k & y & Hk & Hb); exists k, y; split; try done;
        by replace (index + S k)%nat with (S index + k)%nat in * by lia. }
    destruct (body index x) as [line|c0] eqn:Hbody.
    + rewrite IH, Hshift. split.
      * intros (k & y & Hk & Hb). by exists (S k), y.
      * intros ([|k] & y & Hk & Hb).
        -- simpl in Hk. injection Hk as ->.
           rewrite Nat.add_0_r in Hb. congruence.
        -- by exists k, y.
    + rewrite elem_of_cons, IH, Hshift. split.
      * intros [->|(k & y & Hk & Hb)].
        -- exists 0%nat, x. by rewrite Nat.add_0_r.
        -- by exists (S k), y.
      * intros ([|k] & y & Hk & Hb).
        -- simpl in Hk. injection Hk as ->.
           rewrite Nat.add_0_r in Hb. left. congruence.
        -- right. by exists k, y.
Qed.

Lemma length_emitted (recognized : A -> bool) index xs :
  (forall i x, recognized x = match body i x with inr _ => true | inl _ => false end) ->
  length (emitted body index xs) = length (List.filter recognized xs).
Proof.
  intros Hrec. revert index.
  induction xs as [|x rest IH]; intros index; [done|].
  cbn [emitted List.filter]. rewrite (Hrec index x).
  destruct (body index x); simpl; by rewrite IH.
Qed.

End RangeLoopFacts.

Lemma downstream_body_recognized index d :
  ds_recognized d = match downstream_body index d with inr _ => true | inl _ => false end.
Proof.
  unfold ds_recognized, downstream_body.
  destruct (String.eqb (ds_ChannelType d) "sc_qam"); [done|].
  by destruct (String.eqb (ds_ChannelType d) "ofdm").
Qed.

Lemma upstream_body_recognized index u :
  us_recognized u = match upstream_body index u with inr _ => true | inl _ => false end.
Proof.
  unfold us_recognized, upstream_body.
  destruct (String.eqb (us_ChannelType u) "atdma"); [done|].
  by destruct (String.eqb (us_ChannelType u) "ofdma").
Qed.

Lemma downstream_body_ordinal index d c :
  downstream_body index d = inr c ->
  Channel c = Z.of_nat index + 1 /\ ChannelID c = ds_ID d.
Proof.
  unfold downstream_body.
  destruct (String.eqb (ds_ChannelType d) "sc_qam");
    [|destruct (String.eqb (ds_ChannelType d) "ofdm")];
    intros [= <-]; done.
Qed.

Lemma upstream_body_ordinal index u c :
  upstream_body index u = inr c ->
  Channel c = Z.of_nat index + 1 /\ ChannelID c = us_ID u.
Proof.
  unfold upstream_body.
  destruct (String.eqb (us_ChannelType u) "atdma");
    [|destruct (String.eqb (us_ChannelType u) "ofdma")];
    intros [= <-]; done.
Qed.

Lemma normalize_DownChannels results fetchTime :
  DownChannels (fst (normalize results fetchTime))
  = emitted downstream_body 0 (Downstream_Channels results).
Proof.
  unfold normalize.
  pose proof (range_channels_emitted downstream_body 0
                (Downstream_Channels results) [] []) as Hd.
  destruct (range_channels downstream_body 0 _ [] []) as [down out1].
  destruct (range_channels upstream_body 0 _ [] out1) as [up out2].
  simpl in *. by rewrite Hd.
Qed.

Lemma normalize_UpChannels results fetchTime :
  UpChannels (fst (normalize results fetchTime))
  = emitted upstream_body 0 (Upstream_Channels results).
Proof.
  unfold normalize.
  destruct (range_channels downstream_body 0 _ [] []) as [down out1].
  pose proof (range_channels_emitted upstream_body 0
                (Upstream_Channels results) [] out1) as Hu.
  destruct (range_channels upstream_body 0 _ [] out1) as [up out2].
  simpl in *. by rewrite Hu.
Qed.

(** What both channel loops guarantee about ordinals. *)
Section OrdinalFacts.
Context {A : Type} (body : nat -> A -> string + ModemChannel).
Context (recognized : A -> bool) (id : A -> Z).
Hypothesis body_recognized :
  forall i x, recognized x = match body i x with inr _ => true | inl _ => false end.
Hypothesis body_ordinal :
  forall i x c, body i x = inr c -> Channel c = Z.of_nat i + 1 /\ ChannelID c = id x.

Lemma emitted_skips_slot xs i x c :
  xs !! i = Some x -> recognized x = false ->
  c ∈ emitted body 0 xs -> Channel c <> Z.of_nat i + 1.
Proof.
  intros Hi Hrec (k & y & Hk & Hb)%elem_of_emitted. simpl in Hb.
  destruct (body_ordinal _ _ _ Hb) as [Hc _]. rewrite Hc. intros Heq.
  assert (k = i) as -> by lia.
  assert (y = x) as -> by congruence.
  rewrite (body_recognized i x), Hb in Hrec. done.
Qed.

Lemma emitted_keeps_position xs i x :
  xs !! i = Some x -> recognized x = true ->
  exists c, c ∈ emitted body 0 xs /\ Channel c = Z.of_nat i + 1 /\ ChannelID c = id x.
Proof.
  intros Hi Hrec. rewrite (body_recognized i x) in Hrec.
  destruct (body i x) as [|c] eqn:Hb; [done|].
  exists c. split; [|by apply (body_ordinal i)].
  apply elem_of_emitted. by exists i, x.
Qed.

Lemma emitted_from_position xs c :
  c ∈ emitted body 0 xs ->
  exists i x, xs !! i = Some x /\ recognized x = true
              /\ Channel c = Z.of_nat i + 1 /\ ChannelID c = id x.
Proof.
  intros (k & y & Hk & Hb)%elem_of_emitted. simpl in Hb.
  exists k, y. split; [done|]. split; [|by apply body_ordinal].
  by rewrite (body_recognized k y), Hb.
Qed.

End OrdinalFacts.

(** C3 (amended): an entry whose technology tag is not recognised produces
    no channel and does not fail the document, and the later entries are
    still processed; but the ordinal of every emitted channel is 1 + the raw
    position of its entry in the technology list, so the skipped entry keeps
    its slot and the ordinals have a gap there.  Downstream and upstream
    alike; the emitted channels are the recognised entries, in order. *)
Theorem C3_ordinal_is_raw_position (results : resultsStruct) (fetchTime : Z) :
  let stats := fst (normalize results fetchTime) in
  let down := Downstream_Channels results in
  let up := Upstream_Channels results in
  (forall i d, down !! i = Some d -> ds_recognized d = false ->
     forall c, c ∈ DownChannels stats -> Channel c <> Z.of_nat i + 1)
  /\ (forall i d, down !! i = Some d -> ds_recognized d = true ->
       exists c, c ∈ DownChannels stats
                 /\ Channel c = Z.of_nat i + 1 /\ ChannelID c = ds_ID d)
  /\ (forall c, c ∈ DownChannels stats ->
       exists i d, down !! i = Some d /\ ds_recognized d = true
                   /\ Channel c = Z.of_nat i + 1 /\ ChannelID c = ds_ID d)
  /\ length (DownChannels stats) = length (List.filter ds_recognized down)
  /\ (forall i u, up !! i = Some u -> us_recognized u = false ->
       forall c, c ∈ UpChannels stats -> Channel c <> Z.of_nat i + 1)
  /\ (forall i u, up !! i = Some u -> us_recognized u = true ->
       exists c, c ∈ UpChannels stats
                 /\ Channel c = Z.of_nat i + 1 /\ ChannelID c = us_ID u)
  /\ (forall c, c ∈ UpChannels stats ->
       exists i u, up !! i = Some u /\ us_recognized u = true
                   /\ Channel c = Z.of_nat i + 1 /\ ChannelID c = us_ID u)
  /\ length (UpChannels stats) = length (List.filter us_recognized up)
  /\ (forall lib sh5,
       Unmarshal_results lib (default [] (Stats sh5)) = inr results ->
       fst (parse_block lib sh5)
       = Returns (fst (normalize results (FetchTime sh5)))).
Proof.
  cbv zeta. rewrite normalize_DownChannels, normalize_UpChannels.
  split_and!.
  - intros i d Hi Hr c.
    by apply (emitted_skips_slot downstream_body ds_recognized ds_ID
                downstream_body_recognized downstream_body_ordinal _ i d c).
  - intros i d. apply (emitted_keeps_position downstream_body ds_recognized ds_ID
               downstream_body_recognized downstream_body_ordinal).
  - intros c. apply (emitted_from_position downstream_body ds_recognized ds_ID
               downstream_body_recognized downstream_body_ordinal).
  - apply length_emitted, downstream_body_recognized.
  - intros i u Hi Hr c.
    by apply (emitted_skips_slot upstream_body us_recognized us_ID
                upstream_body_recognized upstream_body_ordinal _ i u c).
  - intros i u. apply (emitted_keeps_position upstream_body us_recognized us_ID
               upstream_body_recognized upstream_body_ordinal).
  - intros c. apply (emitted_from_position upstream_body us_recognized us_ID
               upstream_body_recognized upstream_body_ordinal).
  - apply length_emitted, upstream_body_recognized.
  - intros lib sh5 Hdec. unfold parse_block. rewrite Hdec.
    by destruct (normalize results (FetchTime sh5)).
Qed.

(** C3 as stated fails: in [skip_document] the unrecognised entry comes
    first and the one emitted channel carries ordinal 2, where counting only
    recognised entries would give 1. *)
Lemma C3_skipped_entry_keeps_its_slot :
  map Channel (DownChannels (fst (normalize skip_document 0))) = [2]
  /\ dense_ordinals (DownChannels (fst (normalize skip_document 0))) = [1]
  /\ snd (normalize skip_document 0) = ["Unknown channel scheme: docsis4"].
Proof. vm_compute. done. Qed.

(* ===================================================================== *)
(** * BoundedParallelGet: the goroutine system                            *)
(* ===================================================================== *)

Local Open Scope nat_scope.

Lemma sum_list_insert {A} (f : A -> nat) (l : list A) i x y :
  l !! i = Some x ->
  sum_list (f <$> <[i := y]> l) + f x = sum_list (f <$> l) + f y.
Proof.
  revert i. induction l as [|a l IH]; intros [|i] Hi; simplify_eq/=.
  - lia.
  - specialize (IH i Hi). lia.
Qed.

Lemma sum_list_pos {A} (f : A -> nat) (l : list A) :
  0 < sum_list (f <$> l) -> exists j x, l !! j = Some x /\ 0 < f x.
Proof.
  induction l as [|a l IH]; csimpl; intros H; [lia|].
  destruct (decide (0 < f a)) as [Ha|Ha].
  - by exists 0, a.
  - destruct IH as (j & x & Hj & Hx).
    { lia. }
    by exists (S j), x.
Qed.

Lemma pigeonhole_fresh (l : list nat) (n : nat) :
  NoDup l -> length l < n -> exists i, i < n /\ i ∉ l.
Proof.
  intros Hnd Hlen.
  destruct (decide (Forall (fun i => i ∈ l) (seq 0 n))) as [Hall|Hnot].
  - exfalso. assert (seq 0 n ⊆+ l) as Hsub.
    { apply NoDup_submseteq; [apply NoDup_seq|]. intros x Hx.
      rewrite Forall_forall in Hall. by apply Hall. }
    apply submseteq_length in Hsub. rewrite length_seq in Hsub. lia.
  - apply not_Forall_Exists in Hnot; [|apply _].
    apply Exists_exists in Hnot as (i & Hi & Hni).
    exists i. split; [|done]. apply elem_of_seq in Hi. lia.
Qed.

Lemma nodup_bounded_length (l : list nat) (n : nat) :
  NoDup l -> (forall x, x ∈ l -> x < n) -> length l <= n.
Proof.
  intros Hnd Hb. assert (l ⊆+ seq 0 n) as Hsub.
  { apply NoDup_submseteq; [done|]. intros x Hx. apply elem_of_seq. specialize (Hb x Hx). lia. }
  apply submseteq_length in Hsub. by rewrite length_seq in Hsub.
Qed.


Lemma lookup_insert_delivered (gs : list gstate) i x y j :
  gs !! i = Some x ->
  (exists g, <[i := y]> gs !! j = Some g /\ delivered g = true) <->
  (if decide (j = i) then delivered y = true
   else exists g, gs !! j = Some g /\ delivered g = true).
Proof.
  intros Hi. pose proof (lookup_lt_Some _ _ _ Hi) as Hlt.
  destruct (decide (j = i)) as [->|Hne].
  - rewrite list_lookup_insert_eq by done. split.
    + by intros (g & [= <-] & Hd).
    + intros Hd. by exists y.
  - by rewrite list_lookup_insert_ne.
Qed.

Lemma slot_sum_replicate n : sum_list (slot <$> replicate n GAcquire) = 0.
Proof. induction n as [|n IH]; csimpl; [done|]. by rewrite IH. Qed.


Section BoundedParallelGetFacts.
Context (answers : nat -> string -> GetOutcome).
Context (urls : list string) (concurrencyLimit : Z).

Local Notation "s '~>' t" := (bpg_step answers urls concurrencyLimit s t)
  (at level 70, no associativity).

Lemma result_of_Index i r : result_of answers urls i = Some r -> Index r = i.
Proof.
  unfold result_of. destruct (urls !! i) as [url|]; [|done].
  intros [= <-]. by destruct (answers i url).
Qed.

Lemma bpg_inv_init : bpg_inv answers urls concurrencyLimit (bpg_init urls).
Proof.
  split; simpl.
  - apply length_replicate.
  - by rewrite slot_sum_replicate.
  - lia.
  - constructor.
  - intros i. split; [by intros ?%elem_of_nil|].
    intros (g & Hg & Hd). apply lookup_replicate in Hg as [-> _]. done.
  - intros r ?%elem_of_nil. done.
  - intros i r Hg. apply lookup_replicate in Hg as [? _]. done.
  - done.
Qed.

Lemma delivered_bound s i :
  bpg_inv answers urls concurrencyLimit s -> i ∈ delivered_indices s -> i < length urls.
Proof.
  intros Hinv Hi. apply (inv_delivered Hinv) in Hi as (g & Hg & _).
  apply lookup_lt_Some in Hg. by rewrite (inv_length Hinv) in Hg.
Qed.

Lemma delivered_length s :
  bpg_inv answers urls concurrencyLimit s -> length (results s) + length (resultsChan s) <= length urls.
Proof.
  intros Hinv.
  pose proof (nodup_bounded_length (delivered_indices s) (length urls)
                (inv_nodup Hinv) (fun x => delivered_bound s x Hinv)) as H.
  unfold delivered_indices in H. by rewrite length_fmap, length_app in H.
Qed.

(** A goroutine moves between two states of the same delivery status,
    leaving the channels alone. *)
Lemma bpg_inv_move s i x y sem' :
  bpg_inv answers urls concurrencyLimit s ->
  goroutines s !! i = Some x ->
  delivered x = delivered y ->
  sem' + slot x = semaphoreChan s + slot y ->
  (Z.of_nat sem' <= Z.max 0 concurrencyLimit)%Z ->
  (forall r, y = GSend r -> result_of answers urls i = Some r) ->
  bpg_inv answers urls concurrencyLimit {| goroutines := <[i := y]> (goroutines s);
             semaphoreChan := sem';
             resultsChan := resultsChan s;
             results := results s;
             returned := returned s |}.
Proof.
  intros Hinv Hi Hd Hsem Hlim Hres.
  split; simpl.
  - rewrite length_insert. apply Hinv.
  - pose proof (sum_list_insert slot (goroutines s) i x y Hi) as Hs.
    rewrite (inv_slots Hinv) in Hsem. lia.
  - done.
  - apply Hinv.
  - intros j. rewrite (lookup_insert_delivered _ i x y j Hi).
    change (delivered_indices _) with (delivered_indices s).
    rewrite (inv_delivered Hinv). destruct (decide (j = i)) as [->|]; [|done].
    rewrite <- Hd. split.
    + intros (g & Hg & Hgd). congruence.
    + intros Hx. by exists x.
  - apply Hinv.
  - intros j r Hj. destruct (decide (j = i)) as [->|Hne].
    + rewrite list_lookup_insert_eq in Hj by (by eapply lookup_lt_Some).
      injection Hj as ->. by apply Hres.
    + rewrite list_lookup_insert_ne in Hj by done. by apply (inv_pending Hinv).
  - apply Hinv.
Qed.

Lemma bpg_inv_step s s' : bpg_inv answers urls concurrencyLimit s -> s ~> s' -> bpg_inv answers urls concurrencyLimit s'.
Proof.
  intros Hinv [a Ha]. destruct a as [i|i|i|i| |]; simpl in Ha.
  - (* Acquire *)
    destruct (goroutines s !! i) as [[]|] eqn:Hg; try done.
    case_bool_decide; [|done]. injection Ha as <-.
    apply (bpg_inv_move s i GAcquire GGet); simpl; try done; lia.
  - (* DoGet *)
    destruct (goroutines s !! i) as [[]|] eqn:Hg; try done.
    destruct (urls !! i) as [url|] eqn:Hu; [|done]. injection Ha as <-.
    apply (bpg_inv_move s i GGet (GSend _)); simpl; try done.
    + apply Hinv.
    + intros r [= <-]. unfold result_of. by rewrite Hu.
  - (* Send *)
    destruct (goroutines s !! i) as [[| |r| |]|] eqn:Hg; try done.
    case_bool_decide; [|done]. injection Ha as <-.
    pose proof (inv_pending Hinv i r Hg) as Hr.
    pose proof (result_of_Index _ _ Hr) as Hidx.
    assert (i ∉ delivered_indices s) as Hfresh.
    { rewrite (inv_delivered Hinv). intros (g & Hg' & Hd).
      rewrite Hg in Hg'. injection Hg' as <-. done. }
    split; simpl.
    + rewrite length_insert. apply Hinv.
    + pose proof (sum_list_insert slot (goroutines s) i _ GRelease Hg) as Hs.
      simpl in Hs. rewrite (inv_slots Hinv). lia.
    + apply Hinv.
    + unfold delivered_indices. simpl. rewrite app_assoc, fmap_app. simpl.
      rewrite Hidx. apply NoDup_app. split; [apply Hinv|]. split.
      * intros x Hx ?%list_elem_of_singleton. by subst.
      * apply NoDup_singleton.
    + intros j. rewrite (lookup_insert_delivered _ i _ GRelease j Hg).
      unfold delivered_indices. simpl. rewrite app_assoc, fmap_app. simpl.
      rewrite Hidx, elem_of_app, list_elem_of_singleton.
      fold (delivered_indices s). rewrite (inv_delivered Hinv).
      destruct (decide (j = i)) as [->|Hne]; simpl; [tauto|]. tauto.
    + intros r'. rewrite app_assoc, elem_of_app, list_elem_of_singleton.
      intros [Hold| ->]; [by apply (inv_results Hinv)|]. by rewrite Hidx.
    + intros j r' Hj. destruct (decide (j = i)) as [->|Hne].
      * rewrite list_lookup_insert_eq in Hj by (by eapply lookup_lt_Some). done.
      * rewrite list_lookup_insert_ne in Hj by done. by apply (inv_pending Hinv).
    + apply Hinv.
  - (* Release *)
    destruct (goroutines s !! i) as [[]|] eqn:Hg; try done.
    injection Ha as <-.
    pose proof (sum_list_insert slot (goroutines s) i _ GDone Hg) as Hs.
    simpl in Hs. pose proof (inv_slots Hinv) as Hsl.
    pose proof (inv_limit Hinv) as Hlim.
    apply (bpg_inv_move s i GRelease GDone); simpl; try done; lia.
  - (* Receive *)
    destruct (resultsChan s) as [|r rest] eqn:Hc; [done|].
    destruct (negb (returned s) && _) eqn:Hguard; [|done]. injection Ha as <-.
    assert (Heq : (results s ++ [r]) ++ rest = results s ++ resultsChan s).
    { by rewrite Hc, <- app_assoc. }
    split; simpl; try apply Hinv.
    + unfold delivered_indices. simpl. rewrite Heq. apply Hinv.
    + intros j. unfold delivered_indices. simpl. rewrite Heq. apply Hinv.
    + intros r'. rewrite Heq. apply Hinv.
    + done.
  - (* Return *)
    destruct (negb (returned s) && _) eqn:Hguard; [|done]. injection Ha as <-.
    apply andb_true_iff in Hguard as [_ Hlen%bool_decide_eq_true].
    split; simpl; try apply Hinv. done.
Qed.

Lemma bpg_reachable_inv s :
  bpg_reachable answers urls concurrencyLimit s -> bpg_inv answers urls concurrencyLimit s.
Proof. induction 1; eauto using bpg_inv_init, bpg_inv_step. Qed.


Lemma bpg_measure_step s s' :
  bpg_inv answers urls concurrencyLimit s -> s ~> s' -> bpg_measure urls s' < bpg_measure urls s.
Proof.
  intros Hinv [a Ha]. unfold bpg_measure.
  destruct a as [i|i|i|i| |]; simpl in Ha.
  - destruct (goroutines s !! i) as [[]|] eqn:Hg; try done.
    case_bool_decide; [|done]. injection Ha as <-. simpl.
    pose proof (sum_list_insert weight (goroutines s) i _ GGet Hg). simpl in *. lia.
  - destruct (goroutines s !! i) as [[]|] eqn:Hg; try done.
    destruct (urls !! i) as [url|] eqn:Hu; [|done]. injection Ha as <-. simpl.
    pose proof (sum_list_insert weight (goroutines s) i _
                  (GSend (mk_result i (answers i url))) Hg). simpl in *. lia.
  - destruct (goroutines s !! i) as [[| |r| |]|] eqn:Hg; try done.
    case_bool_decide; [|done]. injection Ha as <-. simpl.
    pose proof (sum_list_insert weight (goroutines s) i _ GRelease Hg). simpl in *. lia.
  - destruct (goroutines s !! i) as [[]|] eqn:Hg; try done.
    injection Ha as <-. simpl.
    pose proof (sum_list_insert weight (goroutines s) i _ GDone Hg). simpl in *. lia.
  - destruct (resultsChan s) as [|r rest] eqn:Hc; [done|].
    destruct (negb (returned s) && _) eqn:Hguard; [|done]. injection Ha as <-.
    apply andb_true_iff in Hguard as [Hret%negb_true_iff Hlen%bool_decide_eq_true].
    simpl. rewrite Hret, length_app. simpl. lia.
  - destruct (negb (returned s) && _) eqn:Hguard; [|done]. injection Ha as <-.
    apply andb_true_iff in Hguard as [Hret%negb_true_iff _].
    simpl. rewrite Hret. lia.
Qed.

Lemma bpg_can_get s i :
  bpg_inv answers urls concurrencyLimit s -> goroutines s !! i = Some GGet -> exists s', s ~> s'.
Proof.
  intros Hinv Hg.
  destruct (lookup_lt_is_Some_2 urls i) as [url Hu].
  { rewrite <- (inv_length Hinv). by eapply lookup_lt_Some. }
  eexists. exists (DoGet i). simpl. by rewrite Hg, Hu.
Qed.

Lemma bpg_can_send s i r :
  goroutines s !! i = Some (GSend r) ->
  length (resultsChan s) < length urls -> exists s', s ~> s'.
Proof.
  intros Hg Hlen. eexists. exists (Send i). simpl.
  by rewrite Hg, bool_decide_eq_true_2.
Qed.

Lemma bpg_can_release s i :
  goroutines s !! i = Some GRelease -> exists s', s ~> s'.
Proof. intros Hg. eexists. exists (Release i). simpl. by rewrite Hg. Qed.

(** No deadlock: with at least one slot, a call that has not returned can
    always take a step. *)
Lemma bpg_progress s :
  (1 <= concurrencyLimit)%Z -> bpg_inv answers urls concurrencyLimit s -> returned s = false ->
  exists s', s ~> s'.
Proof.
  intros HK Hinv Hret.
  destruct (decide (length (results s) = length urls)) as [Hfull|Hnot].
  { eexists. exists Return. simpl. by rewrite Hret, bool_decide_eq_true_2. }
  pose proof (delivered_length s Hinv) as Hlen.
  destruct (resultsChan s) as [|r rest] eqn:Hc.
  2:{ eexists. exists Receive. simpl.
      rewrite Hc, Hret, bool_decide_eq_true_2 by lia. done. }
  simpl in Hlen.
  destruct (pigeonhole_fresh (delivered_indices s) (length urls)) as (i & Hi & Hfresh).
  { apply Hinv. }
  { unfold delivered_indices. rewrite Hc, app_nil_r, length_fmap. lia. }
  destruct (lookup_lt_is_Some_2 (goroutines s) i) as [g Hg].
  { by rewrite (inv_length Hinv). }
  assert (delivered g = false) as Hd.
  { destruct (delivered g) eqn:Hd; [|done]. exfalso. apply Hfresh.
    apply (inv_delivered Hinv). by exists g. }
  destruct g as [| |r| |]; try done.
  - destruct (decide (Z.of_nat (semaphoreChan s) < concurrencyLimit)%Z) as [Hroom|Hfull].
    { eexists. exists (Acquire i). simpl. by rewrite Hg, bool_decide_eq_true_2. }
    destruct (sum_list_pos slot (goroutines s)) as (j & gj & Hj & Hslot).
    { rewrite <- (inv_slots Hinv). lia. }
    destruct gj as [| |r| |]; simpl in Hslot; try lia.
    + by apply (bpg_can_get s j).
    + apply (bpg_can_send s j r Hj). rewrite Hc. simpl. lia.
    + by apply (bpg_can_release s j).
  - by apply (bpg_can_get s i).
  - apply (bpg_can_send s i r Hg). rewrite Hc. simpl. lia.
Qed.

Lemma bpg_must_return_bounded n s :
  (1 <= concurrencyLimit)%Z -> bpg_inv answers urls concurrencyLimit s -> bpg_measure urls s <= n ->
  must_return answers urls concurrencyLimit s.
Proof.
  intros HK. revert s. induction n as [|n IH]; intros s Hinv Hm.
  - apply must_now. unfold bpg_measure in Hm.
    destruct (returned s); [done|lia].
  - destruct (returned s) eqn:Hret; [by apply must_now|].
    apply must_later; [by apply bpg_progress|].
    intros s' Hstep. apply IH; [by eapply bpg_inv_step|].
    pose proof (bpg_measure_step s s' Hinv Hstep). lia.
Qed.

Lemma delivered_finished g : delivered g = true -> request_finished g.
Proof. by destruct g. Qed.

Lemma bpg_returned_complete s :
  bpg_inv answers urls concurrencyLimit s -> returned s = true ->
  length (results s) = length urls
  /\ resultsChan s = []
  /\ Index <$> results s ≡ₚ seq 0 (length urls)
  /\ (forall r, r ∈ results s -> result_of answers urls (Index r) = Some r)
  /\ (forall i g, goroutines s !! i = Some g -> request_finished g).
Proof.
  intros Hinv Hret.
  pose proof (inv_returned Hinv Hret) as Hlen.
  pose proof (delivered_length s Hinv) as Hle.
  assert (resultsChan s = []) as Hc by (apply nil_length_inv; lia).
  assert (delivered_indices s = Index <$> results s) as Hdi.
  { unfold delivered_indices. by rewrite Hc, app_nil_r. }
  assert (Index <$> results s ≡ₚ seq 0 (length urls)) as Hperm.
  { apply submseteq_length_Permutation.
    - apply NoDup_submseteq; [rewrite <- Hdi; apply Hinv|].
      intros x Hx. apply elem_of_seq. rewrite <- Hdi in Hx.
      pose proof (delivered_bound s x Hinv Hx). lia.
    - rewrite length_seq, length_fmap. lia. }
  split_and!; try done.
  - intros r Hr. apply (inv_results Hinv). rewrite Hc, app_nil_r. done.
  - intros i g Hg.
    assert (i ∈ delivered_indices s) as Hi.
    { rewrite Hdi, Hperm. apply elem_of_seq.
      apply lookup_lt_Some in Hg. rewrite (inv_length Hinv) in Hg. lia. }
    apply (inv_delivered Hinv) in Hi as (g' & Hg' & Hd).
    rewrite Hg in Hg'. injection Hg' as <-. by apply delivered_finished.
Qed.

(** At no instant are more requests in flight than the limit allows. *)
Lemma bpg_in_flight_bounded s :
  bpg_inv answers urls concurrencyLimit s ->
  (Z.of_nat (sum_list (in_flight <$> goroutines s)) <= Z.max 0 concurrencyLimit)%Z.
Proof.
  intros Hinv. pose proof (inv_limit Hinv) as Hlim.
  rewrite (inv_slots Hinv) in Hlim.
  assert (sum_list (in_flight <$> goroutines s)
          <= sum_list (slot <$> goroutines s)); [|lia].
  clear Hlim Hinv. induction (goroutines s) as [|g gs IH]; csimpl; [done|].
  destruct g; simpl; lia.
Qed.

Lemma run_actions_reachable sched s s' :
  bpg_reachable answers urls concurrencyLimit s ->
  run_actions answers urls concurrencyLimit sched s = Some s' ->
  bpg_reachable answers urls concurrencyLimit s'.
Proof.
  revert s. induction sched as [|a sched IH]; intros s Hs; simpl.
  - by intros [= <-].
  - destruct (do_action _ _ _ a s) as [s1|] eqn:Ha; [|done].
    apply IH. eapply reach_step; [done|]. by exists a.
Qed.

Lemma run_sequential todo : forall gs rs,
  (1 <= concurrencyLimit)%Z ->
  length gs = length urls ->
  length rs + length todo = length urls ->
  NoDup (Index <$> todo) ->
  (forall r, r ∈ todo ->
     result_of answers urls (Index r) = Some r /\ gs !! Index r = Some GAcquire) ->
  exists s',
    run_actions answers urls concurrencyLimit
      (sequential_schedule (Index <$> todo))
      {| goroutines := gs; semaphoreChan := 0; resultsChan := [];
         results := rs; returned := false |} = Some s'
    /\ returned s' = true /\ results s' = rs ++ todo.
Proof.
  induction todo as [|r todo IH]; intros gs rs HK Hgs Hlen Hnd Htodo.
  - simpl in *. rewrite bool_decide_eq_true_2 by lia. simpl.
    eexists. split; [done|]. simpl. by rewrite app_nil_r.
  - destruct (Htodo r) as [Hr Hg]; [by left|].
    set (i := Index r) in *.
    assert (i < length gs) as Hi by (by eapply lookup_lt_Some).
    unfold result_of in Hr. destruct (urls !! i) as [url|] eqn:Hu; [|done].
    injection Hr as Hr.
    rewrite fmap_cons. fold i. cbn [sequential_schedule run_actions]. simpl.
    rewrite Hg, bool_decide_eq_true_2 by lia. simpl.
    rewrite list_lookup_insert_eq, Hu by done. simpl.
    rewrite list_lookup_insert_eq by (by rewrite length_insert). simpl.
    rewrite bool_decide_eq_true_2 by (simpl in Hlen; lia). simpl.
    rewrite bool_decide_eq_true_2 by (simpl in Hlen; lia). simpl.
    rewrite list_lookup_insert_eq by (by rewrite !length_insert). simpl.
    rewrite Hr.
    apply NoDup_cons in Hnd as [Hfresh Hnd]. fold i in Hfresh.
    edestruct (IH (<[i:=GDone]> (<[i:=GRelease]> (<[i:=GSend r]> (<[i:=GGet]> gs))))
                  (rs ++ [r])) as (s' & Hrun & Hret & Hres); try done.
    + by rewrite !length_insert.
    + rewrite length_app. simpl in *. lia.
    + intros r' Hr'. destruct (Htodo r') as [Hres' Hg']; [by right|].
      split; [done|].
      assert (Index r' <> i) as Hne.
      { intros Heq. apply Hfresh. rewrite <- Heq. by apply list_elem_of_fmap_2. }
      by rewrite !list_lookup_insert_ne.
    + exists s'. split; [exact Hrun|]. split; [done|].
      by rewrite Hres, <- app_assoc.
Qed.

End BoundedParallelGetFacts.

Local Close Scope nat_scope.

Lemma finishes_before_total net : Total (finishes_before net).
Proof. intros i j. unfold finishes_before. lia. Qed.

Lemma completion_order_Permutation net n : completion_order net n ≡ₚ seq 0 n.
Proof. apply merge_sort_Permutation. Qed.

Lemma completion_order_Sorted net n :
  Sorted (finishes_before net) (completion_order net n).
Proof. apply Sorted_merge_sort, finishes_before_total. Qed.

Lemma result_of_is_Some answers urls i :
  (i < length urls)%nat -> is_Some (result_of answers urls i).
Proof.
  intros Hi. unfold result_of.
  destruct (lookup_lt_is_Some_2 urls i Hi) as [url ->]. by eexists.
Qed.

Lemma result_is_response_or_error answers urls i r :
  result_of answers urls i = Some r -> is_Some (Err r) \/ is_Some (Body (Res r)).
Proof.
  unfold result_of. destruct (urls !! i) as [url|]; [|done].
  intros [= <-]. destruct (answers i url); simpl; eauto.
Qed.

Lemma omap_result_of answers urls order :
  Forall (fun i => (i < length urls)%nat) order ->
  Index <$> omap (result_of answers urls) order = order
  /\ forall r, r ∈ omap (result_of answers urls) order ->
       result_of answers urls (Index r) = Some r.
Proof.
  induction 1 as [|i order Hi _ [IHidx IHres]]; simpl.
  - split; [done|]. by intros r ?%elem_of_nil.
  - destruct (result_of_is_Some answers urls i Hi) as [r Hr]. rewrite Hr. csimpl.
    pose proof (result_of_Index _ _ _ _ Hr) as Hidx.
    split; [by rewrite IHidx, Hidx|].
    intros r' [->|Hr']%elem_of_cons; [by rewrite Hidx|by apply IHres].
Qed.

Lemma completion_order_bound net n :
  Forall (fun i => (i < n)%nat) (completion_order net n).
Proof.
  apply Forall_forall. intros i Hi.
  rewrite completion_order_Permutation in Hi. apply elem_of_seq in Hi. lia.
Qed.

Lemma BoundedParallelGet_returns net urls K :
  1 <= K ->
  BoundedParallelGet net urls K
  = Some (omap (result_of (http_Get net) urls) (completion_order net (length urls))).
Proof.
  intros HK. unfold BoundedParallelGet.
  destruct (K <? 0) eqn:H1; [lia|]. destruct (K =? 0) eqn:H2; [lia|]. done.
Qed.

(** The result of the call as a function is the result of a run of the
    goroutines. *)
Lemma BoundedParallelGet_is_a_run net urls K l :
  1 <= K ->
  BoundedParallelGet net urls K = Some l ->
  exists s, bpg_reachable (http_Get net) urls K s
            /\ returned s = true /\ results s = l.
Proof.
  intros HK. rewrite BoundedParallelGet_returns by done. intros [= <-].
  set (order := completion_order net (length urls)).
  destruct (omap_result_of (http_Get net) urls order) as [Hidx Hres].
  { apply completion_order_bound. }
  destruct (run_sequential (http_Get net) urls K
              (omap (result_of (http_Get net) urls) order)
              (replicate (length urls) GAcquire) []) as (s & Hrun & Hret & Hs).
  - done.
  - apply length_replicate.
  - simpl. rewrite <- (length_fmap Index), Hidx. unfold order.
    by rewrite completion_order_Permutation, length_seq.
  - rewrite Hidx. unfold order. rewrite completion_order_Permutation.
    apply NoDup_seq.
  - intros r Hr. split; [by apply Hres|].
    apply lookup_replicate_2.
    assert (Index r ∈ order) as Hin.
    { rewrite <- Hidx. by apply list_elem_of_fmap_2. }
    unfold order in Hin. rewrite completion_order_Permutation in Hin.
    apply elem_of_seq in Hin. lia.
  - exists s. split; [|done].
    eapply run_actions_reachable; [apply reach_init|exact Hrun].
Qed.

(** C9: for every list of N urls and every limit K >= 1 the call returns,
    whatever the scheduler does, and only once every goroutine has its
    answer; the slice it returns holds exactly N results, the request
    indices 0..N-1 each exactly once, and every result is the one its own
    request produced: a response, an error, or both.  This holds of the
    goroutine system and of the call read as a function. *)
Theorem C9_BoundedParallelGet_returns_every_result
    (net : NetOracle) (urls : list string) (K : Z) :
  1 <= K ->
  must_return (http_Get net) urls K (bpg_init urls)
  /\ (forall s, bpg_reachable (http_Get net) urls K s -> returned s = true ->
        length (results s) = length urls
        /\ Index <$> results s ≡ₚ seq 0 (length urls)
        /\ (forall r, r ∈ results s ->
              result_of (http_Get net) urls (Index r) = Some r
              /\ (is_Some (Err r) \/ is_Some (Body (Res r))))
        /\ (forall i g, goroutines s !! i = Some g -> request_finished g))
  /\ (exists l, BoundedParallelGet net urls K = Some l
        /\ length l = length urls
        /\ Index <$> l ≡ₚ seq 0 (length urls)
        /\ (forall r, r ∈ l ->
              result_of (http_Get net) urls (Index r) = Some r
              /\ (is_Some (Err r) \/ is_Some (Body (Res r))))).
Proof.
  intros HK. split_and!.
  - apply (bpg_must_return_bounded _ _ _ (bpg_measure urls (bpg_init urls)));
      [done|apply bpg_inv_init|done].
  - intros s Hs Hret. apply bpg_reachable_inv in Hs.
    destruct (bpg_returned_complete _ _ _ s Hs Hret)
      as (Hlen & _ & Hperm & Hres & Hfin).
    split_and!; try done.
    intros r Hr. split; [by apply Hres|].
    eapply result_is_response_or_error. by apply Hres.
  - eexists. split; [by apply BoundedParallelGet_returns|].
    destruct (omap_result_of (http_Get net) urls
                (completion_order net (length urls))) as [Hidx Hres].
    { apply completion_order_bound. }
    split_and!.
    + by rewrite <- (length_fmap Index), Hidx, completion_order_Permutation, length_seq.
    + by rewrite Hidx, completion_order_Permutation.
    + intros r Hr. split; [by apply Hres|].
      eapply result_is_response_or_error. by apply Hres.
Qed.

(* ===================================================================== *)
(** * The accumulator                                                     *)
(* ===================================================================== *)

Lemma apiAddress_idempotent sh5 :
  fst (apiAddress (snd (apiAddress sh5))) = fst (apiAddress sh5)
  /\ snd (apiAddress (snd (apiAddress sh5))) = snd (apiAddress sh5).
Proof.
  unfold apiAddress. destruct (String.eqb (IPAddress sh5) "") eqn:Hip; simpl.
  - done.
  - by rewrite Hip.
Qed.

Lemma BoundedParallelGet_three net urls :
  BoundedParallelGet net urls 3
  = Some (omap (result_of (http_Get net) urls) (completion_order net (length urls))).
Proof. by apply BoundedParallelGet_returns. Qed.

Lemma fetch_block_unfold lib w sh5 :
  fetch_block lib w sh5
  = let '(r, sh5') := accumulate lib (fetched_results w sh5) (started w sh5) in
    (r, sh5', fetch_trace sh5).
Proof.
  unfold fetch_block, fetched_results, started, fetch_trace, queries_of.
  unfold apiAddress. cbn [IPAddress Stats FetchTime].
  destruct (String.eqb (IPAddress sh5) ""); cbn [IPAddress Stats FetchTime fst snd];
    rewrite BoundedParallelGet_three; cbn [length stats_queries];
    by destruct (accumulate lib _ _).
Qed.

Lemma ParseStats_uncached lib w sh5 :
  Stats sh5 = None ->
  ParseStats lib w sh5
  = match accumulate lib (fetched_results w sh5) (started w sh5) with
    | (Returns _, sh5') =>
        (fst (parse_block lib sh5'), sh5', fetch_trace sh5 ++ snd (parse_block lib sh5'))
    | (Fails err, sh5') => (Fails err, sh5', fetch_trace sh5)
    | (Crashes, sh5') => (Crashes, sh5', fetch_trace sh5)
    end.
Proof.
  intros Hnil. unfold ParseStats. rewrite Hnil, fetch_block_unfold.
  destruct (accumulate lib _ _) as [[[]|err|] sh5']; try done.
  by destruct (parse_block lib sh5').
Qed.

Lemma ParseStats_cached lib w sh5 :
  is_Some (Stats sh5) ->
  ParseStats lib w sh5
  = (fst (parse_block lib sh5), sh5, snd (parse_block lib sh5)).
Proof.
  intros [doc Hdoc]. unfold ParseStats. rewrite Hdoc.
  by destruct (parse_block lib sh5).
Qed.

Lemma accumulate_stops lib pre query post sh5 sh1 stop :
  accumulate lib pre sh5 = (Returns (), sh1) ->
  (forall u, fst (accumulate_body lib query sh1) <> Returns u) ->
  accumulate_body lib query sh1 = stop ->
  accumulate lib (pre ++ query :: post) sh5 = stop.
Proof.
  revert sh5. induction pre as [|q pre IH]; intros sh5; simpl.
  - intros [= <-] Hne <-. destruct (accumulate_body lib query sh5) as [[u|e|] m]; try done.
    by destruct (Hne u).
  - destruct (accumulate_body lib q sh5) as [[u|e|] m]; try done. apply IH.
Qed.

Lemma accumulate_fails lib pre query post sh5 sh1 sh2 e :
  accumulate lib pre sh5 = (Returns (), sh1) ->
  accumulate_body lib query sh1 = (Fails e, sh2) ->
  accumulate lib (pre ++ query :: post) sh5 = (Fails e, sh2).
Proof.
  intros Hpre Hq. eapply accumulate_stops; [done| |done].
  intros u. by rewrite Hq.
Qed.

Lemma accumulate_body_failure lib query sh1 e :
  fetch_or_read_failure query e ->
  accumulate_body lib query sh1 = (Fails e, sh1).
Proof.
  unfold accumulate_body. intros [-> | [-> ->]]; done.
Qed.

Lemma fetch_trace_ClearStats sh5 : fetch_trace (ClearStats sh5) = fetch_trace sh5.
Proof.
  unfold fetch_trace, queries_of, apiAddress. simpl.
  by destruct (String.eqb (IPAddress sh5) "").
Qed.

Lemma started_ClearStats w sh5 : started w (ClearStats sh5) = started w sh5.
Proof.
  unfold started, apiAddress. simpl.
  by destruct (String.eqb (IPAddress sh5) "").
Qed.

Lemma fetched_results_ClearStats w sh5 :
  fetched_results w (ClearStats sh5) = fetched_results w sh5.
Proof.
  unfold fetched_results, queries_of, apiAddress. simpl.
  by destruct (String.eqb (IPAddress sh5) "").
Qed.

(** After [ClearStats] the fetch set is issued again. *)
Lemma ParseStats_refetches lib w sh5 :
  exists r sh5' out,
    ParseStats lib w (ClearStats sh5) = (r, sh5', fetch_trace sh5 ++ out).
Proof.
  rewrite ParseStats_uncached by done.
  rewrite fetch_trace_ClearStats.
  destruct (accumulate lib _ _) as [[[]|err|] sh5']; eexists _, _, _;
    try done; by rewrite app_nil_r.
Qed.

(** The results the loop inspects never lack a body. *)
Lemma fetched_results_body w sh5 query :
  query ∈ fetched_results w sh5 ->
  Err query = None -> is_Some (Body (Res query)).
Proof.
  unfold fetched_results. intros Hq Herr.
  destruct (omap_result_of (http_Get (net w)) (queries_of sh5)
              (completion_order (net w) 3)) as [_ Hres].
  { apply completion_order_bound. }
  destruct (result_is_response_or_error _ _ _ _ (Hres _ Hq)) as [[e He]|Hb]; [|done].
  congruence.
Qed.

Lemma accumulate_no_crash lib statsData sh5 :
  (forall query, query ∈ statsData -> Err query = None -> is_Some (Body (Res query))) ->
  fst (accumulate lib statsData sh5) <> Crashes.
Proof.
  revert sh5. induction statsData as [|q rest IH]; intros sh5 Hbody; simpl; [done|].
  assert (fst (accumulate_body lib q sh5) <> Crashes) as Hq.
  { unfold accumulate_body. destruct (Err q) eqn:He; [done|].
    destruct (Hbody q) as [b ->]; [by left|done|].
    destruct b; [|done].
    by destruct (MergeMergePatches lib _ data) as [merged [err|]]. }
  destruct (accumulate_body lib q sh5) as [[u|e|] m]; try done.
  apply IH. intros query Hin. apply Hbody. by right.
Qed.

(** X1: [ParseStats] never panics and never blocks: the nil body of a
    zero-valued response is never read, because a result without an error
    always carries the response of its request, and the fetch with limit 3
    always returns. *)
Lemma ParseStats_never_crashes lib w sh5 :
  fst (fst (ParseStats lib w sh5)) <> Crashes.
Proof.
  destruct (Stats sh5) as [doc|] eqn:Hdoc.
  - rewrite ParseStats_cached by (by eexists). simpl.
    unfold parse_block. destruct (Unmarshal_results lib _); [done|].
    by destruct (normalize _ _).
  - rewrite ParseStats_uncached by done.
    pose proof (accumulate_no_crash lib (fetched_results w sh5) (started w sh5)
                  (fetched_results_body w sh5)) as Hc.
    destruct (accumulate lib _ _) as [[[]|err|] sh5']; simpl in *; try done.
    unfold parse_block. destruct (Unmarshal_results lib _); [done|].
    by destruct (normalize _ _).
Qed.

#[global] Instance finishes_before_transitive net : Transitive (finishes_before net).
Proof. intros i j k. unfold finishes_before. lia. Qed.

Lemma fetched_results_Index w sh5 :
  Index <$> fetched_results w sh5 = completion_order (net w) 3
  /\ forall r, r ∈ fetched_results w sh5 ->
       result_of (http_Get (net w)) (queries_of sh5) (Index r) = Some r.
Proof. apply omap_result_of, (completion_order_bound (net w) 3). Qed.

Lemma accumulate_keeps_document lib statsData sh5 sh1 :
  merge_returns_document lib ->
  is_Some (Stats sh5) ->
  accumulate lib statsData sh5 = (Returns (), sh1) ->
  is_Some (Stats sh1).
Proof.
  intros Hlib. revert sh5.
  induction statsData as [|q rest IH]; intros sh5 Hdoc; simpl.
  - by intros [= <-].
  - destruct (accumulate_body lib q sh5) as [[u|e|] m] eqn:Hq; try done.
    apply IH. unfold accumulate_body in Hq.
    destruct (Err q); [done|]. destruct (Body (Res q)) as [[data|]|]; try done.
    destruct (MergeMergePatches lib _ data) as [merged [err|]] eqn:Hm; [done|].
    injection Hq as _ <-. simpl. by apply (Hlib _ _ _ Hm).
Qed.

Lemma ParseStats_surfaces_failure lib w sh5 pre post query sh1 sh2 e :
  fetched_results w sh5 = pre ++ query :: post ->
  accumulate lib pre (started w sh5) = (Returns (), sh1) ->
  accumulate_body lib query sh1 = (Fails e, sh2) ->
  ParseStats lib w (ClearStats sh5) = (Fails e, sh2, fetch_trace sh5).
Proof.
  intros Hres Hpre Hq. rewrite ParseStats_uncached by done.
  rewrite started_ClearStats, fetched_results_ClearStats.
  rewrite Hres, (accumulate_fails lib pre query post _ sh1 sh2 e Hpre Hq).
  by rewrite fetch_trace_ClearStats.
Qed.

(** C2 (amended): the accumulator inspects the results in the order
    [BoundedParallelGet] returns them, which is the order the requests
    completed in, and returns the error of the first result that fails in
    that order: every result inspected before it completed no later, every
    result after it no earlier.  Each result is the one of the request whose
    index it carries, but the index is not used to order them. *)
Theorem C2_first_failure_in_completion_order
    (lib : JsonLib) (w : World) (sh5 : Modem)
    (pre post : list HttpResult) (query : HttpResult)
    (sh1 sh2 : Modem) (e : error) :
  fetched_results w sh5 = pre ++ query :: post ->
  accumulate lib pre (started w sh5) = (Returns (), sh1) ->
  accumulate_body lib query sh1 = (Fails e, sh2) ->
  fst (fst (ParseStats lib w (ClearStats sh5))) = Fails e
  /\ Index <$> fetched_results w sh5 ≡ₚ [0; 1; 2]%nat
  /\ Sorted (finishes_before (net w)) (Index <$> fetched_results w sh5)
  /\ Forall (fun r => finish (net w) (Index r) <= finish (net w) (Index query))%nat pre
  /\ Forall (fun r => finish (net w) (Index query) <= finish (net w) (Index r))%nat post
  /\ (forall r, r ∈ fetched_results w sh5 ->
        result_of (http_Get (net w)) (queries_of sh5) (Index r) = Some r).
Proof.
  intros Hres Hpre Hq.
  destruct (fetched_results_Index w sh5) as [Hidx Hown].
  pose proof (completion_order_Sorted (net w) 3) as Hsorted.
  rewrite <- Hidx in Hsorted.
  split_and!; try done.
  - by rewrite (ParseStats_surfaces_failure lib w sh5 pre post query
                     sh1 sh2 e Hres Hpre Hq).
  - rewrite Hidx. apply completion_order_Permutation.
  - apply (Sorted_StronglySorted (finishes_before (net w))) in Hsorted.
    rewrite Hres, fmap_app in Hsorted.
    apply Forall_forall. intros r Hr.
    apply (StronglySorted_app_1_elem_of _ _ _ _ _ Hsorted).
    + by apply list_elem_of_fmap_2.
    + rewrite fmap_cons. by left.
  - apply (Sorted_StronglySorted (finishes_before (net w))) in Hsorted.
    rewrite Hres, fmap_app in Hsorted.
    apply StronglySorted_app_1_r in Hsorted.
    rewrite fmap_cons in Hsorted.
    apply StronglySorted_cons in Hsorted as [Hall _].
    rewrite Forall_fmap in Hall. eapply Forall_impl; [exact Hall|].
    intros r Hr. exact Hr.
Qed.

(** C1 as stated fails: in [race_world] the first result is a failed fetch;
    [ParseStats] returns its error and leaves [Stats] set to "{}", so the
    next call fetches nothing and returns an empty snapshot with no error. *)
Lemma C1_failed_fetch_leaves_document_set :
  ParseStats test_json race_world fresh_modem
  = (Fails serviceflows_refused,
     mkModem "192.168.100.1" (Some empty_object) 40,
     fetch_trace fresh_modem)
  /\ ParseStats test_json race_world (mkModem "192.168.100.1" (Some empty_object) 40)
     = (Returns (mkModemStats [] [] [] 40 ""),
        mkModem "192.168.100.1" (Some empty_object) 40,
        []).
Proof. split; vm_compute; reflexivity. Qed.

Lemma C2_first_failure_in_completion_order_witness :
  fst (fst (ParseStats test_json race_world (ClearStats fresh_modem)))
  = Fails serviceflows_refused
  /\ Index <$> fetched_results race_world fresh_modem ≡ₚ [0; 1; 2]%nat
  /\ Sorted (finishes_before (net race_world))
            (Index <$> fetched_results race_world fresh_modem)
  /\ Forall (fun r => finish (net race_world) (Index r)
                      <= finish (net race_world) (Index race_first))%nat []
  /\ Forall (fun r => finish (net race_world) (Index race_first)
                      <= finish (net race_world) (Index r))%nat race_rest
  /\ (forall r, r ∈ fetched_results race_world fresh_modem ->
        result_of (http_Get (net race_world)) (queries_of fresh_modem) (Index r)
        = Some r).
Proof.
  apply (C2_first_failure_in_completion_order test_json race_world fresh_modem
           [] race_rest race_first (started race_world fresh_modem)
           (started race_world fresh_modem)); reflexivity.
Defined.

(** C2 as stated fails: in [race_world] requests 0 and 2 both fail and
    request 2 completes first; the goroutine system has a run returning the
    results in the order 2, 1, 0, and [ParseStats] returns the error of
    request 2, not that of request 0. *)
Lemma C2_fast_later_failure_masks_earlier :
  result_of (http_Get race_net) (queries_of fresh_modem) 0
  = Some (mkHttpResult 0 zero_Response (Some downstream_timeout))
  /\ result_of (http_Get race_net) (queries_of fresh_modem) 2
     = Some (mkHttpResult 2 zero_Response (Some serviceflows_refused))
  /\ downstream_timeout <> serviceflows_refused
  /\ BoundedParallelGet race_net (queries_of fresh_modem) 3
     = Some (race_first :: race_rest)
  /\ fst (fst (ParseStats test_json race_world fresh_modem))
     = Fails serviceflows_refused
  /\ (exists s, bpg_reachable (http_Get race_net) (queries_of fresh_modem) 3 s
                /\ returned s = true
                /\ results s = race_first :: race_rest).
Proof.
  split_and!; try (vm_compute; reflexivity).
  - discriminate.
  - apply (BoundedParallelGet_is_a_run race_net); [lia|]. vm_compute. reflexivity.
Qed.

(* ===================================================================== *)
(** * Status codes                                                        *)
(* ===================================================================== *)

Lemma accumulate_body_payload lib q q' sh5 :
  same_payload q q' -> accumulate_body lib q sh5 = accumulate_body lib q' sh5.
Proof. intros [He Hb]. unfold accumulate_body. by rewrite He, Hb. Qed.

Lemma accumulate_payload lib l l' sh5 :
  Forall2 same_payload l l' -> accumulate lib l sh5 = accumulate lib l' sh5.
Proof.
  intros H. revert sh5. induction H as [|q q' l l' Hq _ IH]; intros sh5; simpl; [done|].
  rewrite (accumulate_body_payload lib q q' sh5 Hq).
  destruct (accumulate_body lib q' sh5) as [[u|e|] m]; auto.
Qed.

Lemma restatus_payload f o i : same_payload (mk_result i (restatus_outcome f o)) (mk_result i o).
Proof. by destruct o. Qed.

Lemma result_of_restatus f answers urls i :
  option_Forall2 same_payload
    (result_of (fun i url => restatus_outcome f (answers i url)) urls i)
    (result_of answers urls i).
Proof.
  unfold result_of. destruct (urls !! i) as [url|]; simpl; constructor.
  apply restatus_payload.
Qed.

Lemma omap_Forall2 {A B} (R : B -> B -> Prop) (g g' : A -> option B) l :
  (forall x, option_Forall2 R (g x) (g' x)) ->
  Forall2 R (omap g l) (omap g' l).
Proof.
  intros Hg. induction l as [|x l IH]; [constructor|].
  change (omap g (x :: l))
    with (match g x with Some y => y :: omap g l | None => omap g l end).
  change (omap g' (x :: l))
    with (match g' x with Some y => y :: omap g' l | None => omap g' l end).
  destruct (Hg x); [by constructor|done].
Qed.

Lemma fetched_results_restatus f w sh5 :
  Forall2 same_payload (fetched_results (restatus_world f w) sh5) (fetched_results w sh5).
Proof.
  unfold fetched_results.
  change (completion_order (net (restatus_world f w)) 3)
    with (completion_order (net w) 3).
  apply omap_Forall2. intros i. apply result_of_restatus.
Qed.

Lemma ParseStats_restatus lib w sh5 f :
  ParseStats lib (restatus_world f w) sh5 = ParseStats lib w sh5.
Proof.
  destruct (Stats sh5) as [doc|] eqn:Hdoc.
  - by rewrite !ParseStats_cached by (by eexists).
  - rewrite !ParseStats_uncached by done.
    change (started (restatus_world f w) sh5) with (started w sh5).
    by rewrite (accumulate_payload lib _ _ _ (fetched_results_restatus f w sh5)).
Qed.

Lemma FetchEventLog_restatus lib get sh5 f :
  FetchEventLog lib (fun url => restatus_outcome f (get url)) sh5
  = FetchEventLog lib get sh5.
Proof.
  unfold FetchEventLog. destruct (apiAddress sh5) as [base m].
  by destruct (get (base +:+ "/eventlog")).
Qed.

(** C8, the modem side: neither [ParseStats] nor [FetchEventLog] reads the
    status code of a response, so any status gives the same outcome as 200.
    With every stats address answering 503 and an empty JSON object
    [ParseStats] returns a snapshot and no error; with the event-log address
    answering 404, [FetchEventLog] returns an empty log and no error. *)
Theorem C8_modem_status_code_is_never_read
    (lib : JsonLib) (w : World) (sh5 : Modem) (f : Z -> Z)
    (get : string -> GetOutcome) :
  ParseStats lib (restatus_world f w) sh5 = ParseStats lib w sh5
  /\ FetchEventLog lib (fun url => restatus_outcome f (get url)) sh5
     = FetchEventLog lib get sh5
  /\ ParseStats test_json unavailable_world fresh_modem
     = (Returns (mkModemStats [] [] [] 40 ""),
        mkModem "192.168.100.1" (Some empty_object) 40,
        fetch_trace fresh_modem)
  /\ fst (FetchEventLog test_json unavailable_get fresh_modem) = inr [].
Proof.
  split_and!.
  - apply ParseStats_restatus.
  - apply FetchEventLog_restatus.
  - vm_compute. reflexivity.
  - vm_compute. reflexivity.
Qed.

(** C10: with a cached document, [ParseStats] takes no clock reading and
    issues no fetch (its trace holds printed lines only), leaves [Stats] and
    [FetchTime] as they were, and calling it again, in whatever world, gives
    the same outcome: the snapshot decoded from the cached bytes, carrying
    the stored fetch time. *)
Theorem C10_cached_document_is_reused
    (lib : JsonLib) (w w' : World) (ip : string) (doc : list Byte.byte)
    (fetchTime : Z) :
  let sh5 := mkModem ip (Some doc) fetchTime in
  ParseStats lib w sh5 = (fst (parse_block lib sh5), sh5, snd (parse_block lib sh5))
  /\ Forall (fun ev => match ev with EvPrintln _ => True | _ => False end)
            (snd (ParseStats lib w sh5))
  /\ Stats (snd (fst (ParseStats lib w sh5))) = Some doc
  /\ FetchTime (snd (fst (ParseStats lib w sh5))) = fetchTime
  /\ ParseStats lib w' (snd (fst (ParseStats lib w sh5))) = ParseStats lib w sh5
  /\ (forall stats, fst (fst (ParseStats lib w sh5)) = Returns stats ->
        StatsFetchTime stats = fetchTime
        /\ exists results, Unmarshal_results lib doc = inr results
                           /\ stats = fst (normalize results fetchTime)).
Proof.
  cbv zeta. set (sh5 := mkModem ip (Some doc) fetchTime).
  assert (Hc : forall v, ParseStats lib v sh5
                         = (fst (parse_block lib sh5), sh5, snd (parse_block lib sh5))).
  { intros v. apply ParseStats_cached. by eexists. }
  rewrite (Hc w). cbn [fst snd]. rewrite (Hc w').
  split_and!; [done| |done|done|done|].
  - unfold parse_block. simpl. destruct (Unmarshal_results lib doc); simpl; [constructor|].
    destruct (normalize r fetchTime) as [stats out]. simpl.
    apply Forall_fmap, Forall_forall. done.
  - intros stats. unfold parse_block. simpl.
    destruct (Unmarshal_results lib doc) as [err|results]; simpl; [done|].
    destruct (normalize results fetchTime) as [stats' out] eqn:Hn. simpl.
    intros [= <-]. split.
    + unfold normalize in Hn.
      destruct (range_channels downstream_body _ _ _ _).
      destruct (range_channels upstream_body _ _ _ _).
      by injection Hn as <- _.
    + exists results. by rewrite Hn.
Qed.

Lemma C9_BoundedParallelGet_returns_every_result_witness :
  must_return (http_Get race_net) (queries_of fresh_modem) 3
    (bpg_init (queries_of fresh_modem))
  /\ (forall s, bpg_reachable (http_Get race_net) (queries_of fresh_modem) 3 s ->
        returned s = true ->
        length (results s) = length (queries_of fresh_modem)
        /\ Index <$> results s ≡ₚ seq 0 (length (queries_of fresh_modem))
        /\ (forall r, r ∈ results s ->
              result_of (http_Get race_net) (queries_of fresh_modem) (Index r) = Some r
              /\ (is_Some (Err r) \/ is_Some (Body (Res r))))
        /\ (forall i g, goroutines s !! i = Some g -> request_finished g))
  /\ (exists l, BoundedParallelGet race_net (queries_of fresh_modem) 3 = Some l
        /\ length l = length (queries_of fresh_modem)
        /\ Index <$> l ≡ₚ seq 0 (length (queries_of fresh_modem))
        /\ (forall r, r ∈ l ->
              result_of (http_Get race_net) (queries_of fresh_modem) (Index r) = Some r
              /\ (is_Some (Err r) \/ is_Some (Body (Res r))))).
Proof.
  apply (C9_BoundedParallelGet_returns_every_result race_net
           (queries_of fresh_modem) 3). lia.
Defined.

(* ===================================================================== *)
(** * The log shipper                                                     *)
(* ===================================================================== *)

Lemma values_less_asym a b : values_less a b = true -> values_less b a = false.
Proof.
  unfold values_less, String.ltb.
  rewrite (String.compare_antisym (hd "" b) (hd "" a)).
  by destruct (String.compare (hd "" a) (hd "" b)).
Qed.

#[global] Instance values_le_total : Total values_le.
Proof.
  intros a b. unfold values_le.
  destruct (values_less b a) eqn:Hba; [right|by left].
  by apply values_less_asym.
Qed.

Lemma sort_Slice_Sorted values : Sorted values_le (sort_Slice values).
Proof. apply Sorted_merge_sort, _. Qed.

Lemma sort_Slice_Permutation values : sort_Slice values ≡ₚ values.
Proof. apply merge_sort_Permutation. Qed.

Section ShipperFacts.
Context (time_Parse_UnixNano : string -> option Z).

Local Notation "'Push'" := (PushLogs time_Parse_UnixNano).

Lemma mark_seen_fold (m : gmap string bool) (newEntries : list EventLogEntry) key :
  fold_left (fun m entry => <[logKey entry := true]> m) newEntries m !! key
  = if bool_decide (key ∈ logKey <$> newEntries) then Some true else m !! key.
Proof.
  revert m. induction newEntries as [|e rest IH]; intros m; cbn [fold_left].
  - rewrite bool_decide_eq_false_2; [done|]. by intros ?%elem_of_nil.
  - rewrite IH. rewrite fmap_cons.
    destruct (decide (key = logKey e)) as [->|Hne].
    + rewrite lookup_insert_eq.
      rewrite (bool_decide_eq_true_2 (logKey e ∈ logKey e :: _)) by by left.
      by case_bool_decide.
    + rewrite lookup_insert_ne by done.
      case_bool_decide as H1; case_bool_decide as H2; try done.
      * exfalso. apply H2. by right.
      * exfalso. apply elem_of_cons in H2 as [?|?]; done.
Qed.

Lemma seen_mark_seen l newEntries key :
  seen (mark_seen l newEntries) key
  = bool_decide (key ∈ logKey <$> newEntries) || seen l key.
Proof.
  unfold seen, mark_seen. simpl. rewrite mark_seen_fold.
  by case_bool_decide.
Qed.

Lemma filter_new_spec l entries entry :
  entry ∈ filter_new l entries <-> entry ∈ entries /\ seen l (logKey entry) = false.
Proof.
  unfold filter_new. rewrite !list_elem_of_In, filter_In, negb_true_iff. done.
Qed.

Lemma filter_new_nil l entries :
  filter_new l entries = [] <->
  forall entry, entry ∈ entries -> seen l (logKey entry) = true.
Proof.
  split.
  - intros Hnil e He. destruct (seen l (logKey e)) eqn:Hs; [done|].
    assert (e ∈ filter_new l entries) as Hin by by apply filter_new_spec.
    rewrite Hnil in Hin. by apply elem_of_nil in Hin.
  - intros Hall. induction entries as [|e rest IH]; [done|].
    unfold filter_new. simpl. rewrite Hall by by left. simpl.
    apply IH. intros e' He'. apply Hall. by right.
Qed.

Lemma filter_new_after_mark l entries :
  filter_new (mark_seen l (filter_new l entries)) entries = [].
Proof.
  apply filter_new_nil. intros e He. rewrite seen_mark_seen.
  destruct (seen l (logKey e)) eqn:Hs; [by rewrite orb_true_r|].
  rewrite bool_decide_eq_true_2; [done|].
  apply list_elem_of_fmap_2. by apply filter_new_spec.
Qed.

Lemma PushLogs_nothing_new l w entries :
  fetched w = inr entries -> filter_new l entries = [] ->
  Push l w = (None, l, [EvFetchEventLog]).
Proof. intros Hf Hnil. unfold PushLogs. by rewrite Hf, Hnil. Qed.

Lemma PushLogs_fetch_failure l w err :
  fetched w = inl err ->
  Push l w = (Some (ErrWrap "failed to fetch event log" err), l, [EvFetchEventLog]).
Proof. intros Hf. unfold PushLogs. by rewrite Hf. Qed.

Lemma length_nonzero {A} (l : list A) : l <> [] -> (length l =? 0)%nat = false.
Proof. destruct l; [done|]. done. Qed.

(** What one cycle with something new to ship does. *)
Lemma PushLogs_new l w entries :
  fetched w = inr entries -> filter_new l entries <> [] ->
  let newEntries := filter_new l entries in
  pushes (snd (Push l w)) = [build_request time_Parse_UnixNano l w newEntries]
  /\ (push_confirmed w ->
      fst (fst (Push l w)) = None /\ snd (fst (Push l w)) = mark_seen l newEntries)
  /\ (~ push_confirmed w ->
      is_Some (fst (fst (Push l w))) /\ snd (fst (Push l w)) = l).
Proof.
  intros Hf Hnew. cbv zeta. unfold PushLogs. rewrite Hf, (length_nonzero _ Hnew).
  destruct (posted w) as [status|err] eqn:Hp.
  - destruct ((status <? 200) || (300 <=? status)) eqn:Hs; simpl.
    + split; [done|]. split.
      * intros (st & Hst & Hr). rewrite Hp in Hst. injection Hst as <-. exfalso.
        apply orb_true_iff in Hs as [?%Z.ltb_lt|?%Z.leb_le]; lia.
      * intros _. split; [by eexists|done].
    + apply orb_false_iff in Hs as [?%Z.ltb_ge ?%Z.leb_gt].
      split; [done|]. split; [done|].
      intros Hno. exfalso. apply Hno. exists status. split; [done|lia].
  - simpl. split; [done|]. split.
    + intros (st & Hst & _). by rewrite Hp in Hst.
    + intros _. split; [by eexists|done].
Qed.

Lemma PushLogs_errors l w entries :
  fetched w = inr entries -> filter_new l entries <> [] ->
  (forall err, posted w = PostFail err ->
     fst (fst (Push l w)) = Some (ErrWrap "failed to push to loki" err))
  /\ (forall status, posted w = PostResp status -> ~ 200 <= status < 300 ->
        fst (fst (Push l w))
        = Some (ErrMsg ("loki returned status " +:+ Sprintf_d status))).
Proof.
  intros Hf Hnew. unfold PushLogs. rewrite Hf, (length_nonzero _ Hnew).
  split.
  - by intros err ->.
  - intros status -> Hs.
    destruct ((status <? 200) || (300 <=? status)) eqn:Hb; [done|].
    apply orb_false_iff in Hb as [?%Z.ltb_ge ?%Z.leb_gt]. lia.
Qed.

(** C4: in a cycle that has new entries, exactly one push is issued, built
    from those entries.  The keys of the new entries enter the seen set when
    the sink confirms the push with a 2xx status, and nothing else does.  On
    a transport failure or any other status [PushLogs] returns an error and
    leaves the exporter as it was, so the next cycle over the same log
    selects the same entries and pushes them again. *)
Theorem C4_seen_set_grows_only_on_confirmed_push
    (l : LokiExporter) (w : ShipWorld) (entries : list EventLogEntry) :
  fetched w = inr entries ->
  filter_new l entries <> [] ->
  let newEntries := filter_new l entries in
  let l' := snd (fst (Push l w)) in
  pushes (snd (Push l w)) = [build_request time_Parse_UnixNano l w newEntries]
  /\ (push_confirmed w ->
      fst (fst (Push l w)) = None
      /\ l' = mark_seen l newEntries
      /\ (forall entry, entry ∈ newEntries -> seen l' (logKey entry) = true)
      /\ (forall key, seen l' key = true ->
            seen l key = true \/ key ∈ logKey <$> newEntries))
  /\ (~ push_confirmed w ->
      is_Some (fst (fst (Push l w)))
      /\ l' = l
      /\ (forall w2, fetched w2 = inr entries ->
            filter_new l' entries = newEntries
            /\ pushes (snd (Push l' w2))
               = [build_request time_Parse_UnixNano l' w2 newEntries]))
  /\ (forall err, posted w = PostFail err ->
        fst (fst (Push l w)) = Some (ErrWrap "failed to push to loki" err))
  /\ (forall status, posted w = PostResp status -> ~ 200 <= status < 300 ->
        fst (fst (Push l w))
        = Some (ErrMsg ("loki returned status " +:+ Sprintf_d status))).
Proof.
  intros Hf Hnew. cbv zeta.
  destruct (PushLogs_new l w entries Hf Hnew) as (Hpush & Hok & Hko).
  destruct (PushLogs_errors l w entries Hf Hnew) as [Herr Hstatus].
  split_and!; try done.
  - intros Hc. destruct (Hok Hc) as [Hnone Hl']. rewrite Hl'.
    split_and!; try done.
    + intros e He. rewrite seen_mark_seen, bool_decide_eq_true_2; [done|].
      by apply list_elem_of_fmap_2.
    + intros key. rewrite seen_mark_seen. intros [Hk%bool_decide_eq_true|Hk]%orb_true_iff; auto.
  - intros Hc. destruct (Hko Hc) as [Hsome Hl']. rewrite Hl'.
    split_and!; try done. intros w2 Hf2. split; [done|].
    by destruct (PushLogs_new l w2 entries Hf2 Hnew) as (-> & _).
Qed.

End ShipperFacts.

Lemma C4_seen_set_grows_only_on_confirmed_push_witness :
  fetched failing_sink = inr boot_log
  /\ filter_new shipper boot_log <> []
  /\ pushes (snd (PushLogs rfc3339_utc_UnixNano shipper failing_sink))
     = [build_request rfc3339_utc_UnixNano shipper failing_sink
          (filter_new shipper boot_log)]
  /\ (~ push_confirmed failing_sink ->
      is_Some (fst (fst (PushLogs rfc3339_utc_UnixNano shipper failing_sink)))
      /\ snd (fst (PushLogs rfc3339_utc_UnixNano shipper failing_sink)) = shipper).
Proof.
  assert (H1 : fetched failing_sink = inr boot_log) by reflexivity.
  assert (H2 : filter_new shipper boot_log <> []) by (vm_compute; discriminate).
  pose proof (C4_seen_set_grows_only_on_confirmed_push rfc3339_utc_UnixNano
                shipper failing_sink boot_log H1 H2) as H.
  cbv zeta in H. destruct H as (Hp & _ & Hko & _).
  split; [exact H1|]. split; [exact H2|]. split; [exact Hp|].
  intros Hc. destruct (Hko Hc) as (Hs & Hl & _). split; [exact Hs|exact Hl].
Defined.

(** C7 at its failing input: two entries of one severity, stamped 30 s and
    105 s after the epoch, parse to 30000000000 and 105000000000 ns; the
    request [PushLogs] sends lists the later entry first, because
    [sort.Slice] compares the decimal strings and "105000000000" is below
    "30000000000" byte by byte. *)
Theorem C7_values_are_ordered_as_strings :
  rfc3339_utc_UnixNano "1970-01-01T00:00:30Z" = Some 30000000000
  /\ rfc3339_utc_UnixNano "1970-01-01T00:01:45Z" = Some 105000000000
  /\ map Values (Streams (build_request rfc3339_utc_UnixNano shipper accepting_sink boot_log))
     = [[["105000000000"; "later"]; ["30000000000"; "earlier"]]]
  /\ pushes (snd (PushLogs rfc3339_utc_UnixNano shipper accepting_sink))
     = [build_request rfc3339_utc_UnixNano shipper accepting_sink boot_log].
Proof. split_and!; vm_compute; reflexivity. Qed.

(* ===================================================================== *)
(** * More of the normalizer                                              *)
(* ===================================================================== *)


Lemma elem_of_Z_range lo hi d : lo <= d <= hi -> d ∈ Z_range lo hi.
Proof.
  intros Hd. unfold Z_range. apply list_elem_of_fmap.
  exists (Z.to_nat (d - lo)). split; [lia|].
  apply elem_of_seq. lia.
Qed.

Lemma forallb_Z_range (f : Z -> bool) lo hi d :
  forallb f (Z_range lo hi) = true -> lo <= d <= hi -> f d = true.
Proof.
  intros Hall Hd. rewrite forallb_forall in Hall.
  by apply Hall, list_elem_of_In, elem_of_Z_range.
Qed.

(** Exact scaling of one-decimal powers, checked on the whole range. *)
Lemma scaled_power_of_tenths_bounded (tenths : Z) :
  -3000 <= tenths <= 3000 ->
  scaled_power (power_of_tenths tenths) = tenths.
Proof.
  intros Hd. apply Z.eqb_eq.
  apply (forallb_Z_range (fun d => scaled_power (power_of_tenths d) =? d) (-3000) 3000);
    [vm_compute; reflexivity|done].
Qed.

(** X2: a downstream "sc_qam" entry whose raw power is a decimal with one
    fractional digit, between -300.0 and 300.0, is emitted with exactly ten
    times that decimal: the float32 product and the truncation lose
    nothing. *)
Theorem sc_qam_power_of_tenths_exact (results : resultsStruct) (fetchTime : Z)
    (i : nat) (d : dsChannel) (tenths : Z) :
  Downstream_Channels results !! i = Some d ->
  ds_ChannelType d = "sc_qam" ->
  -3000 <= tenths <= 3000 ->
  ds_Power d = power_of_tenths tenths ->
  exists c, c ∈ DownChannels (fst (normalize results fetchTime))
    /\ Channel c = Z.of_nat i + 1 /\ ChannelID c = ds_ID d
    /\ Power c = tenths.
Proof.
  intros Hi Htype Hrange Hpower. rewrite normalize_DownChannels.
  destruct (downstream_body i d) as [line|c] eqn:Hbody.
  { unfold downstream_body in Hbody. by rewrite Htype in Hbody. }
  exists c. split; [apply elem_of_emitted; by exists i, d|].
  unfold downstream_body in Hbody. rewrite Htype in Hbody. simpl in Hbody.
  injection Hbody as <-. simpl. split_and!; try done.
  rewrite Hpower. by apply scaled_power_of_tenths_bounded.
Qed.

Lemma sc_qam_power_of_tenths_exact_witness :
  Downstream_Channels mixed_document !! 0%nat = Some channel_37
  /\ -3000 <= 21 <= 3000
  /\ exists c, c ∈ DownChannels (fst (normalize mixed_document 100))
       /\ Channel c = Z.of_nat 0 + 1 /\ ChannelID c = ds_ID channel_37
       /\ Power c = 21.
Proof.
  split; [reflexivity|]. split; [lia|].
  apply (sc_qam_power_of_tenths_exact mixed_document 100 0 channel_37 21);
    [reflexivity|reflexivity|lia|reflexivity].
Defined.

Section RangeLoopOutput.
Context {A : Type} (body : nat -> A -> string + ModemChannel).

Lemma range_channels_printed index xs channels stdout :
  snd (range_channels body index xs channels stdout)
  = stdout ++ printed body index xs.
Proof.
  revert index channels stdout.
  induction xs as [|x rest IH]; intros index channels stdout; simpl.
  - by rewrite app_nil_r.
  - destruct (body index x) as [line|c]; rewrite IH; [|done].
    by rewrite <- app_assoc.
Qed.

Lemma printed_filter (recognized : A -> bool) (tag : A -> string) index xs :
  (forall i x, body i x = inl (unknown_scheme_line (tag x)) \/
               (recognized x = true /\ exists c, body i x = inr c)) ->
  (forall i x, recognized x = true -> exists c, body i x = inr c) ->
  printed body index xs
  = map (fun x => unknown_scheme_line (tag x))
        (List.filter (fun x => negb (recognized x)) xs).
Proof.
  intros Hbody Hrec. revert index.
  induction xs as [|x rest IH]; intros index; [done|].
  cbn [printed List.filter].
  destruct (recognized x) eqn:Hx; simpl.
  - destruct (Hrec index x Hx) as [c ->]. apply IH.
  - destruct (Hbody index x) as [->|[Hcontra _]]; [|congruence].
    simpl. by rewrite IH.
Qed.

End RangeLoopOutput.

Lemma downstream_body_cases i d :
  downstream_body i d = inl (unknown_scheme_line (ds_ChannelType d)) \/
  (ds_recognized d = true /\ exists c, downstream_body i d = inr c).
Proof.
  unfold downstream_body, ds_recognized.
  destruct (String.eqb (ds_ChannelType d) "sc_qam"); [right; eauto|].
  destruct (String.eqb (ds_ChannelType d) "ofdm"); [right; eauto|by left].
Qed.

Lemma upstream_body_cases i u :
  upstream_body i u = inl (unknown_scheme_line (us_ChannelType u)) \/
  (us_recognized u = true /\ exists c, upstream_body i u = inr c).
Proof.
  unfold upstream_body, us_recognized.
  destruct (String.eqb (us_ChannelType u) "atdma"); [right; eauto|].
  destruct (String.eqb (us_ChannelType u) "ofdma"); [right; eauto|by left].
Qed.

Lemma normalize_stdout results fetchTime :
  snd (normalize results fetchTime)
  = printed downstream_body 0 (Downstream_Channels results)
    ++ printed upstream_body 0 (Upstream_Channels results).
Proof.
  unfold normalize.
  pose proof (range_channels_printed downstream_body 0
                (Downstream_Channels results) [] []) as Hd.
  destruct (range_channels downstream_body 0 _ [] []) as [down out1].
  pose proof (range_channels_printed upstream_body 0
                (Upstream_Channels results) [] out1) as Hu.
  destruct (range_channels upstream_body 0 _ [] out1) as [up out2].
  simpl in *. by rewrite Hu, Hd.
Qed.

(** X3: the normalizer prints one line "Unknown channel scheme: <tag>" for
    each entry it skips, the downstream ones first, each list in document
    order, and nothing else; every raw entry is either emitted or
    reported. *)
Theorem normalize_prints_one_line_per_skipped_entry
    (results : resultsStruct) (fetchTime : Z) :
  snd (normalize results fetchTime)
  = map (fun d => unknown_scheme_line (ds_ChannelType d))
        (List.filter (fun d => negb (ds_recognized d)) (Downstream_Channels results))
    ++ map (fun u => unknown_scheme_line (us_ChannelType u))
           (List.filter (fun u => negb (us_recognized u)) (Upstream_Channels results))
  /\ (length (DownChannels (fst (normalize results fetchTime)))
      + length (UpChannels (fst (normalize results fetchTime)))
      + length (snd (normalize results fetchTime))
      = length (Downstream_Channels results) + length (Upstream_Channels results))%nat.
Proof.
  rewrite normalize_stdout.
  rewrite (printed_filter downstream_body ds_recognized ds_ChannelType).
  2:{ apply downstream_body_cases. }
  2:{ intros i d Hd. destruct (downstream_body_cases i d) as [Hl|[_ Hr]]; [|done].
      rewrite (downstream_body_recognized i d), Hl in Hd. done. }
  rewrite (printed_filter upstream_body us_recognized us_ChannelType).
  2:{ apply upstream_body_cases. }
  2:{ intros i u Hu. destruct (upstream_body_cases i u) as [Hl|[_ Hr]]; [|done].
      rewrite (upstream_body_recognized i u), Hl in Hu. done. }
  split; [done|].
  rewrite normalize_DownChannels, normalize_UpChannels.
  rewrite (length_emitted downstream_body ds_recognized) by apply downstream_body_recognized.
  rewrite (length_emitted upstream_body us_recognized) by apply upstream_body_recognized.
  rewrite length_app, !length_map.
  pose proof (filter_length ds_recognized (Downstream_Channels results)).
  pose proof (filter_length us_recognized (Upstream_Channels results)).
  lia.
Qed.

(** Converting a whole number to float32 and back is exact (checked on the
    range a power reading can take). *)
Lemma to_int_of_Z n : -3000 <= n <= 3000 -> Float32.to_int (Float32.of_Z n) = n.
Proof.
  intros Hn. apply Z.eqb_eq.
  apply (forallb_Z_range (fun d => Float32.to_int (Float32.of_Z d) =? d) (-3000) 3000);
    [vm_compute; reflexivity|done].
Qed.

Lemma normalize_Configs results fetchTime :
  Configs (fst (normalize results fetchTime)) = map config_of (ServiceFlows results).
Proof.
  unfold normalize.
  destruct (range_channels downstream_body 0 _ [] []) as [down out1].
  by destruct (range_channels upstream_body 0 _ [] out1) as [up out2].
Qed.

(** X4: a downstream "ofdm" entry is emitted with its power truncated but
    not scaled, its SNR replaced by the raw rxMer (the raw snr is not
    used), the same error counters and modulation label as an SC-QAM entry,
    and scheme "OFDM"; a whole-number power is kept as it is. *)
Theorem ofdm_is_unscaled (results : resultsStruct) (fetchTime : Z)
    (i : nat) (d : dsChannel) :
  Downstream_Channels results !! i = Some d ->
  ds_ChannelType d = "ofdm" ->
  exists c, c ∈ DownChannels (fst (normalize results fetchTime))
    /\ Channel c = Z.of_nat i + 1
    /\ ChannelID c = ds_ID d
    /\ Frequency c = ds_Frequency d
    /\ Power c = Float32.to_int (ds_Power d)
    /\ Snr c = ds_RxMer d
    /\ Prerserr c = GoInt.add (ds_PreRS d) (ds_PostRS d)
    /\ Postrserr c = ds_PostRS d
    /\ Modulation c = "QAM" +:+ modulationRegex_FindString (ds_Modulation d)
    /\ Scheme c = "OFDM"
    /\ Locked c = ds_LockStatus d
    /\ (forall n, -3000 <= n <= 3000 -> ds_Power d = Float32.of_Z n -> Power c = n).
Proof.
  intros Hi Htype. rewrite normalize_DownChannels.
  destruct (downstream_body i d) as [line|c] eqn:Hbody.
  { unfold downstream_body in Hbody. by rewrite Htype in Hbody. }
  exists c. split; [apply elem_of_emitted; by exists i, d|].
  unfold downstream_body in Hbody. rewrite Htype in Hbody. simpl in Hbody.
  injection Hbody as <-. simpl. split_and!; try done.
  intros n Hn ->. by apply to_int_of_Z.
Qed.

Lemma ofdm_is_unscaled_witness :
  exists c, c ∈ DownChannels (fst (normalize mixed_document 100))
    /\ Channel c = Z.of_nat 2 + 1
    /\ ChannelID c = ds_ID channel_33
    /\ Frequency c = ds_Frequency channel_33
    /\ Power c = Float32.to_int (ds_Power channel_33)
    /\ Snr c = ds_RxMer channel_33
    /\ Prerserr c = GoInt.add (ds_PreRS channel_33) (ds_PostRS channel_33)
    /\ Postrserr c = ds_PostRS channel_33
    /\ Modulation c = "QAM" +:+ modulationRegex_FindString (ds_Modulation channel_33)
    /\ Scheme c = "OFDM"
    /\ Locked c = ds_LockStatus channel_33
    /\ (forall n, -3000 <= n <= 3000 ->
        ds_Power channel_33 = Float32.of_Z n -> Power c = n).
Proof.
  apply (ofdm_is_unscaled mixed_document 100 2 channel_33); reflexivity.
Defined.

(** X5: a recognised upstream entry is emitted at ordinal 1 + its raw
    position with its identifier, frequency, lock state, symbol rate and the
    four timeout counters copied as they are, and no SNR, error counters or
    modulation.  "atdma" scales the power by ten (exactly, for a one-decimal
    reading), "ofdma" keeps the truncated power. *)
Theorem upstream_channel_fields (results : resultsStruct) (fetchTime : Z)
    (i : nat) (u : usChannel) :
  Upstream_Channels results !! i = Some u ->
  us_recognized u = true ->
  exists c, c ∈ UpChannels (fst (normalize results fetchTime))
    /\ Channel c = Z.of_nat i + 1
    /\ ChannelID c = us_ID u
    /\ Frequency c = us_Frequency u
    /\ Locked c = us_LockStatus u
    /\ SymbolRate c = us_SymbolRate u
    /\ T1Timeout c = us_T1Timeout u /\ T2Timeout c = us_T2Timeout u
    /\ T3Timeout c = us_T3Timeout u /\ T4Timeout c = us_T4Timeout u
    /\ Snr c = 0 /\ Prerserr c = 0 /\ Postrserr c = 0 /\ Modulation c = ""
    /\ (us_ChannelType u = "atdma" ->
        Scheme c = "ATDMA" /\ Power c = scaled_power (us_Power u)
        /\ forall tenths, -3000 <= tenths <= 3000 ->
             us_Power u = power_of_tenths tenths -> Power c = tenths)
    /\ (us_ChannelType u = "ofdma" ->
        Scheme c = "OFDMA" /\ Power c = Float32.to_int (us_Power u)
        /\ forall n, -3000 <= n <= 3000 ->
             us_Power u = Float32.of_Z n -> Power c = n).
Proof.
  intros Hi Hrec. rewrite normalize_UpChannels.
  destruct (upstream_body i u) as [line|c] eqn:Hbody.
  { rewrite (upstream_body_recognized i u), Hbody in Hrec. done. }
  exists c. split; [apply elem_of_emitted; by exists i, u|].
  unfold upstream_body in Hbody.
  destruct (String.eqb (us_ChannelType u) "atdma") eqn:Ha.
  - injection Hbody as <-. simpl. apply String.eqb_eq in Ha.
    split_and!; try done.
    + intros _. split_and!; try done.
      intros t Ht ->. by apply scaled_power_of_tenths_bounded.
    + intros Ho. rewrite Ho in Ha. done.
  - destruct (String.eqb (us_ChannelType u) "ofdma") eqn:Ho; [|done].
    injection Hbody as <-. simpl. apply String.eqb_neq in Ha.
    split_and!; try done.
    intros _. split_and!; try done.
    intros n Hn ->. by apply to_int_of_Z.
Qed.

Lemma upstream_channel_fields_witness :
  Upstream_Channels mixed_document !! 0%nat = Some channel_atdma
  /\ us_recognized channel_atdma = true
  /\ exists c, c ∈ UpChannels (fst (normalize mixed_document 100))
       /\ Channel c = 1 /\ Scheme c = "ATDMA" /\ Power c = 448.
Proof.
  split; [reflexivity|]. split; [reflexivity|].
  destruct (upstream_channel_fields mixed_document 100 0 channel_atdma
              eq_refl eq_refl) as (c & Hin & Hch & H).
  exists c. split; [exact Hin|]. split; [exact Hch|].
  destruct H as (_ & _ & _ & _ & _ & _ & _ & _ & _ & _ & _ & _ & Hatdma & _).
  destruct (Hatdma eq_refl) as (Hs & _ & Hp).
  split; [exact Hs|]. apply (Hp 448); [lia|reflexivity].
Defined.

(** X6: the snapshot holds one config per raw service flow, in document
    order, with direction, rates and identifier copied; none is filtered,
    also not one whose burst is zero.  The snapshot's fetch time is the one
    handed in and its modem type is left empty. *)
Theorem service_flows_copied_verbatim (results : resultsStruct) (fetchTime : Z) :
  let configs := Configs (fst (normalize results fetchTime)) in
  length configs = length (ServiceFlows results)
  /\ (forall i flow, ServiceFlows results !! i = Some flow ->
        configs !! i = Some {| Config := sf_Direction flow;
                               Maxrate := sf_MaxRate flow;
                               Maxburst := sf_MaxBurst flow;
                               ServiceFlowId := sf_ID flow |})
  /\ StatsFetchTime (fst (normalize results fetchTime)) = fetchTime
  /\ ModemType (fst (normalize results fetchTime)) = "".
Proof.
  cbv zeta. rewrite normalize_Configs. split_and!.
  - apply length_map.
  - intros i flow Hi. change (map config_of) with (fmap (M:=list) config_of).
    by rewrite list_lookup_fmap, Hi.
  - unfold normalize.
    destruct (range_channels downstream_body 0 _ [] []) as [down out1].
    by destruct (range_channels upstream_body 0 _ [] out1) as [up out2].
  - unfold normalize.
    destruct (range_channels downstream_body 0 _ [] []) as [down out1].
    by destruct (range_channels upstream_body 0 _ [] out1) as [up out2].
Qed.

(* ===================================================================== *)
(** * More of the fetcher and of ParseStats                               *)
(* ===================================================================== *)


Local Open Scope nat_scope.

(** X7: in every state the goroutine system can reach, the requests inside
    [client.Get] are no more than the limit, and so are the tokens in the
    semaphore channel; the results buffered and collected never exceed the
    number of urls, so a send on [resultsChan] never blocks. *)
Theorem BoundedParallelGet_respects_the_limit
    (answers : nat -> string -> GetOutcome) (urls : list string)
    (concurrencyLimit : Z) (s : bpg_state) :
  bpg_reachable answers urls concurrencyLimit s ->
  (Z.of_nat (sum_list (in_flight <$> goroutines s)) <= Z.max 0 concurrencyLimit)%Z
  /\ (Z.of_nat (semaphoreChan s) <= Z.max 0 concurrencyLimit)%Z
  /\ length (resultsChan s) + length (results s) <= length urls.
Proof.
  intros Hs. apply bpg_reachable_inv in Hs. split_and!.
  - by apply (bpg_in_flight_bounded answers urls).
  - apply (inv_limit Hs).
  - pose proof (delivered_length _ _ _ s Hs). lia.
Qed.

Lemma BoundedParallelGet_respects_the_limit_witness :
  exists s, bpg_reachable (http_Get race_net) (queries_of fresh_modem) 2 s
    /\ sum_list (in_flight <$> goroutines s) = 2
    /\ (Z.of_nat (sum_list (in_flight <$> goroutines s)) <= Z.max 0 2)%Z
    /\ (Z.of_nat (semaphoreChan s) <= Z.max 0 2)%Z
    /\ length (resultsChan s) + length (results s) <= length (queries_of fresh_modem).
Proof.
  destruct (run_actions (http_Get race_net) (queries_of fresh_modem) 2
              [Acquire 0; Acquire 2] (bpg_init (queries_of fresh_modem)))
    as [s|] eqn:Hrun; [|discriminate].
  assert (Hreach : bpg_reachable (http_Get race_net) (queries_of fresh_modem) 2 s).
  { eapply run_actions_reachable; [apply reach_init|exact Hrun]. }
  exists s. split; [exact Hreach|].
  split; [injection Hrun as <-; reflexivity|].
  apply (BoundedParallelGet_respects_the_limit _ _ _ s Hreach).
Defined.

(** X8: with limit 0 and at least one url no goroutine ever gets past the
    semaphore: the initial state has no successor, so the call never
    returns. *)
Theorem BoundedParallelGet_limit_zero_never_returns
    (answers : nat -> string -> GetOutcome) (urls : list string) :
  urls <> [] ->
  (forall s, bpg_reachable answers urls 0 s -> s = bpg_init urls)
  /\ (forall s, ~ bpg_step answers urls 0 (bpg_init urls) s)
  /\ ~ must_return answers urls 0 (bpg_init urls)
  /\ (forall net, BoundedParallelGet net urls 0 = None).
Proof.
  intros Hne.
  assert (Hstuck : forall s, ~ bpg_step answers urls 0 (bpg_init urls) s).
  { intros s [a Ha]. destruct a as [i|i|i|i| |]; simpl in Ha.
    - destruct (replicate (length urls) GAcquire !! i) as [[]|]; try done.
    - destruct (replicate (length urls) GAcquire !! i) as [g|] eqn:Hg; [|done].
      apply lookup_replicate in Hg as [-> _]. done.
    - destruct (replicate (length urls) GAcquire !! i) as [g|] eqn:Hg; [|done].
      apply lookup_replicate in Hg as [-> _]. done.
    - destruct (replicate (length urls) GAcquire !! i) as [g|] eqn:Hg; [|done].
      apply lookup_replicate in Hg as [-> _]. done.
    - done.
    - rewrite bool_decide_eq_false_2 in Ha; [done|]. simpl.
      destruct urls; [done|]. simpl. lia. }
  split_and!.
  - induction 1 as [|s s' _ IH Hstep]; [done|]. subst s. by destruct (Hstuck s').
  - exact Hstuck.
  - inversion 1 as [s Hret|s [s' Hstep] _]; subst; [done|]. by destruct (Hstuck s').
  - intros net. unfold BoundedParallelGet. simpl.
    rewrite bool_decide_eq_false_2 by done. done.
Qed.

Lemma BoundedParallelGet_limit_zero_never_returns_witness :
  queries_of fresh_modem <> []
  /\ ~ must_return (http_Get race_net) (queries_of fresh_modem) 0
         (bpg_init (queries_of fresh_modem))
  /\ BoundedParallelGet race_net (queries_of fresh_modem) 0 = None.
Proof.
  assert (Hne : queries_of fresh_modem <> []) by discriminate.
  destruct (BoundedParallelGet_limit_zero_never_returns (http_Get race_net)
              (queries_of fresh_modem) Hne) as (_ & _ & Hnever & Hnone).
  split; [exact Hne|]. split; [exact Hnever|]. apply Hnone.
Defined.

(** X9: with a limit of at least 1 the order of the returned slice is up to
    the scheduler: for every permutation of the request indices there is a
    run that returns the results in exactly that order. *)
Theorem BoundedParallelGet_any_completion_order
    (answers : nat -> string -> GetOutcome) (urls : list string)
    (concurrencyLimit : Z) (order : list nat) :
  (1 <= concurrencyLimit)%Z ->
  order ≡ₚ seq 0 (length urls) ->
  exists s, bpg_reachable answers urls concurrencyLimit s
    /\ returned s = true
    /\ Index <$> results s = order
    /\ results s = omap (result_of answers urls) order.
Proof.
  intros HK Hperm.
  destruct (omap_result_of answers urls order) as [Hidx Hres].
  { apply Forall_forall. intros i Hi. rewrite Hperm in Hi.
    apply elem_of_seq in Hi. lia. }
  destruct (run_sequential answers urls concurrencyLimit
              (omap (result_of answers urls) order)
              (replicate (length urls) GAcquire) []) as (s & Hrun & Hret & Hs).
  - done.
  - apply length_replicate.
  - simpl. rewrite <- (length_fmap Index), Hidx, Hperm. apply length_seq.
  - rewrite Hidx, Hperm. apply NoDup_seq.
  - intros r Hr. split; [by apply Hres|].
    apply lookup_replicate_2.
    assert (Index r ∈ order) as Hin.
    { rewrite <- Hidx. by apply list_elem_of_fmap_2. }
    rewrite Hperm in Hin. apply elem_of_seq in Hin. lia.
  - exists s. split_and!; try done.
    + eapply run_actions_reachable; [apply reach_init|exact Hrun].
    + by rewrite Hs.
Qed.

Lemma BoundedParallelGet_any_completion_order_witness :
  (1 <= 1)%Z
  /\ [1; 2; 0] ≡ₚ seq 0 (length (queries_of fresh_modem))
  /\ exists s, bpg_reachable (http_Get race_net) (queries_of fresh_modem) 1 s
       /\ returned s = true
       /\ Index <$> results s = [1; 2; 0]
       /\ results s = omap (result_of (http_Get race_net) (queries_of fresh_modem)) [1; 2; 0].
Proof.
  assert (Hperm : [1; 2; 0] ≡ₚ seq 0 (length (queries_of fresh_modem))).
  { change (seq 0 (length (queries_of fresh_modem))) with [0; 1; 2].
    apply Permutation_sym. apply (Permutation_cons_append [1; 2] 0). }
  split; [lia|]. split; [exact Hperm|].
  apply (BoundedParallelGet_any_completion_order (http_Get race_net)
           (queries_of fresh_modem) 1 [1; 2; 0]); [lia|exact Hperm].
Defined.

Local Close Scope nat_scope.

Lemma accumulate_body_frame lib query sh5 :
  IPAddress (snd (accumulate_body lib query sh5)) = IPAddress sh5
  /\ FetchTime (snd (accumulate_body lib query sh5)) = FetchTime sh5.
Proof.
  unfold accumulate_body. destruct (Err query); [done|].
  destruct (Body (Res query)) as [[data|err]|]; try done.
  by destruct (MergeMergePatches lib _ data) as [merged [err|]].
Qed.

Lemma accumulate_frame lib statsData sh5 :
  IPAddress (snd (accumulate lib statsData sh5)) = IPAddress sh5
  /\ FetchTime (snd (accumulate lib statsData sh5)) = FetchTime sh5.
Proof.
  revert sh5. induction statsData as [|q rest IH]; intros sh5; simpl; [done|].
  pose proof (accumulate_body_frame lib q sh5) as [Hip Hft].
  destruct (accumulate_body lib q sh5) as [[u|e|] m]; simpl in *; try done.
  destruct (IH m) as [-> ->]. done.
Qed.

Lemma service_flows_frame results fetchTime :
  StatsFetchTime (fst (normalize results fetchTime)) = fetchTime.
Proof.
  unfold normalize.
  destruct (range_channels downstream_body 0 _ [] []) as [down out1].
  by destruct (range_channels upstream_body 0 _ [] out1) as [up out2].
Qed.

Lemma parse_block_Returns lib sh5 stats :
  fst (parse_block lib sh5) = Returns stats ->
  StatsFetchTime stats = FetchTime sh5
  /\ Forall (fun ev => match ev with EvPrintln _ => True | _ => False end)
            (snd (parse_block lib sh5)).
Proof.
  unfold parse_block.
  destruct (Unmarshal_results lib _) as [err|results]; [done|].
  pose proof (service_flows_frame results (FetchTime sh5)) as Hft.
  destruct (normalize results (FetchTime sh5)) as [stats' out]. simpl in *.
  intros [= <-]. split; [done|]. apply Forall_fmap, Forall_forall. done.
Qed.

(** X10: without a cached document [ParseStats] reads the clock, fetches
    exactly the three addresses /downstream, /upstream and /serviceflows
    under https://<host>/rest/v1/cablemodem with limit 3, reads the clock
    again and afterwards only prints; <host> is the configured address, or
    192.168.100.1 when none is configured, and it is stored in the modem.
    The stored fetch time is the difference of the two clock readings,
    whether or not the accumulation succeeds. *)
Theorem ParseStats_fetches_the_three_stats_addresses
    (lib : JsonLib) (w : World) (ip : string) (fetchTime : Z) :
  let sh5 := mkModem ip None fetchTime in
  let base := "https://" +:+ host_of sh5 +:+ "/rest/v1/cablemodem" in
  (exists out,
     snd (ParseStats lib w sh5)
     = [EvNow;
        EvGet [base +:+ "/downstream"; base +:+ "/upstream"; base +:+ "/serviceflows"] 3;
        EvNow] ++ out
     /\ Forall (fun ev => match ev with EvPrintln _ => True | _ => False end) out)
  /\ IPAddress (snd (fst (ParseStats lib w sh5))) = host_of sh5
  /\ FetchTime (snd (fst (ParseStats lib w sh5)))
     = GoInt.sub (now_UnixMilli w 1) (now_UnixMilli w 0).
Proof.
  cbv zeta. set (sh5 := mkModem ip None fetchTime).
  rewrite ParseStats_uncached by done.
  pose proof (accumulate_frame lib (fetched_results w sh5) (started w sh5)) as [Hip Hft].
  assert (Hq : fetch_trace sh5
               = [EvNow;
                  EvGet [("https://" +:+ host_of sh5 +:+ "/rest/v1/cablemodem") +:+ "/downstream";
                         ("https://" +:+ host_of sh5 +:+ "/rest/v1/cablemodem") +:+ "/upstream";
                         ("https://" +:+ host_of sh5 +:+ "/rest/v1/cablemodem") +:+ "/serviceflows"] 3;
                  EvNow]).
  { unfold fetch_trace, queries_of, apiAddress, host_of. simpl.
    by destruct (String.eqb ip ""). }
  assert (Hh : IPAddress (started w sh5) = host_of sh5).
  { unfold started, apiAddress, host_of. simpl. by destruct (String.eqb ip ""). }
  rewrite <- Hq.
  destruct (accumulate lib _ _) as [[[]|err|] sh5']; simpl in *.
  - split_and!; [|congruence|done].
    exists (snd (parse_block lib sh5')). split; [done|].
    unfold parse_block. destruct (Unmarshal_results lib _) as [e|results]; [constructor|].
    destruct (normalize results (FetchTime sh5')) as [stats' out]. simpl.
    apply Forall_fmap, Forall_forall. done.
  - split_and!; [|congruence|done]. exists []. split; [by rewrite ?app_nil_r|constructor].
  - split_and!; [|congruence|done]. exists []. split; [by rewrite ?app_nil_r|constructor].
Qed.

(** X11: a cached document that does not decode makes [ParseStats] return
    the decoder's error wrapped as "failed to parse stats JSON"; nothing is
    fetched and the modem, the document included, is left as it was. *)
Theorem ParseStats_decode_error_is_wrapped
    (lib : JsonLib) (w : World) (ip : string) (doc : list Byte.byte)
    (fetchTime : Z) (err : error) :
  Unmarshal_results lib doc = inl err ->
  ParseStats lib w (mkModem ip (Some doc) fetchTime)
  = (Fails (ErrWrap "failed to parse stats JSON" err),
     mkModem ip (Some doc) fetchTime, []).
Proof.
  intros Hdec. rewrite ParseStats_cached by (by eexists).
  unfold parse_block. simpl. by rewrite Hdec.
Qed.

Lemma ParseStats_decode_error_is_wrapped_witness :
  Unmarshal_results test_json (list_byte_of_string "invalid json")
  = inl (ErrMsg "invalid character")
  /\ ParseStats test_json race_world
       (mkModem "" (Some (list_byte_of_string "invalid json")) 0)
     = (Fails (ErrWrap "failed to parse stats JSON" (ErrMsg "invalid character")),
        mkModem "" (Some (list_byte_of_string "invalid json")) 0, []).
Proof.
  split; [reflexivity|].
  apply (ParseStats_decode_error_is_wrapped test_json race_world ""
           (list_byte_of_string "invalid json") 0 (ErrMsg "invalid character")).
  reflexivity.
Defined.

(** X12: when [ParseStats] fetches and succeeds, the merged document is
    cached: the snapshot carries the measured fetch time, and a further call,
    in whatever world, returns the same snapshot and modem while only
    printing.  (The merge library is taken to hand back a document whenever
    it reports no error.) *)
Theorem ParseStats_success_is_cached
    (lib : JsonLib) (w w' : World) (sh5 sh5' : Modem) (stats : ModemStats)
    (tr : list Event) :
  merge_returns_document lib ->
  Stats sh5 = None ->
  ParseStats lib w sh5 = (Returns stats, sh5', tr) ->
  is_Some (Stats sh5')
  /\ StatsFetchTime stats = GoInt.sub (now_UnixMilli w 1) (now_UnixMilli w 0)
  /\ FetchTime sh5' = StatsFetchTime stats
  /\ exists out,
       ParseStats lib w' sh5' = (Returns stats, sh5', out)
       /\ Forall (fun ev => match ev with EvPrintln _ => True | _ => False end) out.
Proof.
  intros Hlib Hnil. rewrite ParseStats_uncached by done.
  pose proof (accumulate_frame lib (fetched_results w sh5) (started w sh5)) as [_ Hft].
  destruct (accumulate lib (fetched_results w sh5) (started w sh5))
    as [[[]|e|] m] eqn:Hacc; try done.
  intros [= Hstats <- _]. simpl in Hft.
  assert (is_Some (Stats m)) as Hdoc.
  { eapply accumulate_keeps_document; [done| |exact Hacc]. by eexists. }
  destruct (parse_block_Returns lib m stats Hstats) as [Hfetch Hout].
  split_and!; try done.
  - by rewrite Hfetch, Hft.
  - exists (snd (parse_block lib m)). split; [|done].
    rewrite ParseStats_cached by done. by rewrite Hstats.
Qed.

Lemma ParseStats_success_is_cached_witness :
  merge_returns_document test_json
  /\ Stats fresh_modem = None
  /\ ParseStats test_json unavailable_world fresh_modem
     = (Returns (mkModemStats [] [] [] 40 ""),
        mkModem "192.168.100.1" (Some empty_object) 40,
        fetch_trace fresh_modem)
  /\ exists out,
       ParseStats test_json race_world (mkModem "192.168.100.1" (Some empty_object) 40)
       = (Returns (mkModemStats [] [] [] 40 ""),
          mkModem "192.168.100.1" (Some empty_object) 40, out)
       /\ Forall (fun ev => match ev with EvPrintln _ => True | _ => False end) out.
Proof.
  assert (Hlib : merge_returns_document test_json).
  { intros doc patch merged. unfold test_json. simpl.
    destruct (is_empty_object doc && is_empty_object patch); [|done].
    intros [= <-]. by eexists. }
  assert (Hrun : ParseStats test_json unavailable_world fresh_modem
                 = (Returns (mkModemStats [] [] [] 40 ""),
                    mkModem "192.168.100.1" (Some empty_object) 40,
                    fetch_trace fresh_modem)) by (vm_compute; reflexivity).
  split; [exact Hlib|]. split; [reflexivity|]. split; [exact Hrun|].
  destruct (ParseStats_success_is_cached test_json unavailable_world race_world
              fresh_modem _ _ _ Hlib eq_refl Hrun) as (_ & _ & _ & Hagain).
  exact Hagain.
Defined.

(* ===================================================================== *)
(** * More of the log shipper                                             *)
(* ===================================================================== *)


Section MoreShipperFacts.
Context (time_Parse_UnixNano : string -> option Z).

Local Notation "'Push'" := (PushLogs time_Parse_UnixNano).
Local Notation "'Poll'" := (StartPolling time_Parse_UnixNano).

Lemma PushLogs_exporter l w :
  snd (fst (Push l w)) = l
  \/ exists entries, fetched w = inr entries
       /\ filter_new l entries <> []
       /\ push_confirmed w
       /\ snd (fst (Push l w)) = mark_seen l (filter_new l entries).
Proof.
  unfold PushLogs, push_confirmed.
  destruct (fetched w) as [err|entries] eqn:Hf; [by left|].
  destruct (filter_new l entries) as [|e rest] eqn:Hnew; [by left|].
  cbn [length Nat.eqb].
  destruct (posted w) as [status|err]; [|by left].
  destruct ((status <? 200) || (300 <=? status)) eqn:Hs; [by left|].
  apply orb_false_iff in Hs as [?%Z.ltb_ge ?%Z.leb_gt].
  right. exists entries. rewrite Hnew. split_and!; try done.
  exists status. split; [done|lia].
Qed.

Lemma PushLogs_seen_mono l w key :
  seen l key = true -> seen (snd (fst (Push l w))) key = true.
Proof.
  intros Hs. destruct (PushLogs_exporter l w) as [->|(entries & _ & _ & _ & ->)]; [done|].
  rewrite seen_mark_seen, Hs. apply orb_true_r.
Qed.

Lemma PushLogs_seen_origin l w key :
  seen (snd (fst (Push l w))) key = true ->
  seen l key = true
  \/ exists entries entry, fetched w = inr entries /\ entry ∈ entries
                           /\ key = logKey entry /\ push_confirmed w.
Proof.
  destruct (PushLogs_exporter l w) as [->|(entries & Hf & _ & Hc & ->)]; [by left|].
  rewrite seen_mark_seen. intros [Hk%bool_decide_eq_true|Hk]%orb_true_iff; [|by left].
  right. apply list_elem_of_fmap in Hk as (entry & -> & Hin).
  apply filter_new_spec in Hin as [Hin _]. by exists entries, entry.
Qed.

Lemma StartPolling_app l pre post :
  fst (Poll l (pre ++ post)) = fst (Poll (fst (Poll l pre)) post).
Proof.
  revert l. induction pre as [|w pre IH]; intros l; [done|].
  cbn [app StartPolling].
  destruct (Push l w) as [[err l1] tr].
  specialize (IH l1).
  destruct (Poll l1 (pre ++ post)) as [l2 tr2].
  destruct (Poll l1 pre) as [l3 tr3]. simpl in *. done.
Qed.

Lemma StartPolling_seen_mono l cycles key :
  seen l key = true -> seen (fst (Poll l cycles)) key = true.
Proof.
  revert l. induction cycles as [|w rest IH]; intros l Hs; [done|].
  cbn [StartPolling].
  pose proof (PushLogs_seen_mono l w key Hs) as H1.
  destruct (Push l w) as [[err l1] tr]. simpl in H1.
  specialize (IH l1 H1). by destruct (Poll l1 rest).
Qed.

(** X13: over any number of polling cycles, with pushes failing or not, an
    entry whose key is in the seen set is never selected as new again, and
    no key ever leaves the set. *)
Theorem StartPolling_never_selects_a_seen_entry_again
    (l : LokiExporter) (pre post : list ShipWorld) (w : ShipWorld)
    (entries : list EventLogEntry) (entry : EventLogEntry) :
  seen l (logKey entry) = true ->
  fetched w = inr entries ->
  let before := fst (Poll l pre) in
  (entry ∉ filter_new before entries)
  /\ seen (fst (Poll l (pre ++ w :: post))) (logKey entry) = true
  /\ (forall key, seen l key = true ->
        seen (fst (Poll l (pre ++ w :: post))) key = true).
Proof.
  intros Hs Hf. cbv zeta. split_and!.
  - intros Hin%filter_new_spec. destruct Hin as [_ Hnot].
    by rewrite (StartPolling_seen_mono l pre _ Hs) in Hnot.
  - by apply StartPolling_seen_mono.
  - intros key Hk. by apply StartPolling_seen_mono.
Qed.

(** X14: a key is in the seen set after polling only if it was there before
    or it is the key of an entry fetched in a cycle whose push the sink
    confirmed with a 2xx status. *)
Theorem StartPolling_adds_only_fetched_keys
    (l : LokiExporter) (cycles : list ShipWorld) (key : string) :
  seen (fst (Poll l cycles)) key = true ->
  seen l key = true
  \/ exists w entries entry,
       w ∈ cycles /\ fetched w = inr entries /\ entry ∈ entries
       /\ key = logKey entry /\ push_confirmed w.
Proof.
  revert l. induction cycles as [|w rest IH]; intros l; [by left|].
  cbn [StartPolling].
  pose proof (PushLogs_seen_origin l w key) as Horigin.
  destruct (Push l w) as [[err l1] tr]. simpl in Horigin.
  specialize (IH l1). destruct (Poll l1 rest) as [l2 tr2]. simpl in *.
  intros Hk. destruct (IH Hk) as [H1|(w' & entries & entry & Hw' & Hrest)].
  - destruct (Horigin H1) as [?|(entries & entry & ? & ? & ? & ?)]; [by left|].
    right. exists w, entries, entry. split; [by left|done].
  - right. exists w', entries, entry. split; [by right|done].
Qed.

Local Notation "'Stamped'" := (stamped time_Parse_UnixNano).

Lemma values_of_cons p x pairs :
  values_of p (x :: pairs)
  = if String.eqb (fst x) p then snd x :: values_of p pairs else values_of p pairs.
Proof. unfold values_of. simpl. by destruct (String.eqb (fst x) p). Qed.

Lemma group_fold w entries : forall (m : gmap string (list (list string))) k p,
  fst (fold_left (group_body time_Parse_UnixNano w) entries (m, k)) !! p
  = match values_of p (Stamped w k entries) with
    | [] => m !! p
    | vs => Some (default [] (m !! p) ++ vs)
    end.
Proof.
  induction entries as [|e rest IH]; intros m k p; [done|].
  cbn [fold_left stamped]. unfold group_body at 2.
  destruct (time_Parse_UnixNano (Timestamp e)) as [ts|];
    rewrite IH, values_of_cons; cbn [fst snd];
    (destruct (String.eqb_spec (Priority e) p) as [->|Hne];
     [ rewrite lookup_insert_eq; simpl;
       destruct (values_of p _); [done|by rewrite <- app_assoc]
     | by rewrite lookup_insert_ne ]).
Qed.

Lemma group_entries_lookup w newEntries p :
  group_entries time_Parse_UnixNano w newEntries !! p
  = match values_of p (Stamped w 0%nat newEntries) with
    | [] => None
    | vs => Some vs
    end.
Proof.
  unfold group_entries. rewrite group_fold, lookup_empty. done.
Qed.

Lemma stamped_priorities w k entries :
  fst <$> Stamped w k entries = Priority <$> entries.
Proof.
  revert k. induction entries as [|e rest IH]; intros k; [done|].
  cbn [stamped]. destruct (time_Parse_UnixNano (Timestamp e));
    rewrite !fmap_cons, IH; done.
Qed.

Lemma values_of_nil p pairs :
  values_of p pairs = [] <-> p ∉ fst <$> pairs.
Proof.
  induction pairs as [|x pairs IH]; [by split; [intros _ ?%elem_of_nil|]|].
  rewrite values_of_cons, fmap_cons, not_elem_of_cons.
  destruct (String.eqb_spec (fst x) p) as [->|Hne].
  - split; [done|]. by intros [? _].
  - rewrite IH. split; [by split|by intros [_ ?]].
Qed.

Lemma elem_of_build_request l w newEntries st :
  st ∈ Streams (build_request time_Parse_UnixNano l w newEntries) <->
  exists p, p ∈ Priority <$> newEntries
    /\ st = {| Stream := <["level" := p]> (labels l);
               Values := sort_Slice (values_of p (Stamped w 0%nat newEntries)) |}.
Proof.
  unfold build_request, build_streams. cbn [Streams].
  change (map ?f ?x) with (fmap (M:=list) f x).
  rewrite list_elem_of_fmap. split.
  - intros ([p vs] & -> & Hin). apply elem_of_map_to_list in Hin.
    rewrite group_entries_lookup in Hin.
    destruct (values_of p _) as [|v vs'] eqn:Hvs; [done|]. injection Hin as <-.
    exists p. split; [|by rewrite Hvs].
    rewrite <- (stamped_priorities w 0).
    destruct (decide (p ∈ fst <$> Stamped w 0%nat newEntries)) as [|Hn]; [done|].
    apply values_of_nil in Hn. congruence.
  - intros (p & Hp & ->).
    exists (p, values_of p (Stamped w 0%nat newEntries)). split; [done|].
    apply elem_of_map_to_list. rewrite group_entries_lookup.
    destruct (values_of p _) as [|v vs'] eqn:Hvs; [|done].
    apply values_of_nil in Hvs. by rewrite stamped_priorities in Hvs.
Qed.

(** X15: a request has one stream per priority occurring among the new
    entries, with pairwise different "level" labels.  The stream of a
    priority carries the exporter's labels with "level" set to that priority
    (overriding a configured "level"), and its values are the pairs
    [decimal nanoseconds, message] of exactly the new entries of that
    priority, none dropped or doubled, ordered by the byte order of the
    decimal strings; an entry whose timestamp does not parse takes the next
    reading of the clock. *)
Theorem build_request_groups_by_priority
    (l : LokiExporter) (w : ShipWorld) (newEntries : list EventLogEntry) :
  let pairs := Stamped w 0%nat newEntries in
  let req := build_request time_Parse_UnixNano l w newEntries in
  fst <$> pairs = Priority <$> newEntries
  /\ (forall st, st ∈ Streams req <->
        exists p, p ∈ Priority <$> newEntries
          /\ st = {| Stream := <["level" := p]> (labels l);
                     Values := sort_Slice (values_of p pairs) |})
  /\ NoDup ((fun st => Stream st !! "level") <$> Streams req)
  /\ (forall st, st ∈ Streams req ->
        exists p, Stream st !! "level" = Some p
          /\ (forall key, key <> "level" -> Stream st !! key = labels l !! key)
          /\ Values st ≡ₚ values_of p pairs
          /\ Sorted values_le (Values st)
          /\ Values st <> []).
Proof.
  cbv zeta.
  pose proof (elem_of_build_request l w newEntries) as Hmem.
  split_and!.
  - apply stamped_priorities.
  - exact Hmem.
  - unfold build_request, build_streams. cbn [Streams].
    change (map ?f ?x) with (fmap (M:=list) f x).
    rewrite <- list_fmap_compose.
    rewrite (list_fmap_ext _ (Some ∘ fst) (map_to_list _) );
      [|intros i [p vs] _; simpl; by rewrite lookup_insert_eq].
    rewrite list_fmap_compose. apply (NoDup_fmap_2 _), NoDup_fst_map_to_list.
  - intros st (p & Hp & ->)%Hmem. exists p. cbn [Stream Values].
    split_and!.
    + by rewrite lookup_insert_eq.
    + intros key Hne. by rewrite lookup_insert_ne.
    + apply sort_Slice_Permutation.
    + apply sort_Slice_Sorted.
    + intros Hnil.
      assert (values_of p (Stamped w 0%nat newEntries) = []) as Hvs.
      { apply Permutation_nil_r. rewrite <- Hnil. symmetry. apply sort_Slice_Permutation. }
      apply values_of_nil in Hvs. by rewrite stamped_priorities in Hvs.
Qed.

End MoreShipperFacts.

Lemma append_nil_l (s : string) : "" +:+ s = s.
Proof. reflexivity. Qed.

Lemma append_cons_l (c : ascii) (a s : string) : String c a +:+ s = String c (a +:+ s).
Proof. reflexivity. Qed.

Lemma append_assoc_l (a b c : string) : (a +:+ b) +:+ c = a +:+ (b +:+ c).
Proof.
  induction a as [|x a IH]; [done|].
  by rewrite !append_cons_l, IH.
Qed.

Lemma append_bar_injective a a' x x' :
  no_bar a = true -> no_bar a' = true ->
  a +:+ "|" +:+ x = a' +:+ "|" +:+ x' -> a = a' /\ x = x'.
Proof.
  revert a'. induction a as [|c a IH]; intros [|c' a'];
    repeat (rewrite append_nil_l || rewrite append_cons_l); cbn [no_bar].
  - intros _ _ [= ->]. done.
  - intros _ [Hc _]%andb_true_iff [= <- _].
    by rewrite Ascii.eqb_refl in Hc.
  - intros [Hc _]%andb_true_iff _ [= -> _].
    by rewrite Ascii.eqb_refl in Hc.
  - intros [_ Ha]%andb_true_iff [_ Ha']%andb_true_iff [= -> Heq].
    destruct (IH a' Ha Ha' Heq) as [-> ->]. done.
Qed.

(** X17: an exporter made by [NewLokiExporter] starts with an empty seen set,
    so whatever is fetched first is new; it keeps a configured "job" label
    and adds job = "modem-stats" when none is configured (also for a nil
    label map), so every stream it pushes has a "job" and a "level"
    label. *)
Theorem NewLokiExporter_always_has_a_job_label
    (time_Parse_UnixNano : string -> option Z)
    (endpoint : string) (given : option (gmap string string)) :
  let l := NewLokiExporter endpoint given in
  seenLogs l = ∅
  /\ (forall job, default ∅ given !! "job" = Some job -> labels l = default ∅ given)
  /\ (default ∅ given !! "job" = None ->
      labels l = <["job" := "modem-stats"]> (default ∅ given))
  /\ (forall entries, filter_new l entries = entries)
  /\ (forall w newEntries st,
        st ∈ Streams (build_request time_Parse_UnixNano l w newEntries) ->
        is_Some (Stream st !! "job") /\ is_Some (Stream st !! "level")).
Proof.
  cbv zeta. set (l := NewLokiExporter endpoint given).
  set (base := default ∅ given).
  assert (Hlabels : labels l = match base !! "job" with
                               | Some _ => base
                               | None => <["job" := "modem-stats"]> base
                               end) by (by destruct given).
  split_and!.
  - done.
  - intros job Hjob. by rewrite Hlabels, Hjob.
  - intros Hjob. by rewrite Hlabels, Hjob.
  - assert (Hs : forall key, seen l key = false).
    { intros key. unfold seen, l, NewLokiExporter. cbn [seenLogs].
      by rewrite lookup_empty. }
    intros entries. induction entries as [|e rest IH]; [done|].
    unfold filter_new in *. cbn [List.filter]. rewrite Hs. cbn [negb].
    by rewrite IH.
  - intros w newEntries st (p & _ & ->)%elem_of_build_request. cbn [Stream].
    split; [|by rewrite lookup_insert_eq].
    rewrite lookup_insert_ne by done. rewrite Hlabels.
    destruct (base !! "job") as [job|] eqn:Hjob; [by rewrite Hjob|].
    by rewrite lookup_insert_eq.
Qed.

Lemma FetchEventLog_result lib get sh5 :
  fst (FetchEventLog lib get sh5)
  = match get ("https://" +:+ host_of sh5 +:+ "/rest/v1/cablemodem/eventlog") with
    | GetFail err | GetRespFail _ err => inl (ErrWrap "failed to fetch eventlog" err)
    | GetResp res =>
        match wire_Body res with
        | ReadFail err => inl (ErrWrap "failed to read eventlog response" err)
        | ReadOk body =>
            match Unmarshal_eventlog lib body with
            | inl err => inl (ErrWrap "failed to parse eventlog JSON" err)
            | inr eventLog =>
                inr (map (fun e => {| Priority := ev_Priority e;
                                      Timestamp := ev_Time e;
                                      Message := ev_Message e |}) eventLog)
            end
        end
    end.
Proof.
  assert (Hurl : fst (apiAddress sh5) +:+ "/eventlog"
                 = "https://" +:+ host_of sh5 +:+ "/rest/v1/cablemodem/eventlog").
  { unfold apiAddress, host_of. destruct (String.eqb (IPAddress sh5) ""); simpl.
    - done.
    - by rewrite !append_assoc_l. }
  unfold FetchEventLog. destruct (apiAddress sh5) as [base m].
  simpl in Hurl. rewrite Hurl.
  destruct (get _) as [res|err|res err]; [|done|done].
  destruct (wire_Body res) as [body|err]; [|done].
  by destruct (Unmarshal_eventlog lib body).
Qed.

(** X18: with the Superhub 5 as log provider, a cycle whose event-log fetch
    fails returns "failed to fetch event log" wrapping the stage that failed
    (the GET, reading the body, or decoding it), pushes nothing and leaves
    the exporter unchanged; a fetch that succeeds hands [PushLogs] one entry
    per decoded log entry, in order, with [time] as the timestamp. *)
Theorem PushLogs_reports_a_failed_event_log_fetch
    (time_Parse_UnixNano : string -> option Z)
    (lib : JsonLib) (get : string -> GetOutcome) (sh5 : Modem)
    (now : nat -> Z) (sink : PostOutcome) (l : LokiExporter) :
  let w := modem_world lib get sh5 now sink in
  let url := "https://" +:+ host_of sh5 +:+ "/rest/v1/cablemodem/eventlog" in
  (forall cause,
     fetched w = inl cause ->
     PushLogs time_Parse_UnixNano l w
     = (Some (ErrWrap "failed to fetch event log" cause), l, [EvFetchEventLog])
     /\ ((exists err, (get url = GetFail err \/ exists res, get url = GetRespFail res err)
                      /\ cause = ErrWrap "failed to fetch eventlog" err)
         \/ (exists res err, get url = GetResp res /\ wire_Body res = ReadFail err
                             /\ cause = ErrWrap "failed to read eventlog response" err)
         \/ (exists res body err, get url = GetResp res /\ wire_Body res = ReadOk body
                                  /\ Unmarshal_eventlog lib body = inl err
                                  /\ cause = ErrWrap "failed to parse eventlog JSON" err)))
  /\ (forall entries,
        fetched w = inr entries ->
        exists res body eventLog,
          get url = GetResp res /\ wire_Body res = ReadOk body
          /\ Unmarshal_eventlog lib body = inr eventLog
          /\ length entries = length eventLog
          /\ forall i e, eventLog !! i = Some e ->
               entries !! i = Some {| Priority := ev_Priority e;
                                      Timestamp := ev_Time e;
                                      Message := ev_Message e |}).
Proof.
  cbv zeta. unfold modem_world at 1 3. cbn [fetched].
  rewrite FetchEventLog_result.
  set (url := "https://" +:+ host_of sh5 +:+ "/rest/v1/cablemodem/eventlog").
  split.
  - intros cause Hf. split.
    { apply PushLogs_fetch_failure. unfold modem_world. cbn [fetched].
      by rewrite FetchEventLog_result. }
    destruct (get url) as [res|err|res err] eqn:Hget.
    + destruct (wire_Body res) as [body|err] eqn:Hbody.
      * destruct (Unmarshal_eventlog lib body) as [err|eventLog] eqn:Hdec; [|done].
        injection Hf as <-. right. right. by exists res, body, err.
      * injection Hf as <-. right. left. by exists res, err.
    + injection Hf as <-. left. exists err. split; [by left|done].
    + injection Hf as <-. left. exists err. split; [right; by exists res|done].
  - intros entries Hf.
    destruct (get url) as [res|err|res err] eqn:Hget; [|done|done].
    destruct (wire_Body res) as [body|err] eqn:Hbody; [|done].
    destruct (Unmarshal_eventlog lib body) as [err|eventLog] eqn:Hdec; [done|].
    injection Hf as <-. exists res, body, eventLog. split_and!; try done.
    + by rewrite length_map.
    + intros i e Hi. change (map ?f ?x) with (fmap (M:=list) f x).
      by rewrite list_lookup_fmap, Hi.
Qed.

Lemma StartPolling_never_selects_a_seen_entry_again_witness :
  seen shipped_boot_log (logKey (mkEventLogEntry "notice" "1970-01-01T00:00:30Z" "earlier"))
  = true
  /\ fetched accepting_sink = inr boot_log
  /\ (mkEventLogEntry "notice" "1970-01-01T00:00:30Z" "earlier"
      ∉ filter_new (fst (StartPolling rfc3339_utc_UnixNano shipped_boot_log [failing_sink]))
                   boot_log).
Proof.
  assert (H1 : seen shipped_boot_log
                 (logKey (mkEventLogEntry "notice" "1970-01-01T00:00:30Z" "earlier"))
               = true) by (vm_compute; reflexivity).
  assert (H2 : fetched accepting_sink = inr boot_log) by reflexivity.
  pose proof (StartPolling_never_selects_a_seen_entry_again rfc3339_utc_UnixNano
                shipped_boot_log [failing_sink] [] accepting_sink boot_log _ H1 H2) as H.
  cbv zeta in H. destruct H as [Hnot _].
  split; [exact H1|]. split; [exact H2|exact Hnot].
Defined.

Lemma StartPolling_adds_only_fetched_keys_witness :
  seen (fst (StartPolling rfc3339_utc_UnixNano shipper [failing_sink; accepting_sink]))
       "1970-01-01T00:01:45Z|notice|later" = true
  /\ (seen shipper "1970-01-01T00:01:45Z|notice|later" = true
      \/ exists w entries entry,
           w ∈ [failing_sink; accepting_sink] /\ fetched w = inr entries
           /\ entry ∈ entries
           /\ "1970-01-01T00:01:45Z|notice|later" = logKey entry
           /\ push_confirmed w).
Proof.
  assert (H1 : seen (fst (StartPolling rfc3339_utc_UnixNano shipper
                            [failing_sink; accepting_sink]))
                    "1970-01-01T00:01:45Z|notice|later" = true)
    by (vm_compute; reflexivity).
  split; [exact H1|].
  exact (StartPolling_adds_only_fetched_keys rfc3339_utc_UnixNano shipper
           [failing_sink; accepting_sink] _ H1).
Defined.

(* ===================================================================== *)
(** * Decimal timestamps and the order of a stream                        *)
(* ===================================================================== *)

Lemma uint_acc_of_uint_acc d acc :
  Z.pos (Pos.of_uint_acc d acc) = uint_acc d (Z.pos acc).
Proof.
  revert acc. induction d; intros acc; simpl; rewrite ?IHd; try done; f_equal; lia.
Qed.

Lemma uint_acc_of_uint d : Z.of_N (Pos.of_uint d) = uint_acc d 0.
Proof.
  induction d; simpl; rewrite ?uint_acc_of_uint_acc; try done.
Qed.

Lemma digits_val_string_of_uint d acc :
  digits_val acc (list_ascii_of_string (NilEmpty.string_of_uint d))
  = Some (uint_acc d acc).
Proof.
  revert acc. induction d; intros acc; simpl; rewrite ?IHd; try done.
  change (Z.of_nat (nat_of_ascii "0") - 48) with 0. by rewrite Z.add_0_r.
Qed.

Lemma uint_acc_split d acc :
  uint_acc d acc = acc * 10 ^ Z.of_nat (Decimal.nb_digits d) + uint_acc d 0
  /\ 0 <= uint_acc d 0 < 10 ^ Z.of_nat (Decimal.nb_digits d).
Proof.
  revert acc. induction d; intros acc;
    cbn [uint_acc Decimal.nb_digits]; rewrite ?Nat2Z.inj_succ, ?Z.pow_succ_r by lia;
    [simpl; lia|..];
    match goal with
    | |- context [uint_acc d (10 * acc + ?k)] =>
        destruct (IHd (10 * acc + k)) as [-> _];
        destruct (IHd (10 * 0 + k)) as [-> Hb]; lia
    | |- context [uint_acc d (10 * acc)] =>
        destruct (IHd (10 * acc)) as [-> _];
        destruct (IHd (10 * 0)) as [-> Hb]; lia
    end.
Qed.

Lemma uint_acc_lt_head d1 d2 h1 h2 :
  Decimal.nb_digits d1 = Decimal.nb_digits d2 -> h1 < h2 ->
  uint_acc d1 h1 < uint_acc d2 h2.
Proof.
  intros Hn Hh.
  destruct (uint_acc_split d1 h1) as [-> Hb1].
  destruct (uint_acc_split d2 h2) as [-> Hb2].
  rewrite Hn in *. nia.
Qed.

Lemma uint_acc_compare_tail d1 d2 h :
  Decimal.nb_digits d1 = Decimal.nb_digits d2 ->
  (uint_acc d1 h ?= uint_acc d2 h) = (uint_acc d1 0 ?= uint_acc d2 0).
Proof.
  intros Hn.
  destruct (uint_acc_split d1 h) as [-> _].
  destruct (uint_acc_split d2 h) as [-> _].
  rewrite Hn. apply Z.add_compare_mono_l.
Qed.

(** Decimal strings of one length compare byte by byte as their numbers do. *)
Lemma string_of_uint_compare d1 d2 :
  Decimal.nb_digits d1 = Decimal.nb_digits d2 ->
  String.compare (NilEmpty.string_of_uint d1) (NilEmpty.string_of_uint d2)
  = (uint_acc d1 0 ?= uint_acc d2 0).
Proof.
  revert d2. induction d1; intros [] Hn; try discriminate Hn;
    [reflexivity|..]; injection Hn as Hn;
    cbn [NilEmpty.string_of_uint uint_acc String.compare];
    match goal with
    | |- context [Ascii.compare ?a ?b] =>
        let r := eval vm_compute in (Ascii.compare a b) in
        change (Ascii.compare a b) with r
    end; cbv iota;
    first
      [ rewrite IHd1 by done; symmetry; by apply uint_acc_compare_tail
      | symmetry; apply Z.compare_lt_iff; apply uint_acc_lt_head; [done|lia]
      | symmetry; apply Z.compare_gt_iff; apply uint_acc_lt_head; [done|lia] ].
Qed.

Lemma to_uint_value p : uint_acc (Pos.to_uint p) 0 = Z.pos p.
Proof. by rewrite <- uint_acc_of_uint, Unsigned.of_to. Qed.

(** [Pos.to_uint] writes neither the empty numeral nor a leading zero. *)
Lemma to_uint_head p :
  match Pos.to_uint p with
  | Decimal.Nil | Decimal.D0 _ => False
  | _ => True
  end.
Proof.
  pose proof (Unsigned.to_of (Pos.to_uint p)) as H.
  rewrite Unsigned.of_to in H. cbn [N.to_uint] in H.
  pose proof (Unsigned.to_uint_nonzero p) as Hz.
  pose proof (Unsigned.to_uint_nonnil p) as Hn.
  destruct (Pos.to_uint p) as [|d| | | | | | | | |] eqn:E; try done.
  rewrite unorm_D0 in H.
  unfold Decimal.unorm in H.
  destruct (Decimal.nzhead d) eqn:Ed; try discriminate H.
  - injection H as Hd. subst d. by destruct Hz.
  - by destruct (nzhead_nonzero _ _ Ed).
Qed.

Lemma Sprintf_d_pos p :
  Sprintf_d (Z.pos p) = NilEmpty.string_of_uint (Pos.to_uint p).
Proof.
  unfold Sprintf_d. cbn [Z.to_int NilZero.string_of_int NilZero.string_of_uint].
  pose proof (Unsigned.to_uint_nonnil p). by destruct (Pos.to_uint p).
Qed.

(** Reading back what [Sprintf_d] printed. *)
Lemma decimal_value_Sprintf_d n : 0 <= n -> decimal_value (Sprintf_d n) = n.
Proof.
  intros Hn. destruct n as [|p|p]; [done| |lia].
  unfold decimal_value.
  by rewrite Sprintf_d_pos, digits_val_string_of_uint, to_uint_value.
Qed.

Lemma to_uint_width p digits :
  has_digits digits (Z.pos p) ->
  Z.of_nat (Decimal.nb_digits (Pos.to_uint p)) = digits.
Proof.
  intros [Hk [Hlo Hhi]].
  pose proof (to_uint_value p) as Hv. pose proof (to_uint_head p) as Hh.
  destruct (uint_acc_split (Pos.to_uint p) 0) as [_ Hb]. rewrite Hv in Hb.
  assert (10 ^ (Z.of_nat (Decimal.nb_digits (Pos.to_uint p)) - 1) <= Z.pos p) as Hlow.
  { destruct (Pos.to_uint p) as [|d|d|d|d|d|d|d|d|d|d]; try done;
      cbn [uint_acc Decimal.nb_digits] in *;
      rewrite Nat2Z.inj_succ;
      replace (Z.succ (Z.of_nat (Decimal.nb_digits d)) - 1)
        with (Z.of_nat (Decimal.nb_digits d)) by lia;
      match type of Hv with
      | uint_acc d ?h = _ => destruct (uint_acc_split d h) as [E Hbd]
      end; nia. }
  destruct (Z.lt_trichotomy (Z.of_nat (Decimal.nb_digits (Pos.to_uint p))) digits)
    as [Hlt|[Heq|Hgt]]; [|done|].
  - assert (10 ^ Z.of_nat (Decimal.nb_digits (Pos.to_uint p)) <= 10 ^ (digits - 1))
      by (apply Z.pow_le_mono_r; lia). lia.
  - assert (10 ^ digits <= 10 ^ (Z.of_nat (Decimal.nb_digits (Pos.to_uint p)) - 1))
      by (apply Z.pow_le_mono_r; lia). lia.
Qed.

(** Among timestamps of one digit count the byte order of the decimal
    strings is the order of the numbers. *)
Lemma Sprintf_d_ltb digits a b :
  has_digits digits a -> has_digits digits b ->
  String.ltb (Sprintf_d a) (Sprintf_d b) = (a <? b).
Proof.
  intros Ha Hb.
  assert (0 < 10 ^ (digits - 1)) by (apply Z.pow_pos_nonneg; destruct Ha; lia).
  destruct a as [|p|p]; [destruct Ha as [_ [? _]]; lia| |destruct Ha as [_ [? _]]; lia].
  destruct b as [|q|q]; [destruct Hb as [_ [? _]]; lia| |destruct Hb as [_ [? _]]; lia].
  rewrite !Sprintf_d_pos. unfold String.ltb.
  rewrite string_of_uint_compare, !to_uint_value.
  - unfold Z.ltb. done.
  - apply Nat2Z.inj. by rewrite (to_uint_width p digits), (to_uint_width q digits).
Qed.

Section ChronologicalStreams.
Context (time_Parse_UnixNano : string -> option Z).

Lemma stamped_width w digits entries k :
  (forall e ts, e ∈ entries ->
     time_Parse_UnixNano (Timestamp e) = Some ts -> has_digits digits ts) ->
  (forall i, (k <= i < k + length entries)%nat -> has_digits digits (now_UnixNano w i)) ->
  Forall (fun x => stamped_with digits (snd x))
         (stamped time_Parse_UnixNano w k entries).
Proof.
  revert k. induction entries as [|e rest IH]; intros k Hparse Hnow; [constructor|].
  cbn [stamped length] in *.
  destruct (time_Parse_UnixNano (Timestamp e)) as [ts|] eqn:E; constructor.
  - exists ts, (Message e). split; [done|]. apply (Hparse e); [left|done].
  - apply IH; [intros e' ts' ?; apply Hparse; by right|intros i ?; apply Hnow; lia].
  - exists (now_UnixNano w k), (Message e). split; [done|]. apply Hnow. lia.
  - apply IH; [intros e' ts' ?; apply Hparse; by right|intros i ?; apply Hnow; lia].
Qed.

Lemma has_digits_nonneg digits ts : has_digits digits ts -> 0 <= ts.
Proof.
  intros [Hk [Hlo _]].
  assert (0 < 10 ^ (digits - 1)) by (apply Z.pow_pos_nonneg; lia). lia.
Qed.

Lemma values_le_chronological digits a b :
  stamped_with digits a -> stamped_with digits b -> values_le a b ->
  decimal_value (hd "" a) <= decimal_value (hd "" b).
Proof.
  intros (ta & ma & -> & Ha) (tb & mb & -> & Hb) Hle.
  unfold values_le, values_less in Hle. cbn [hd] in *.
  rewrite (Sprintf_d_ltb digits) in Hle by done.
  rewrite !decimal_value_Sprintf_d by eauto using has_digits_nonneg.
  by apply Z.ltb_ge.
Qed.

Lemma Sorted_chronological digits values :
  Forall (stamped_with digits) values -> Sorted values_le values ->
  Sorted Z.le ((fun v => decimal_value (hd "" v)) <$> values).
Proof.
  intros Hall Hsorted. induction Hsorted as [|v values Hs IH Hhd]; [constructor|].
  apply Forall_cons in Hall as [Hv Hall]. csimpl. constructor; [by apply IH|].
  destruct Hhd as [|v' values' Hle]; csimpl; constructor.
  apply Forall_cons in Hall as [Hv' _].
  by apply (values_le_chronological digits).
Qed.

(** X19: when the nanosecond timestamps of the new entries, parsed or read
    from the clock, are all written with one number of decimal digits,
    every stream of the request lists its values in nondecreasing time: the
    first components are the decimal forms of a nondecreasing sequence of
    timestamps of that digit count.  Among such timestamps the byte order
    [sort.Slice] uses is the order of the numbers. *)
Theorem streams_are_chronological_within_one_digit_count
    (l : LokiExporter) (w : ShipWorld) (newEntries : list EventLogEntry) (digits : Z) :
  (forall e ts, e ∈ newEntries ->
     time_Parse_UnixNano (Timestamp e) = Some ts -> has_digits digits ts) ->
  (forall i, (i < length newEntries)%nat -> has_digits digits (now_UnixNano w i)) ->
  Forall (fun st =>
            exists tss,
              hd "" <$> Values st = Sprintf_d <$> tss
              /\ Forall (has_digits digits) tss
              /\ Sorted Z.le tss)
         (Streams (build_request time_Parse_UnixNano l w newEntries)).
Proof.
  intros Hparse Hnow. apply Forall_forall. intros st Hst.
  apply elem_of_build_request in Hst as (p & _ & ->). cbn [Values].
  set (pairs := stamped time_Parse_UnixNano w 0 newEntries).
  assert (Forall (stamped_with digits) (sort_Slice (values_of p pairs))) as Hall.
  { rewrite sort_Slice_Permutation. unfold values_of.
    change (map ?f ?x) with (fmap (M:=list) f x).
    apply Forall_forall. intros v (x & -> & Hx)%list_elem_of_fmap.
    apply list_elem_of_In, filter_In in Hx as [Hx _]. apply list_elem_of_In in Hx.
    revert x Hx. apply Forall_forall.
    apply (stamped_width w digits newEntries 0); [done|].
    intros i ?. apply Hnow. lia. }
  exists ((fun v => decimal_value (hd "" v)) <$> sort_Slice (values_of p pairs)).
  split_and!.
  - rewrite <- list_fmap_compose. apply Forall_fmap_ext_1.
    eapply Forall_impl; [exact Hall|]. intros v (ts & msg & -> & Hts). simpl.
    by rewrite decimal_value_Sprintf_d by eauto using has_digits_nonneg.
  - apply Forall_fmap. eapply Forall_impl; [exact Hall|].
    intros v (ts & msg & -> & Hts). simpl.
    by rewrite decimal_value_Sprintf_d by eauto using has_digits_nonneg.
  - apply (Sorted_chronological digits); [exact Hall|apply sort_Slice_Sorted].
Qed.

End ChronologicalStreams.

Lemma streams_are_chronological_within_one_digit_count_witness :
  map Values (Streams (build_request rfc3339_utc_UnixNano shipper day_sink day_log))
  = [[["1700000000000000000"; "undated"];
      ["1714554000000000000"; "earlier"];
      ["1714557600000000000"; "later"]]]
  /\ Forall (fun st =>
            exists tss,
              hd "" <$> Values st = Sprintf_d <$> tss
              /\ Forall (has_digits 19) tss
              /\ Sorted Z.le tss)
         (Streams (build_request rfc3339_utc_UnixNano shipper day_sink day_log)).
Proof.
  split; [vm_compute; reflexivity|].
  apply (streams_are_chronological_within_one_digit_count
           rfc3339_utc_UnixNano shipper day_sink day_log 19).
  - intros e ts He Hp.
    repeat (apply elem_of_cons in He as [->|He]);
      [..|by apply elem_of_nil in He];
      vm_compute in Hp; try discriminate Hp; injection Hp as <-;
      unfold has_digits;
      change (10 ^ (19 - 1)) with 1000000000000000000;
      change (10 ^ 19) with 10000000000000000000; lia.
  - intros i Hi. cbn [day_sink now_UnixNano day_log length] in *.
    unfold has_digits;
      change (10 ^ (19 - 1)) with 1000000000000000000;
      change (10 ^ 19) with 10000000000000000000. lia.
Defined.

(* ===================================================================== *)
(** * The Prometheus exporter                                             *)
(* ===================================================================== *)

Lemma deliver_all sends :
  Forall is_Some sends -> deliver sends = (omap id sends, false).
Proof.
  induction 1 as [|s sends [m ->] _ IH]; [done|].
  cbn [deliver]. rewrite IH. done.
Qed.

Lemma deliver_app_all sends rest :
  Forall is_Some sends ->
  deliver (sends ++ rest)
  = (omap id sends ++ fst (deliver rest), snd (deliver rest)).
Proof.
  induction 1 as [|s sends [m ->] _ IH]; [simpl; by destruct (deliver rest)|].
  cbn [deliver app]. rewrite IH. done.
Qed.

Lemma MustNewConstMetric_Some desc vt v ls m :
  MustNewConstMetric desc vt v ls = Some m ->
  metric_desc m = desc /\ valueType m = vt /\ value m = v /\ labelValues m = ls
  /\ length ls = length (variableLabels desc).
Proof.
  unfold MustNewConstMetric.
  destruct (Nat.eqb_spec (length ls) (length (variableLabels desc))); [|done].
  by intros [= <-].
Qed.

Ltac built_sends :=
  repeat first
    [ apply Forall_nil_2
    | apply Forall_cons_2;
      [ let m := fresh "m" in
        let Hm := fresh "Hm" in
        intros m Hm; apply MustNewConstMetric_Some in Hm as (-> & _ & _ & -> & Hm);
        split; [exact Hm|];
        apply list_elem_of_In; cbn [Describe In];
        repeat first [left; reflexivity | right] |] ].

Lemma Collect_sends_built p modemStats :
  Forall (built_for p) (Collect_sends p modemStats).
Proof.
  unfold Collect_sends. rewrite !Forall_app, !Forall_flat_map. split_and!.
  - apply Forall_forall. intros c _. unfold down_sends.
    destruct (String.eqb _ TypeVDSL); built_sends.
  - apply Forall_forall. intros c _. unfold up_sends.
    destruct (String.eqb _ TypeVDSL); [|destruct (0 <? SymbolRate c)];
      cbn [app]; built_sends.
  - apply Forall_forall. intros c _. unfold config_sends.
    destruct (Maxburst c =? 0); cbn [app]; built_sends.
  - built_sends.
Qed.

Ltac successful_sends :=
  repeat first
    [ apply Forall_nil_2 | apply Forall_cons_2; [eexists; reflexivity|] ].

Lemma Collect_sends_succeed modemType modemStats :
  types_agree modemType modemStats ->
  Forall is_Some (Collect_sends (ProExporter modemType) modemStats).
Proof.
  unfold types_agree. intros Hagree. unfold Collect_sends.
  rewrite !Forall_app, !Forall_flat_map. split_and!.
  - apply Forall_forall. intros c _. unfold down_sends, ProExporter.
    rewrite Hagree. destruct (String.eqb modemType TypeVDSL); successful_sends.
  - apply Forall_forall. intros c _. unfold up_sends, ProExporter.
    rewrite Hagree. destruct (String.eqb modemType TypeVDSL);
      [|destruct (0 <? SymbolRate c)]; cbn [app]; successful_sends.
  - apply Forall_forall. intros c _. unfold config_sends, ProExporter.
    destruct (String.eqb modemType TypeVDSL), (Maxburst c =? 0);
      cbn [app]; successful_sends.
  - unfold ProExporter.
    destruct (String.eqb modemType TypeVDSL); successful_sends.
Qed.

Lemma length_omap_all (sends : list (option Metric)) :
  Forall is_Some sends -> length (omap id sends) = length sends.
Proof. induction 1 as [|s sends [m ->] _ IH]; [done|]. csimpl. by rewrite IH. Qed.

Lemma Describe_names modemType :
  fqName <$> Describe (ProExporter modemType)
  = ["modemstats_downstream_frequency"; "modemstats_upstream_frequency";
     "modemstats_downstream_power"; "modemstats_upstream_power";
     "modemstats_downstream_snr"; "modemstats_downstream_postrserr";
     "modemstats_downstream_prerserr"; "modemstats_downstream_locked";
     "modemstats_upstream_locked"; "modemstats_upstream_symbol_rate";
     "modemstats_upstream_t1_timeout_total"; "modemstats_upstream_t2_timeout_total";
     "modemstats_upstream_t3_timeout_total"; "modemstats_upstream_t4_timeout_total";
     "modemstats_config_maxrate"; "modemstats_config_maxburst";
     "modemstats_shstatsinfo_timems";
     "modemstats_downstream_noise"; "modemstats_downstream_attenuation";
     "modemstats_upstream_noise"; "modemstats_upstream_attenuation"].
Proof. unfold ProExporter. by destruct (String.eqb modemType TypeVDSL). Qed.

(** X20: when the statistics and the exporter take the same side of the VDSL
    test, [Collect] never panics: every metric it builds is sent, each has
    exactly as many label values as its descriptor declares labels, and each
    uses a descriptor that [Describe] announces; the 21 descriptors have
    pairwise different names. *)
Theorem Collect_label_counts_match (modemType : string) (modemStats : ModemStats) :
  types_agree modemType modemStats ->
  let p := ProExporter modemType in
  let sends := Collect_sends p modemStats in
  snd (deliver sends) = false
  /\ length (fst (deliver sends)) = length sends
  /\ Forall (fun m =>
               length (labelValues m) = length (variableLabels (metric_desc m))
               /\ metric_desc m ∈ Describe p)
            (fst (deliver sends))
  /\ NoDup (fqName <$> Describe p).
Proof.
  intros Hagree p sends.
  pose proof (Collect_sends_succeed modemType modemStats Hagree) as Hok.
  pose proof (Collect_sends_built p modemStats) as Hbuilt.
  fold p in Hok. fold sends in Hok, Hbuilt.
  rewrite (deliver_all sends) by done.
  cbn [fst snd]. split_and!.
  - done.
  - by apply length_omap_all.
  - clear -Hbuilt. induction Hbuilt as [|[m|] rest Hm _ IH]; [constructor| |done].
    csimpl. constructor; [by apply Hm|done].
  - subst p. rewrite Describe_names.
    apply (bool_decide_unpack _). vm_compute. exact I.
Qed.

Lemma Collect_label_counts_match_witness :
  types_agree TypeDocsis scraped_stats
  /\ snd (deliver (Collect_sends (ProExporter TypeDocsis) scraped_stats)) = false
  /\ length (fst (deliver (Collect_sends (ProExporter TypeDocsis) scraped_stats)))
     = 31%nat.
Proof.
  assert (H : types_agree TypeDocsis scraped_stats) by (vm_compute; reflexivity).
  pose proof (Collect_label_counts_match TypeDocsis scraped_stats H) as T.
  cbv zeta in T. destruct T as (T1 & T2 & _).
  split; [exact H|]. split; [exact T1|].
  rewrite T2. vm_compute. reflexivity.
Defined.

(** X21: when the statistics and the exporter take different sides of the
    VDSL test and there is at least one channel, [Collect] panics on the
    first metric it builds: nothing is sent, not even the fetch time. *)
Theorem Collect_panics_when_the_types_disagree
    (modemType : string) (modemStats : ModemStats) :
  ~ types_agree modemType modemStats ->
  DownChannels modemStats ++ UpChannels modemStats <> [] ->
  deliver (Collect_sends (ProExporter modemType) modemStats) = ([], true).
Proof.
  unfold types_agree, Collect_sends. intros Hdis Hsome.
  destruct (String.eqb (ModemType modemStats) TypeVDSL) eqn:E1,
           (String.eqb modemType TypeVDSL) eqn:E2; try done;
    destruct (DownChannels modemStats) as [|c down];
    destruct (UpChannels modemStats) as [|c' up]; try done;
    cbn [flat_map app]; unfold down_sends, up_sends, ProExporter;
    rewrite ?E1, ?E2; reflexivity.
Qed.

Lemma Collect_panics_when_the_types_disagree_witness :
  ~ types_agree TypeVDSL scraped_stats
  /\ DownChannels scraped_stats ++ UpChannels scraped_stats <> []
  /\ deliver (Collect_sends (ProExporter TypeVDSL) scraped_stats) = ([], true).
Proof.
  assert (H1 : ~ types_agree TypeVDSL scraped_stats)
    by (unfold types_agree; vm_compute; discriminate).
  assert (H2 : DownChannels scraped_stats ++ UpChannels scraped_stats <> [])
    by (vm_compute; discriminate).
  split; [exact H1|]. split; [exact H2|].
  exact (Collect_panics_when_the_types_disagree TypeVDSL scraped_stats H1 H2).
Defined.

Lemma ParseStats_same_address lib w sh5 sh5' :
  IPAddress sh5 = IPAddress sh5' ->
  ParseStats lib w (ClearStats sh5) = ParseStats lib w (ClearStats sh5').
Proof.
  intros Hip. rewrite !ParseStats_uncached by done.
  rewrite !started_ClearStats, !fetched_results_ClearStats, !fetch_trace_ClearStats.
  unfold started, fetched_results, fetch_trace, queries_of, apiAddress.
  rewrite Hip. destruct (String.eqb (IPAddress sh5') ""); cbn [fst snd IPAddress];
    by rewrite ?Hip.
Qed.

(** X22: a scrape of the Superhub 5 never uses what the modem object holds
    from earlier calls: two modems with the same address, whatever their
    cached document and stored fetch time, give the same metrics, the same
    modem afterwards and the same effects, and those effects begin with a
    clock reading, the fetch of the three statistics addresses and a second
    clock reading. *)
Theorem Collect_ignores_the_cache
    (p : PrometheusExporter) (lib : JsonLib) (w : World) (sh5 sh5' : Modem) :
  IPAddress sh5 = IPAddress sh5' ->
  Collect p lib w sh5 = Collect p lib w sh5'
  /\ exists out, snd (Collect p lib w sh5) = fetch_trace sh5 ++ out.
Proof.
  intros Hip. split.
  - unfold Collect, ResetStats, FetchStats.
    by rewrite (ParseStats_same_address lib w sh5 sh5' Hip).
  - destruct (ParseStats_refetches lib w sh5) as (r & m & out & E). exists out.
    unfold Collect, ResetStats, FetchStats. rewrite E.
    destruct r as [stats|err|]; [destruct (deliver _)|destruct (deliver _)|]; done.
Qed.

Lemma Collect_ignores_the_cache_witness :
  IPAddress fresh_modem = IPAddress cached_modem
  /\ Stats fresh_modem <> Stats cached_modem
  /\ Collect (ProExporter TypeDocsis) test_json unavailable_world fresh_modem
     = Collect (ProExporter TypeDocsis) test_json unavailable_world cached_modem.
Proof.
  assert (H : IPAddress fresh_modem = IPAddress cached_modem) by reflexivity.
  split; [exact H|]. split; [discriminate|].
  exact (proj1 (Collect_ignores_the_cache (ProExporter TypeDocsis) test_json
                  unavailable_world fresh_modem cached_modem H)).
Defined.

Lemma normalize_ModemType results fetchTime :
  ModemType (fst (normalize results fetchTime)) = "".
Proof.
  unfold normalize.
  destruct (range_channels downstream_body 0 _ [] []) as [down out1].
  by destruct (range_channels upstream_body 0 _ [] out1) as [up out2].
Qed.

Lemma deliver_last pre s :
  snd (deliver (pre ++ [s])) = false ->
  last (fst (deliver (pre ++ [s]))) = s.
Proof.
  induction pre as [|[m|] pre IH]; cbn [app deliver].
  - by destruct s.
  - destruct (deliver (pre ++ [s])) as [ms panicked] eqn:E. cbn [fst snd] in *.
    intros Hp. specialize (IH Hp). rewrite <- IH.
    destruct ms as [|m' ms]; [|done].
    destruct s; [done|].
    subst panicked. clear -E. exfalso.
    induction pre as [|[m1|] pre IH]; cbn [app deliver] in E; [done| |done].
    destruct (deliver (pre ++ [None])) as [ms1 p1]. by injection E.
  - done.
Qed.

Lemma Collect_sends_end p modemStats :
  snd (deliver (Collect_sends p modemStats)) = false ->
  last (fst (deliver (Collect_sends p modemStats)))
  = MustNewConstMetric (fetchtime p) GaugeValue (StatsFetchTime modemStats) [].
Proof. unfold Collect_sends. rewrite !app_assoc. apply deliver_last. Qed.

(** X23: what a scrape of the Superhub 5 reports as the fetch time.  The
    scrape never panics, and the modem afterwards holds the time measured
    around the fetch.  When [ParseStats] succeeds every metric built is sent
    and the last one is the fetch time with the measured value.  When it
    fails the error is dropped and exactly one metric is sent: a fetch time
    of 0, not the measured one. *)
Theorem Collect_reports_the_fetch_time (lib : JsonLib) (w : World) (sh5 : Modem) :
  let p := ProExporter (Modem_Type sh5) in
  let measured := GoInt.sub (now_UnixMilli w 1) (now_UnixMilli w 0) in
  let out := Collect p lib w sh5 in
  let metrics := fst (fst (fst out)) in
  snd (fst (fst out)) = false
  /\ FetchTime (snd (fst out)) = measured
  /\ match fst (fst (ParseStats lib w (ClearStats sh5))) with
     | Returns modemStats =>
         length metrics = length (Collect_sends p modemStats)
         /\ last metrics = Some (mkMetric (fetchtime p) GaugeValue measured [])
     | Fails _ => metrics = [mkMetric (fetchtime p) GaugeValue 0 []]
     | Crashes => False
     end.
Proof.
  cbv zeta. unfold Collect, ResetStats, FetchStats, Modem_Type.
  rewrite ParseStats_uncached by done.
  rewrite started_ClearStats, fetched_results_ClearStats, fetch_trace_ClearStats.
  pose proof (accumulate_frame lib (fetched_results w sh5) (started w sh5)) as [_ Hft].
  pose proof (accumulate_no_crash lib (fetched_results w sh5) (started w sh5)
                (fetched_results_body w sh5)) as Hc.
  destruct (accumulate lib _ _) as [[[]|err|] sh1]; cbn [fst snd] in *; [| |done].
  - unfold parse_block. destruct (Unmarshal_results lib _) as [err|results].
    + cbn [fst snd]. split; [reflexivity|]. split; [exact Hft|reflexivity].
    + pose proof (service_flows_frame results (FetchTime sh1)) as Htime.
      pose proof (normalize_ModemType results (FetchTime sh1)) as Hty.
      destruct (normalize results (FetchTime sh1)) as [modemStats out].
      cbn [fst snd] in *.
      assert (types_agree TypeDocsis modemStats) as Hagree
        by (unfold types_agree; by rewrite Hty).
      pose proof (Collect_sends_succeed _ _ Hagree) as Hok.
      pose proof (Collect_sends_end (ProExporter TypeDocsis) modemStats) as Hend.
      rewrite (deliver_all _ Hok) in *. cbn [fst snd] in *.
      split; [done|]. split; [exact Hft|]. split; [by apply length_omap_all|].
      rewrite Hend by done. rewrite Htime, Hft. reflexivity.
  - cbn [fst snd]. split; [reflexivity|]. split; [exact Hft|reflexivity].
Qed.

(** ** Which metrics are left out *)

Lemma metrics_named_app name ms1 ms2 :
  metrics_named name (ms1 ++ ms2) = metrics_named name ms1 ++ metrics_named name ms2.
Proof. apply List.filter_app. Qed.

Lemma values_named_flat_map {A : Type} (f : A -> list (option Metric))
    (g : A -> list Z) name (l : list A) :
  (forall a, value <$> metrics_named name (omap id (f a)) = g a) ->
  value <$> metrics_named name (omap id (flat_map f l)) = flat_map g l.
Proof.
  intros Hf. induction l as [|a l IH]; [done|].
  cbn [flat_map]. rewrite omap_app, metrics_named_app, fmap_app, Hf, IH. done.
Qed.

Lemma values_named_none {A : Type} (f : A -> list (option Metric)) name (l : list A) :
  (forall a, value <$> metrics_named name (omap id (f a)) = []) ->
  value <$> metrics_named name (omap id (flat_map f l)) = [].
Proof.
  intros Hf. rewrite (values_named_flat_map f (fun _ => []) name l Hf).
  by induction l.
Qed.

Lemma flat_map_filter {A : Type} (keep : A -> bool) (h : A -> Z) (l : list A) :
  flat_map (fun a => if keep a then [h a] else []) l
  = h <$> List.filter keep l.
Proof.
  induction l as [|a l IH]; [done|]. cbn [flat_map List.filter].
  rewrite IH. by destruct (keep a).
Qed.

Ltac drop_fetch_time :=
  match goal with
  | |- context [value <$> metrics_named ?n (omap id [?x])] =>
      change (value <$> metrics_named n (omap id [x])) with (@nil Z)
  end;
  rewrite app_nil_r; cbn [app].

(** X24: which optional metrics a DOCSIS scrape leaves out.  The symbol rate
    is sent for exactly the upstream channels whose rate is above zero, the
    maximum burst for exactly the service flows whose burst is not zero (a
    negative one is sent), in the order of the statistics; the maximum rate
    is sent for every service flow. *)
Theorem Collect_leaves_out_zero_rates (modemType : string) (modemStats : ModemStats) :
  String.eqb modemType TypeVDSL = false ->
  String.eqb (ModemType modemStats) TypeVDSL = false ->
  let metrics := fst (deliver (Collect_sends (ProExporter modemType) modemStats)) in
  value <$> metrics_named "modemstats_upstream_symbol_rate" metrics
  = SymbolRate <$> List.filter (fun c => 0 <? SymbolRate c) (UpChannels modemStats)
  /\ value <$> metrics_named "modemstats_config_maxburst" metrics
     = Maxburst <$> List.filter (fun c => negb (Maxburst c =? 0)) (Configs modemStats)
  /\ value <$> metrics_named "modemstats_config_maxrate" metrics
     = Maxrate <$> Configs modemStats.
Proof.
  intros Hty Hstats. cbv zeta.
  assert (types_agree modemType modemStats) as Hagree
    by (unfold types_agree; by rewrite Hty, Hstats).
  rewrite (deliver_all _ (Collect_sends_succeed _ _ Hagree)). cbn [fst].
  unfold Collect_sends. rewrite !omap_app, !metrics_named_app, !fmap_app.
  unfold ProExporter. rewrite Hty.
  split_and!.
  - rewrite (values_named_none (down_sends _ _))
      by (intros c; unfold down_sends; by rewrite Hstats).
    rewrite (values_named_flat_map (up_sends _ _)
               (fun c => if 0 <? SymbolRate c then [SymbolRate c] else []))
      by (intros c; unfold up_sends; rewrite Hstats;
          by destruct (0 <? SymbolRate c)).
    rewrite (values_named_none (config_sends _))
      by (intros c; unfold config_sends; by destruct (Maxburst c =? 0)).
    rewrite flat_map_filter. drop_fetch_time. done.
  - rewrite (values_named_none (down_sends _ _))
      by (intros c; unfold down_sends; by rewrite Hstats).
    rewrite (values_named_none (up_sends _ _))
      by (intros c; unfold up_sends; rewrite Hstats;
          by destruct (0 <? SymbolRate c)).
    rewrite (values_named_flat_map (config_sends _)
               (fun c => if negb (Maxburst c =? 0) then [Maxburst c] else []))
      by (intros c; unfold config_sends; by destruct (Maxburst c =? 0)).
    rewrite flat_map_filter. drop_fetch_time. done.
  - rewrite (values_named_none (down_sends _ _))
      by (intros c; unfold down_sends; by rewrite Hstats).
    rewrite (values_named_none (up_sends _ _))
      by (intros c; unfold up_sends; rewrite Hstats;
          by destruct (0 <? SymbolRate c)).
    rewrite (values_named_flat_map (config_sends _) (fun c => [Maxrate c]))
      by (intros c; unfold config_sends; by destruct (Maxburst c =? 0)).
    drop_fetch_time.
    induction (Configs modemStats) as [|c l IH]; [done|].
    cbn [flat_map]. by rewrite IH.
Qed.

Lemma Collect_leaves_out_zero_rates_witness :
  String.eqb TypeDocsis TypeVDSL = false
  /\ String.eqb (ModemType scraped_stats) TypeVDSL = false
  /\ Maxburst <$> Configs scraped_stats = [42600; 0]
  /\ value <$> metrics_named "modemstats_config_maxburst"
                 (fst (deliver (Collect_sends (ProExporter TypeDocsis) scraped_stats)))
     = [42600].
Proof.
  assert (H1 : String.eqb TypeDocsis TypeVDSL = false) by reflexivity.
  assert (H2 : String.eqb (ModemType scraped_stats) TypeVDSL = false)
    by (vm_compute; reflexivity).
  pose proof (Collect_leaves_out_zero_rates TypeDocsis scraped_stats H1 H2) as T.
  cbv zeta in T. destruct T as (_ & T & _).
  split; [exact H1|]. split; [exact H2|]. split; [vm_compute; reflexivity|].
  rewrite T. vm_compute. reflexivity.
Defined.

(* ===================================================================== *)
(** * The small helpers of utils                                          *)
(* ===================================================================== *)

Lemma Split_space_nonempty s : Split_space s <> [].
Proof.
  induction s as [|c rest IH]; [done|]. cbn [Split_space].
  destruct (Ascii.eqb c " "); [done|]. by destruct (Split_space rest).
Qed.

Lemma Split_space_no_space s : no_space s = true -> Split_space s = [s].
Proof.
  induction s as [|c rest IH]; [done|]. cbn [Split_space no_space].
  destruct (Ascii.eqb c " "); [done|]. cbn [negb andb]. by intros ->%IH.
Qed.

Lemma Split_space_first_field a b :
  no_space a = true -> hd "" (Split_space (a +:+ " " +:+ b)) = a.
Proof.
  induction a as [|c rest IH]; [done|]. cbn [no_space].
  rewrite append_cons_l. cbn [Split_space].
  destruct (Ascii.eqb c " "); [done|]. cbn [negb andb]. intros Hrest.
  specialize (IH Hrest).
  pose proof (Split_space_nonempty (rest +:+ " " +:+ b)) as Hne.
  destruct (Split_space (rest +:+ " " +:+ b)) as [|part parts]; [done|].
  cbn [hd] in *. by rewrite IH.
Qed.

(** The digits [string_of_uint] writes. *)
Lemma string_of_uint_digits d :
  no_space (NilEmpty.string_of_uint d) = true
  /\ match list_ascii_of_string (NilEmpty.string_of_uint d) with
     | [] => d = Decimal.Nil
     | c :: _ => c <> "-"%char /\ c <> "+"%char
     end.
Proof.
  split; [induction d; cbn; try done|destruct d; cbn; done].
Qed.

Lemma Atoi_Sprintf_d n : GoInt.in_range n -> Atoi (Sprintf_d n) = Some n.
Proof.
  intros Hn. apply GoInt_in_rangeb_spec in Hn.
  destruct n as [|p|p].
  - done.
  - rewrite Sprintf_d_pos. unfold Atoi.
    pose proof (digits_val_string_of_uint (Pos.to_uint p) 0) as Hv.
    rewrite to_uint_value in Hv.
    destruct (string_of_uint_digits (Pos.to_uint p)) as [_ Hhd].
    pose proof (Unsigned.to_uint_nonnil p) as Hnil.
    destruct (list_ascii_of_string _) as [|c cs]; [done|].
    destruct Hhd as [Hm Hp].
    assert (match c :: cs with
            | "-"%char :: rest => (true, rest)
            | "+"%char :: rest => (false, rest)
            | _ => (false, c :: cs)
            end = (false, c :: cs)) as ->.
    { destruct c as [[] [] [] [] [] [] [] []]; done. }
    by rewrite Hv, Hn.
  - unfold Sprintf_d, Atoi.
    cbn [Z.to_int NilZero.string_of_int list_ascii_of_string].
    pose proof (Unsigned.to_uint_nonnil p) as Hnil.
    pose proof (digits_val_string_of_uint (Pos.to_uint p) 0) as Hv.
    rewrite to_uint_value in Hv.
    destruct (string_of_uint_digits (Pos.to_uint p)) as [_ Hhd].
    assert (NilZero.string_of_uint (Pos.to_uint p)
            = NilEmpty.string_of_uint (Pos.to_uint p)) as ->
      by (unfold NilZero.string_of_uint; by destruct (Pos.to_uint p)).
    destruct (list_ascii_of_string _) as [|c cs]; [done|].
    rewrite Hv. change (- Z.pos p) with (Z.neg p). by rewrite Hn.
Qed.

Lemma no_space_Sprintf_d n : no_space (Sprintf_d n) = true.
Proof.
  destruct n as [|p|p]; [done| |].
  - rewrite Sprintf_d_pos. apply string_of_uint_digits.
  - unfold Sprintf_d. cbn [Z.to_int NilZero.string_of_int no_space].
    unfold NilZero.string_of_uint.
    pose proof (proj1 (string_of_uint_digits (Pos.to_uint p))).
    by destruct (Pos.to_uint p).
Qed.

Lemma Atoi_in_range s n : Atoi s = Some n -> GoInt.in_range n.
Proof.
  unfold Atoi.
  destruct (match list_ascii_of_string s with
            | "-"%char :: rest => (true, rest)
            | "+"%char :: rest => (false, rest)
            | _ => (false, list_ascii_of_string s)
            end) as [neg ds].
  destruct ds as [|c cs]; [done|].
  destruct (digits_val 0 (c :: cs)) as [un|]; [|done].
  destruct (GoInt.in_rangeb _) eqn:E; [|done].
  intros [= <-]. by apply GoInt_in_rangeb_spec.
Qed.

(** X25: [ExtractIntValue] reads back what [%d] printed: for every [int] the
    decimal form, alone or followed by a space and any unit text, is read as
    that number. *)
Theorem ExtractIntValue_reads_back_a_printed_value (n : Z) (unit : string) :
  GoInt.in_range n ->
  ExtractIntValue (Sprintf_d n +:+ " " +:+ unit) = n
  /\ ExtractIntValue (Sprintf_d n) = n.
Proof.
  intros Hn. unfold ExtractIntValue. split.
  - pose proof (Split_space_first_field (Sprintf_d n) unit (no_space_Sprintf_d n)) as Hhd.
    pose proof (Split_space_nonempty (Sprintf_d n +:+ " " +:+ unit)) as Hne.
    destruct (Split_space _) as [|part parts]; [done|]. cbn [hd] in Hhd. subst part.
    by rewrite Atoi_Sprintf_d.
  - rewrite (Split_space_no_space _ (no_space_Sprintf_d n)).
    by rewrite Atoi_Sprintf_d.
Qed.

Lemma ExtractIntValue_reads_back_a_printed_value_witness :
  GoInt.in_range (-15)
  /\ Sprintf_d (-15) +:+ " " +:+ "dBmV" = "-15 dBmV"
  /\ ExtractIntValue "-15 dBmV" = -15.
Proof.
  assert (H : GoInt.in_range (-15)) by (vm_compute; split; discriminate).
  split; [exact H|]. split; [reflexivity|].
  exact (proj1 (ExtractIntValue_reads_back_a_printed_value (-15) "dBmV" H)).
Defined.

(** X26: [ExtractIntValue] looks at the text before the first space only:
    what follows never changes the result, a value that starts with a space
    reads as 0, the result is always an [int], and a first field [Atoi]
    rejects reads as 0. *)
Theorem ExtractIntValue_reads_only_the_first_field (value rest : string) :
  no_space value = true ->
  ExtractIntValue (value +:+ " " +:+ rest) = ExtractIntValue value
  /\ ExtractIntValue (" " +:+ rest) = 0
  /\ GoInt.in_range (ExtractIntValue (value +:+ " " +:+ rest))
  /\ (Atoi value = None -> ExtractIntValue (value +:+ " " +:+ rest) = 0).
Proof.
  intros Hv.
  assert (ExtractIntValue (value +:+ " " +:+ rest) = ExtractIntValue value) as E.
  { unfold ExtractIntValue.
    pose proof (Split_space_first_field value rest Hv) as Hhd.
    pose proof (Split_space_nonempty (value +:+ " " +:+ rest)) as Hne.
    destruct (Split_space (value +:+ _)) as [|part parts]; [done|].
    cbn [hd] in Hhd. subst part. by rewrite (Split_space_no_space _ Hv). }
  split; [exact E|]. split; [done|]. rewrite E.
  unfold ExtractIntValue. rewrite (Split_space_no_space _ Hv).
  split.
  - destruct (Atoi value) as [n|] eqn:Ha; [by eapply Atoi_in_range|].
    vm_compute. split; discriminate.
  - by intros ->.
Qed.

Lemma ExtractIntValue_reads_only_the_first_field_witness :
  no_space "5120" = true
  /\ ExtractIntValue ("5120" +:+ " " +:+ "ksym/sec 64") = ExtractIntValue "5120"
  /\ ExtractIntValue "5120" = 5120.
Proof.
  assert (H : no_space "5120" = true) by reflexivity.
  split; [exact H|].
  split; [|vm_compute; reflexivity].
  exact (proj1 (ExtractIntValue_reads_only_the_first_field "5120" "ksym/sec 64" H)).
Defined.

Ltac in_trace := repeat constructor.

Ltac not_in_trace :=
  let H := fresh "H" in
  intros H; repeat (apply elem_of_cons in H as [H|H]; [discriminate H|]);
  by apply elem_of_nil in H.

(** X27: [SimpleHTTPFetch] succeeds exactly when the request returns a
    response with status 200 whose body can be read; it then returns the body
    and the time between its two clock readings.  Every failure returns a nil
    body and a fetch time of 0.  Any other status, 2xx included, is reported
    as "<status> status code recieved" without reading the body.  The body is
    closed exactly when the request returned a response and no error; the
    last effect is that close, or else the request itself. *)
Theorem SimpleHTTPFetch_accepts_only_status_200
    (get : string -> GetOutcome) (now_UnixMilli : nat -> Z) (url : string) :
  let out := SimpleHTTPFetch get now_UnixMilli url in
  let stats := fst (fst (fst out)) in
  let fetchTime := snd (fst (fst out)) in
  let err := snd (fst out) in
  (err = None <->
     exists body, get url = GetResp (mkWireResponse 200 (ReadOk body)))
  /\ (forall body, get url = GetResp (mkWireResponse 200 (ReadOk body)) ->
        stats = Some body
        /\ fetchTime = GoInt.sub (now_UnixMilli 1%nat) (now_UnixMilli 0%nat))
  /\ (err <> None -> stats = None /\ fetchTime = 0)
  /\ (forall resp, get url = GetResp resp -> wire_StatusCode resp <> 200 ->
        err = Some (ErrMsg (Sprintf_d (wire_StatusCode resp) +:+ " status code recieved"))
        /\ FeReadAll ∉ snd out)
  /\ (FeClose ∈ snd out <-> exists resp, get url = GetResp resp)
  /\ (forall ev, last (snd out) = Some ev -> ev = FeClose \/ ev = FeGet url).
Proof.
  cbv zeta. unfold SimpleHTTPFetch.
  destruct (get url) as [[status body]|e|[status body] e]; cbn [wire_StatusCode wire_Body];
    [destruct (Z.eqb_spec status 200) as [->|Hs]; cbn [negb];
     [destruct body as [data|e]|]|..];
    cbn [fst snd]; split_and!.
  (* status 200, body read *)
  - split; [by eexists|done].
  - by intros body [= ->].
  - done.
  - intros resp [= <-] H. by destruct H.
  - split; [by eexists|intros _; in_trace].
  - intros ev [= <-]. by left.
  (* status 200, body unreadable *)
  - split; [done|by intros [body [=]]].
  - by intros body [=].
  - done.
  - intros resp [= <-] H. by destruct H.
  - split; [by eexists|intros _; in_trace].
  - intros ev [= <-]. by left.
  (* another status *)
  - split; [done|intros [data [= -> _]]; by destruct Hs].
  - intros data [= -> _]. by destruct Hs.
  - done.
  - intros resp [= <-]. split; [done|not_in_trace].
  - split; [by eexists|intros _; in_trace].
  - intros ev [= <-]. by left.
  (* no response *)
  - split; [done|by intros [body [=]]].
  - by intros body [=].
  - done.
  - by intros resp [=].
  - split; [not_in_trace|by intros [resp [=]]].
  - intros ev [= <-]. by right.
  (* a response and an error *)
  - split; [done|by intros [data [=]]].
  - by intros data [=].
  - done.
  - by intros resp [=].
  - split; [not_in_trace|by intros [resp [=]]].
  - intros ev [= <-]. by right.
Qed.

(** X28: [RandomInt] draws from the half-open range: when [min < max] are
    [int]s whose difference an [int] holds, the result is at least [min] and
    below [max]; when [max <= min], again with a difference an [int] holds,
    the call panics.  Without the bound on the difference the subtraction
    wraps: from the least to the greatest [int] the call panics although the
    range is not empty. *)
Theorem RandomInt_stays_in_the_half_open_range (draw : Z -> Z) (min max : Z) :
  GoInt.in_range min -> GoInt.in_range max ->
  (min < max -> max - min <= GoInt.max_int ->
     exists r, RandomInt draw min max = Some r /\ min <= r < max)
  /\ (max <= min -> GoInt.min_int <= max - min -> RandomInt draw min max = None)
  /\ RandomInt draw GoInt.min_int GoInt.max_int = None.
Proof.
  unfold GoInt.in_range, GoInt.min_int, GoInt.max_int. intros Hmin Hmax.
  split_and!.
  - intros Hlt Hd. unfold RandomInt, IntN_of, GoInt.sub.
    rewrite (GoInt_wrap_id (max - min))
      by (unfold GoInt.in_range, GoInt.min_int, GoInt.max_int; lia).
    destruct (Z.leb_spec (max - min) 0) as [|Hpos]; [lia|].
    pose proof (Z.mod_pos_bound (draw (max - min)) (max - min) Hpos) as Hr.
    eexists. split; [reflexivity|]. unfold GoInt.add.
    rewrite GoInt_wrap_id
      by (unfold GoInt.in_range, GoInt.min_int, GoInt.max_int; lia).
    lia.
  - intros Hle Hd. unfold RandomInt, IntN_of, GoInt.sub.
    rewrite (GoInt_wrap_id (max - min))
      by (unfold GoInt.in_range, GoInt.min_int, GoInt.max_int; lia).
    destruct (Z.leb_spec (max - min) 0) as [|Hpos]; [done|lia].
  - reflexivity.
Qed.

Lemma RandomInt_stays_in_the_half_open_range_witness :
  GoInt.in_range 10 /\ GoInt.in_range 20
  /\ RandomInt (fun _ => 1234567) 10 20 = Some 17
  /\ exists r, RandomInt (fun _ => 1234567) 10 20 = Some r /\ 10 <= r < 20.
Proof.
  assert (H1 : GoInt.in_range 10) by (vm_compute; split; discriminate).
  assert (H2 : GoInt.in_range 20) by (vm_compute; split; discriminate).
  split; [exact H1|]. split; [exact H2|]. split; [vm_compute; reflexivity|].
  apply (proj1 (RandomInt_stays_in_the_half_open_range (fun _ => 1234567) 10 20 H1 H2)).
  - lia.
  - vm_compute. discriminate.
Defined.

(* ===================================================================== *)
(** * The numeric portion of a modulation, and the identity key           *)
(* ===================================================================== *)

Lemma take_digits_run found after :
  all_digits found = true ->
  match after with EmptyString => True | String c _ => is_digit c = false end ->
  take_digits (found +:+ after) = found.
Proof.
  intros Hall Hafter. induction found as [|c found IH].
  - rewrite append_nil_l. destruct after as [|a after]; [done|].
    cbn [take_digits]. by rewrite Hafter.
  - cbn [all_digits] in Hall. apply andb_true_iff in Hall as [Hc Hall].
    rewrite append_cons_l. cbn [take_digits]. by rewrite Hc, IH.
Qed.

Lemma FindString_numeric_portion s :
  numeric_portion s (modulationRegex_FindString s).
Proof.
  induction s as [|c rest IH].
  - exists "", "". done.
  - cbn [modulationRegex_FindString]. destruct (is_digit c) eqn:Hc.
    + exists "".
      assert (exists after,
                 rest = take_digits rest +:+ after
                 /\ all_digits (take_digits rest) = true
                 /\ match after with
                    | EmptyString => True
                    | String a _ => is_digit a = false
                    end) as (after & Hrest & Hall & Hafter).
      { clear. induction rest as [|a rest (after & Hrest & Hall & Hafter)].
        - by exists "".
        - cbn [take_digits]. destruct (is_digit a) eqn:Ha.
          + exists after. rewrite append_cons_l, <- Hrest. cbn [all_digits].
            by rewrite Ha, Hall.
          + by exists (String a rest). }
      exists after. rewrite append_nil_l, append_cons_l, <- Hrest.
      cbn [all_digits]. by rewrite Hc, Hall.
    + destruct IH as (before & after & Hrest & Hb & Hall & Hafter & Hempty).
      exists (String c before), after. rewrite append_cons_l, <- Hrest.
      cbn [no_digit]. by rewrite Hc, Hb.
Qed.

Lemma numeric_portion_unique s found :
  numeric_portion s found -> found = modulationRegex_FindString s.
Proof.
  intros (before & after & -> & Hb & Hall & Hafter & Hempty).
  induction before as [|b before IH].
  - rewrite append_nil_l. destruct found as [|c found].
    + by rewrite Hempty.
    + cbn [all_digits] in Hall. apply andb_true_iff in Hall as [Hc Hall].
      rewrite append_cons_l. cbn [modulationRegex_FindString]. rewrite Hc.
      by rewrite take_digits_run.
  - cbn [no_digit] in Hb. apply andb_true_iff in Hb as [Hc Hb].
    apply negb_true_iff in Hc.
    rewrite append_cons_l. cbn [modulationRegex_FindString]. rewrite Hc.
    by apply IH.
Qed.

(** C6: a downstream entry tagged "sc_qam" is emitted with power
    int(float32 power * 10), SNR * 10, pre-RS = corrected + uncorrected,
    post-RS = uncorrected, modulation "QAM" followed by the numeric portion
    of the raw modulation, and scheme "SC-QAM".  The numeric portion is the
    first run of decimal digits, taken as far as it goes, and empty when
    there is no digit; it is the only string that is.  The integer
    arithmetic is Go's and is the exact product and sum whenever those fit
    64 bits; raw power 2.1 gives 21, raw SNR 41 gives 410 and raw modulation
    "qam_256" gives "QAM256". *)
Theorem C6_sc_qam_is_scaled (results : resultsStruct) (fetchTime : Z)
    (i : nat) (d : dsChannel) :
  Downstream_Channels results !! i = Some d ->
  ds_ChannelType d = "sc_qam" ->
  exists c, c ∈ DownChannels (fst (normalize results fetchTime))
    /\ sc_qam_normalized d c
    /\ (GoInt.in_range (ds_SNR d * 10) -> Snr c = ds_SNR d * 10)
    /\ (GoInt.in_range (ds_PreRS d + ds_PostRS d) ->
        Prerserr c = ds_PreRS d + ds_PostRS d)
    /\ (ds_Power d = Float32.of_decimal 21 10 -> Power c = 21)
    /\ (ds_SNR d = 41 -> Snr c = 410)
    /\ (exists qamSize,
          Modulation c = "QAM" +:+ qamSize
          /\ numeric_portion (ds_Modulation d) qamSize
          /\ forall found, numeric_portion (ds_Modulation d) found -> found = qamSize)
    /\ (ds_Modulation d = "qam_256" -> Modulation c = "QAM256")
    /\ (no_digit (ds_Modulation d) = true -> Modulation c = "QAM").
Proof.
  intros Hi Htype. rewrite normalize_DownChannels.
  destruct (downstream_body i d) as [line|c] eqn:Hbody.
  { unfold downstream_body in Hbody. by rewrite Htype in Hbody. }
  exists c. split; [apply elem_of_emitted; by exists i, d|].
  unfold downstream_body in Hbody. rewrite Htype in Hbody. simpl in Hbody.
  injection Hbody as <-. unfold sc_qam_normalized. simpl.
  split_and!; try done.
  - intros Hr. by apply GoInt_wrap_id.
  - intros Hr. by apply GoInt_wrap_id.
  - intros ->. by vm_compute.
  - intros ->. by vm_compute.
  - exists (modulationRegex_FindString (ds_Modulation d)).
    split; [done|]. split; [apply FindString_numeric_portion|].
    apply numeric_portion_unique.
  - by intros ->.
  - intros Hnone.
    rewrite <- (numeric_portion_unique (ds_Modulation d) ""); [done|].
    exists (ds_Modulation d), "". split_and!; try done.
    clear. induction (ds_Modulation d) as [|a s IH]; [done|].
    by rewrite append_cons_l, <- IH.
Qed.

Lemma C6_sc_qam_is_scaled_witness :
  exists c, c ∈ DownChannels (fst (normalize skip_document 100))
    /\ Power c = 21 /\ Snr c = 410
    /\ Prerserr c = 257919 /\ Postrserr c = 11087
    /\ Modulation c = "QAM256" /\ Scheme c = "SC-QAM"
    /\ numeric_portion "qam_256" "256".
Proof.
  destruct (C6_sc_qam_is_scaled skip_document 100 1 channel_37 eq_refl eq_refl)
    as (c & Hin & Hnorm & _ & Hpre & Hpower & Hsnr & Hportion & Hlabel & _).
  destruct Hnorm as (_ & _ & _ & _ & Hpost & _ & Hscheme).
  destruct Hportion as (qamSize & Hmod & Hnum & _).
  exists c. split; [exact Hin|].
  split; [exact (Hpower eq_refl)|]. split; [exact (Hsnr eq_refl)|].
  split; [apply Hpre; vm_compute; split; discriminate|].
  split; [exact Hpost|]. split; [exact (Hlabel eq_refl)|]. split; [exact Hscheme|].
  rewrite (Hlabel eq_refl) in Hmod.
  repeat rewrite append_cons_l in Hmod. rewrite append_nil_l in Hmod.
  injection Hmod as <-. exact Hnum.
Defined.

(** X16: on entries whose timestamp and priority hold no "|", the identity
    key tells entries apart exactly, so shipping one of two different
    entries never hides the other.  Without that condition it does not:
    the two entries [bar_in_priority] and [bar_in_message] differ and have
    the same key, so after one is shipped the other is taken for seen and
    is never selected as new. *)
Theorem logKey_identifies_entries_without_bars (entry entry' : EventLogEntry) :
  no_bar (Timestamp entry) = true -> no_bar (Priority entry) = true ->
  no_bar (Timestamp entry') = true -> no_bar (Priority entry') = true ->
  (logKey entry = logKey entry' <-> entry = entry')
  /\ (entry <> entry' ->
      forall l entries,
        seen l (logKey entry') = false -> entry' ∈ entries ->
        seen (mark_seen l [entry]) (logKey entry') = false
        /\ entry' ∈ filter_new (mark_seen l [entry]) entries)
  /\ (bar_in_priority <> bar_in_message
      /\ logKey bar_in_priority = logKey bar_in_message
      /\ forall l entries,
           seen (mark_seen l [bar_in_priority]) (logKey bar_in_message) = true
           /\ bar_in_message ∉ filter_new (mark_seen l [bar_in_priority]) entries).
Proof.
  intros Ht Hp Ht' Hp'.
  assert (logKey entry = logKey entry' -> entry = entry') as Hinj.
  { unfold logKey. intros Heq.
    apply append_bar_injective in Heq as [Hts Heq]; [|done|done].
    apply append_bar_injective in Heq as [Hpr Hmsg]; [|done|done].
    destruct entry, entry'. simpl in *. by subst. }
  split_and!.
  - split; [exact Hinj|by intros ->].
  - intros Hne l entries Hs Hin.
    assert (seen (mark_seen l [entry]) (logKey entry') = false) as Hs'.
    { rewrite seen_mark_seen, Hs, orb_false_r. apply bool_decide_eq_false.
      intros Hk%list_elem_of_fmap. destruct Hk as (e & Hk & He).
      apply list_elem_of_singleton in He as ->. apply Hne. by apply Hinj. }
    split; [exact Hs'|]. by apply filter_new_spec.
  - discriminate.
  - reflexivity.
  - intros l entries.
    assert (seen (mark_seen l [bar_in_priority]) (logKey bar_in_message) = true) as Hs.
    { rewrite seen_mark_seen. apply orb_true_iff. left.
      apply bool_decide_eq_true. apply list_elem_of_fmap.
      exists bar_in_priority. split; [reflexivity|by left]. }
    split; [exact Hs|].
    intros [_ Hnot]%filter_new_spec. by rewrite Hs in Hnot.
Qed.

Lemma logKey_identifies_entries_without_bars_witness :
  mkEventLogEntry "notice" "1970-01-01T00:00:30Z" "earlier"
    <> mkEventLogEntry "notice" "1970-01-01T00:01:45Z" "later"
  /\ logKey (mkEventLogEntry "notice" "1970-01-01T00:00:30Z" "earlier")
     <> logKey (mkEventLogEntry "notice" "1970-01-01T00:01:45Z" "later")
  /\ mkEventLogEntry "notice" "1970-01-01T00:01:45Z" "later"
     ∈ filter_new
         (mark_seen shipper [mkEventLogEntry "notice" "1970-01-01T00:00:30Z" "earlier"])
         boot_log.
Proof.
  assert (Hne : mkEventLogEntry "notice" "1970-01-01T00:00:30Z" "earlier"
                <> mkEventLogEntry "notice" "1970-01-01T00:01:45Z" "later")
    by discriminate.
  destruct (logKey_identifies_entries_without_bars
              (mkEventLogEntry "notice" "1970-01-01T00:00:30Z" "earlier")
              (mkEventLogEntry "notice" "1970-01-01T00:01:45Z" "later")
              eq_refl eq_refl eq_refl eq_refl) as (Hiff & Hkeep & _).
  split; [exact Hne|]. split.
  - intros Hk. exact (Hne (proj1 Hiff Hk)).
  - refine (proj2 (Hkeep Hne shipper boot_log eq_refl _)).
    apply list_elem_of_In. right. left. reflexivity.
Defined.

(* ===================================================================== *)
(** * Failed accumulation and the cached document                         *)
(* ===================================================================== *)

Lemma ParseStats_refetches_unset lib w sh5 :
  Stats sh5 = None ->
  exists r sh5' out, ParseStats lib w sh5 = (r, sh5', fetch_trace sh5 ++ out).
Proof.
  intros Hnil. rewrite ParseStats_uncached by done.
  destruct (accumulate lib _ _) as [[[]|err|] sh5']; eexists _, _, _;
    try done; by rewrite app_nil_r.
Qed.

Lemma accumulate_body_Fails lib query sh1 sh2 e :
  accumulate_body lib query sh1 = (Fails e, sh2) ->
  (fetch_or_read_failure query e /\ sh2 = sh1)
  \/ exists merged,
       merge_failure lib sh1 query e merged
       /\ sh2 = {| IPAddress := IPAddress sh1; Stats := merged;
                   FetchTime := FetchTime sh1 |}.
Proof.
  unfold accumulate_body, fetch_or_read_failure, merge_failure.
  destruct (Err query) as [err|] eqn:Herr.
  { intros [= -> ->]. left. split; [by left|done]. }
  destruct (Body (Res query)) as [[stats|err]|] eqn:Hbody; [| |done].
  - destruct (MergeMergePatches lib _ stats) as [merged [err|]] eqn:Hm; [|done].
    intros [= -> <-]. right. exists merged. split; [|done].
    split; [done|]. by exists stats.
  - intros [= -> ->]. left. split; [|done]. right. done.
Qed.

Lemma merge_failure_Stats lib query sh1 sh2 e merged :
  accumulate_body lib query sh1 = (Fails e, sh2) ->
  merge_failure lib sh1 query e merged ->
  sh2 = {| IPAddress := IPAddress sh1; Stats := merged; FetchTime := FetchTime sh1 |}.
Proof.
  intros Hq (Herr & stats & Hbody & Hm). unfold accumulate_body in Hq.
  rewrite Herr, Hbody, Hm in Hq. by injection Hq as <-.
Qed.

(** C1 (amended): when a fetch of the accumulation set returns an error, or
    a body cannot be read, or a merge fails, [ParseStats] aborts the
    accumulation and returns that error; these are the only failures of the
    accumulation.  After a fetch or read failure the cached document is not
    unset: it is the "{}" seed merged with the fragments handled before the
    failure, so the next [ParseStats] call issues no fetch and decodes that
    document.  After a merge failure the cached document is what the merge
    handed back with its error; with a library that hands back nil then, the
    cache is left unset and the next [ParseStats] call issues the full fetch
    set again.  In every case the full fetch set is issued again once
    [ClearStats] has run. *)
Theorem C1_failed_accumulation_keeps_document
    (lib : JsonLib) (w : World) (sh5 : Modem)
    (pre post : list HttpResult) (query : HttpResult)
    (sh1 sh2 : Modem) (e : error) :
  fetched_results w sh5 = pre ++ query :: post ->
  accumulate lib pre (started w sh5) = (Returns (), sh1) ->
  accumulate_body lib query sh1 = (Fails e, sh2) ->
  ParseStats lib w (ClearStats sh5) = (Fails e, sh2, fetch_trace sh5)
  /\ (fetch_or_read_failure query e ->
      sh2 = sh1
      /\ (pre = [] -> Stats sh2 = Some empty_object)
      /\ (merge_returns_document lib -> is_Some (Stats sh2)))
  /\ (is_Some (Stats sh2) ->
      forall w', ParseStats lib w' sh2
                 = (fst (parse_block lib sh2), sh2, snd (parse_block lib sh2)))
  /\ (forall w', exists r sh3 out,
        ParseStats lib w' (ClearStats sh2) = (r, sh3, fetch_trace sh2 ++ out))
  /\ (fetch_or_read_failure query e \/ exists merged, merge_failure lib sh1 query e merged)
  /\ (forall merged,
        merge_failure lib sh1 query e merged ->
        sh2 = {| IPAddress := IPAddress sh1; Stats := merged; FetchTime := FetchTime sh1 |}
        /\ (merged = None ->
            forall w', exists r sh3 out,
              ParseStats lib w' sh2 = (r, sh3, fetch_trace sh2 ++ out)))
  /\ (merge_error_returns_nil lib ->
      (exists merged, merge_failure lib sh1 query e merged) ->
      Stats sh2 = None
      /\ forall w', exists r sh3 out,
           ParseStats lib w' sh2 = (r, sh3, fetch_trace sh2 ++ out)).
Proof.
  intros Hres Hpre Hq. split_and!.
  - by eapply ParseStats_surfaces_failure.
  - intros Hkind. rewrite (accumulate_body_failure lib query sh1 e Hkind) in Hq.
    injection Hq as <-. split_and!; [done| |].
    + intros ->. simpl in Hpre. by injection Hpre as <-.
    + intros Hlib. eapply accumulate_keeps_document; [done| |exact Hpre].
      by eexists.
  - intros Hdoc w'. by apply ParseStats_cached.
  - intros w'. apply ParseStats_refetches.
  - destruct (accumulate_body_Fails lib query sh1 sh2 e Hq)
      as [[Hkind _]|(merged & Hm & _)]; [by left|right; by exists merged].
  - intros merged Hm.
    pose proof (merge_failure_Stats lib query sh1 sh2 e merged Hq Hm) as Hsh2.
    split; [exact Hsh2|]. intros -> w'.
    apply ParseStats_refetches_unset. by rewrite Hsh2.
  - intros Hlib (merged & Hm).
    pose proof (merge_failure_Stats lib query sh1 sh2 e merged Hq Hm) as Hsh2.
    destruct Hm as (_ & stats & _ & Hmerge). apply Hlib in Hmerge as ->.
    assert (Stats sh2 = None) as Hnil by by rewrite Hsh2.
    split; [exact Hnil|]. intros w'. by apply ParseStats_refetches_unset.
Qed.

Lemma C1_failed_accumulation_keeps_document_witness :
  fetched_results array_world fresh_modem = [array_first] ++ array_second :: [array_last]
  /\ accumulate test_json [array_first] (started array_world fresh_modem)
     = (Returns (), started array_world fresh_modem)
  /\ merge_error_returns_nil test_json
  /\ merge_failure test_json (started array_world fresh_modem) array_second
       (ErrMsg "Invalid JSON Document") None
  /\ ParseStats test_json array_world (ClearStats fresh_modem)
     = (Fails (ErrMsg "Invalid JSON Document"),
        mkModem "192.168.100.1" None 40, fetch_trace fresh_modem)
  /\ forall w', exists r sh3 out,
       ParseStats test_json w' (mkModem "192.168.100.1" None 40)
       = (r, sh3, fetch_trace (mkModem "192.168.100.1" None 40) ++ out).
Proof.
  assert (H1 : fetched_results array_world fresh_modem
               = [array_first] ++ array_second :: [array_last])
    by (vm_compute; reflexivity).
  assert (H2 : accumulate test_json [array_first] (started array_world fresh_modem)
               = (Returns (), started array_world fresh_modem))
    by (vm_compute; reflexivity).
  assert (H3 : accumulate_body test_json array_second (started array_world fresh_modem)
               = (Fails (ErrMsg "Invalid JSON Document"),
                  mkModem "192.168.100.1" None 40))
    by (vm_compute; reflexivity).
  assert (H4 : merge_error_returns_nil test_json).
  { intros doc patch merged e. unfold test_json. cbn [MergeMergePatches].
    destruct (is_empty_object doc && is_empty_object patch); [discriminate|].
    intros Hm. injection Hm as <- _. reflexivity. }
  assert (H5 : merge_failure test_json (started array_world fresh_modem) array_second
                 (ErrMsg "Invalid JSON Document") None).
  { split; [reflexivity|]. exists array_body. split; reflexivity. }
  destruct (C1_failed_accumulation_keeps_document test_json array_world fresh_modem
              [array_first] [array_last] array_second
              (started array_world fresh_modem) (mkModem "192.168.100.1" None 40)
              (ErrMsg "Invalid JSON Document") H1 H2 H3)
    as (Hfails & _ & _ & _ & _ & _ & Hunset).
  split; [exact H1|]. split; [exact H2|]. split; [exact H4|]. split; [exact H5|].
  split; [exact Hfails|].
  exact (proj2 (Hunset H4 (ex_intro _ None H5))).
Defined.

(* ===================================================================== *)
(** * Deduplication across two cycles                                     *)
(* ===================================================================== *)

Section Deduplication.
Context (time_Parse_UnixNano : string -> option Z).

Local Notation "'Push'" := (PushLogs time_Parse_UnixNano).
Local Notation "'Stamped'" := (stamped time_Parse_UnixNano).

Lemma elem_of_stamped w k entries entry :
  entry ∈ entries ->
  exists tsNano, (Priority entry, [tsNano; Message entry]) ∈ Stamped w k entries.
Proof.
  revert k. induction entries as [|e rest IH]; intros k Hin;
    [by apply elem_of_nil in Hin|].
  cbn [stamped]. apply elem_of_cons in Hin as [->|Hin].
  - destruct (time_Parse_UnixNano (Timestamp e)); eexists; by left.
  - destruct (time_Parse_UnixNano (Timestamp e));
      [destruct (IH k Hin) as [ts Hts]|destruct (IH (S k) Hin) as [ts Hts]];
      exists ts; by right.
Qed.

Lemma elem_of_values_of p v (pairs : list (string * list string)) :
  (p, v) ∈ pairs -> v ∈ values_of p pairs.
Proof.
  intros Hin. unfold values_of. apply list_elem_of_In, in_map_iff.
  exists (p, v). split; [done|]. apply filter_In. split; [by apply list_elem_of_In|].
  apply String.eqb_refl.
Qed.

Lemma confirmed_or_error l w entries :
  fetched w = inr entries -> filter_new l entries <> [] ->
  fst (fst (Push l w)) = None -> push_confirmed w.
Proof.
  intros Hf Hne Hok.
  destruct (PushLogs_new time_Parse_UnixNano l w entries Hf Hne) as (_ & _ & Hnot).
  destruct (posted w) as [status|err] eqn:Hp.
  - destruct (decide (200 <= status < 300)) as [Hr|Hr]; [by exists status|].
    destruct Hnot as [[x Hx] _]; [|congruence].
    intros (st & Hst & Hst'). rewrite Hp in Hst. by injection Hst as <-.
  - destruct Hnot as [[x Hx] _]; [|congruence].
    intros (st & Hst & _). by rewrite Hp in Hst.
Qed.

(** C5 (amended): when every fetched entry is already in the seen set,
    [PushLogs] returns nil and its only effect is the fetch of the log.
    Over two consecutive cycles fed the same entries, of which at least one
    is new, there is exactly one push when the sink confirms the first with
    a 2xx status: the second cycle then finds nothing new and pushes
    nothing, whatever its sink would answer.  That push holds one stream per
    priority among the new entries, and the stream of a priority holds the
    pairs [timestamp, message] of exactly the new entries of that priority.
    When the first push is not confirmed nothing is marked as seen and the
    second cycle pushes the same entries again; when no entry is new nothing
    is pushed at all. *)
Theorem C5_seen_entries_are_not_pushed_again
    (l : LokiExporter) (w1 w2 : ShipWorld) (entries : list EventLogEntry) :
  fetched w1 = inr entries ->
  fetched w2 = inr entries ->
  let l1 := snd (fst (Push l w1)) in
  let newEntries := filter_new l entries in
  let req := build_request time_Parse_UnixNano l w1 newEntries in
  ((forall entry, entry ∈ entries -> seen l (logKey entry) = true) ->
   Push l w1 = (None, l, [EvFetchEventLog]))
  /\ (fst (fst (Push l w1)) = None ->
      filter_new l1 entries = []
      /\ Push l1 w2 = (None, l1, [EvFetchEventLog])
      /\ pushes (snd (Push l w1) ++ snd (Push l1 w2))
         = match newEntries with
           | [] => []
           | _ :: _ => [req]
           end)
  /\ (newEntries <> [] -> push_confirmed w1 ->
      fst (fst (Push l w1)) = None
      /\ pushes (snd (Push l w1) ++ snd (Push l1 w2)) = [req])
  /\ (newEntries <> [] -> ~ push_confirmed w1 ->
      l1 = l
      /\ filter_new l1 entries = newEntries
      /\ pushes (snd (Push l w1) ++ snd (Push l1 w2))
         = [req; build_request time_Parse_UnixNano l w2 newEntries])
  /\ (forall entry, entry ∈ newEntries ->
        exists st tsNano,
          st ∈ Streams req
          /\ Stream st !! "level" = Some (Priority entry)
          /\ [tsNano; Message entry] ∈ Values st)
  /\ (forall st, st ∈ Streams req ->
        exists p, p ∈ Priority <$> newEntries
          /\ Stream st !! "level" = Some p
          /\ Values st ≡ₚ values_of p (Stamped w1 0%nat newEntries))
  /\ NoDup ((fun st => Stream st !! "level") <$> Streams req).
Proof.
  intros Hf1 Hf2. cbv zeta.
  assert (fst (fst (Push l w1)) = None ->
          filter_new (snd (fst (Push l w1))) entries = []
          /\ Push (snd (fst (Push l w1))) w2
             = (None, snd (fst (Push l w1)), [EvFetchEventLog])
          /\ pushes (snd (Push l w1) ++ snd (Push (snd (fst (Push l w1))) w2))
             = match filter_new l entries with
               | [] => []
               | _ :: _ => [build_request time_Parse_UnixNano l w1 (filter_new l entries)]
               end) as Hcycles.
  { intros Hok.
    destruct (filter_new l entries) as [|e rest] eqn:Hnew.
    - rewrite (PushLogs_nothing_new time_Parse_UnixNano l w1 entries Hf1 Hnew). simpl.
      rewrite (PushLogs_nothing_new time_Parse_UnixNano l w2 entries Hf2 Hnew). done.
    - assert (filter_new l entries <> []) as Hne by by rewrite Hnew.
      destruct (PushLogs_new time_Parse_UnixNano l w1 entries Hf1 Hne)
        as (Hpush & Hconf & _).
      pose proof (confirmed_or_error l w1 entries Hf1 Hne Hok) as Hc.
      destruct (Hconf Hc) as [_ Hl1]. rewrite Hl1, Hnew in *.
      assert (filter_new (mark_seen l (e :: rest)) entries = []) as Hnil.
      { rewrite <- Hnew. apply filter_new_after_mark. }
      rewrite (PushLogs_nothing_new time_Parse_UnixNano _ w2 entries Hf2 Hnil).
      split; [done|]. split; [done|].
      unfold pushes in *. rewrite omap_app, Hpush. done. }
  pose proof (elem_of_build_request time_Parse_UnixNano l w1 (filter_new l entries))
    as Hmem.
  split_and!.
  - intros Hall. apply (PushLogs_nothing_new time_Parse_UnixNano l w1 entries Hf1).
    by apply filter_new_nil.
  - exact Hcycles.
  - intros Hne Hc.
    destruct (PushLogs_new time_Parse_UnixNano l w1 entries Hf1 Hne) as (_ & Hconf & _).
    destruct (Hconf Hc) as [Hok _]. split; [exact Hok|].
    destruct (Hcycles Hok) as (_ & _ & Hp).
    by destruct (filter_new l entries).
  - intros Hne Hc.
    destruct (PushLogs_new time_Parse_UnixNano l w1 entries Hf1 Hne) as (Hp1 & _ & Hnot).
    destruct (Hnot Hc) as [_ Hl1]. rewrite Hl1.
    destruct (PushLogs_new time_Parse_UnixNano l w2 entries Hf2 Hne) as (Hp2 & _ & _).
    split; [done|]. split; [done|].
    unfold pushes in *. by rewrite omap_app, Hp1, Hp2.
  - intros entry Hin.
    destruct (elem_of_stamped w1 0 (filter_new l entries) entry Hin) as [tsNano Hts].
    exists {| Stream := <["level" := Priority entry]> (labels l);
              Values := sort_Slice (values_of (Priority entry)
                                      (Stamped w1 0%nat (filter_new l entries))) |},
           tsNano.
    split_and!.
    + apply Hmem. exists (Priority entry). split; [|done].
      by apply list_elem_of_fmap_2.
    + cbn [Stream]. by rewrite lookup_insert_eq.
    + cbn [Values]. rewrite sort_Slice_Permutation. by apply elem_of_values_of.
  - intros st (p & Hp & ->)%Hmem. exists p. cbn [Stream Values].
    split; [done|]. split; [by rewrite lookup_insert_eq|apply sort_Slice_Permutation].
  - unfold build_request, build_streams. cbn [Streams].
    change (map ?f ?x) with (fmap (M:=list) f x).
    rewrite <- list_fmap_compose.
    rewrite (list_fmap_ext _ (Some ∘ fst) (map_to_list _) );
      [|intros i [p vs] _; simpl; by rewrite lookup_insert_eq].
    rewrite list_fmap_compose. apply (NoDup_fmap_2 _), NoDup_fst_map_to_list.
Qed.

End Deduplication.

Lemma C5_seen_entries_are_not_pushed_again_witness :
  fetched accepting_sink = inr boot_log
  /\ fetched failing_sink = inr boot_log
  /\ filter_new shipper boot_log <> []
  /\ push_confirmed accepting_sink
  /\ pushes (snd (PushLogs rfc3339_utc_UnixNano shipper accepting_sink)
             ++ snd (PushLogs rfc3339_utc_UnixNano
                       (snd (fst (PushLogs rfc3339_utc_UnixNano shipper accepting_sink)))
                       failing_sink))
     = [build_request rfc3339_utc_UnixNano shipper accepting_sink
          (filter_new shipper boot_log)]
  /\ (Stream <$> Streams (build_request rfc3339_utc_UnixNano shipper accepting_sink
                            (filter_new shipper boot_log)))
     = [<["level" := "notice"]> (<["job" := "modem-stats"]> ∅)]
  /\ (Values <$> Streams (build_request rfc3339_utc_UnixNano shipper accepting_sink
                            (filter_new shipper boot_log)))
     = [[["105000000000"; "later"]; ["30000000000"; "earlier"]]].
Proof.
  assert (H1 : fetched accepting_sink = inr boot_log) by reflexivity.
  assert (H2 : fetched failing_sink = inr boot_log) by reflexivity.
  assert (H3 : filter_new shipper boot_log <> []) by (vm_compute; discriminate).
  assert (H4 : push_confirmed accepting_sink)
    by (exists 204; split; [reflexivity|lia]).
  pose proof (C5_seen_entries_are_not_pushed_again rfc3339_utc_UnixNano
                shipper accepting_sink failing_sink boot_log H1 H2) as H.
  cbv zeta in H. destruct H as (_ & _ & Hconfirmed & _).
  destruct (Hconfirmed H3 H4) as [_ Hpushes].
  split; [exact H1|]. split; [exact H2|]. split; [exact H3|]. split; [exact H4|].
  split; [exact Hpushes|]. split; vm_compute; reflexivity.
Defined.

(** C5 as stated fails: the same two entries are fed to two consecutive
    cycles whose sink answers 500.  The first push is not confirmed, so no
    key is marked; the second cycle finds both entries new again and pushes
    them a second time. *)
Lemma C5_failed_first_push_is_repeated :
  fetched failing_sink = inr boot_log
  /\ snd (fst (PushLogs rfc3339_utc_UnixNano shipper failing_sink)) = shipper
  /\ filter_new (snd (fst (PushLogs rfc3339_utc_UnixNano shipper failing_sink))) boot_log
     = boot_log
  /\ pushes (snd (PushLogs rfc3339_utc_UnixNano shipper failing_sink)
             ++ snd (PushLogs rfc3339_utc_UnixNano
                       (snd (fst (PushLogs rfc3339_utc_UnixNano shipper failing_sink)))
                       failing_sink))
     = [build_request rfc3339_utc_UnixNano shipper failing_sink boot_log;
        build_request rfc3339_utc_UnixNano shipper failing_sink boot_log]
  /\ (Values <$> Streams (build_request rfc3339_utc_UnixNano shipper failing_sink boot_log))
     = [[["105000000000"; "later"]; ["30000000000"; "earlier"]]].
Proof. split_and!; vm_compute; reflexivity. Qed.
